(** * hexSnippets: the merge-and-refresh engine of [src/extension.ts]

    A shallow embedding of the snippet loader, the repository
    configuration resolver, the per-cycle synchronisation loop and the
    completion-provider registration, followed by the properties the
    specification states about them.

    JavaScript strings are sequences of UTF-16 code units; a code unit is
    modelled as an [N] and a string as a [list N], so that [\s], [trim]
    and [split] range over the same alphabet as in the source.  A [Map]
    is an association list in insertion order, as iteration order is
    observable ([entries], [keys], [values]). *)

From Stdlib Require Import String Ascii List NArith ZArith Bool Arith Lia.
From Stdlib Require DecimalString DecimalN DecimalFacts.
Import ListNotations.

Set Implicit Arguments.
Set Warnings "-register-all".

(* ================================================================== *)
(** ** Strings *)

Module Js.

Definition char := N.
Definition str := list char.

(** A literal: the code units of an ASCII [string]. *)
Fixpoint lit (s : string) : str :=
  match s with
  | EmptyString => []
  | String a r => N_of_ascii a :: lit r
  end.

Definition eqb (a b : str) : bool :=
  if list_eq_dec N.eq_dec a b then true else false.

(** [WhiteSpace] and [LineTerminator] of ECMAScript: the class [\s] of a
    regular expression and the characters [String.prototype.trim]
    strips. *)
Definition is_space (c : char) : bool :=
  ((9 <=? c) && (c <=? 13)          (* TAB LF VT FF CR *)
   || (c =? 32)                     (* SP *)
   || (c =? 160)                    (* NBSP *)
   || (c =? 5760)                   (* U+1680 *)
   || ((8192 <=? c) && (c <=? 8202))  (* U+2000 .. U+200A *)
   || (c =? 8232) || (c =? 8233)    (* LS PS *)
   || (c =? 8239) || (c =? 8287)    (* U+202F U+205F *)
   || (c =? 12288)                  (* U+3000 *)
   || (c =? 65279))%N.              (* U+FEFF *)

Definition comma : char := 44%N.
Definition LF : char := 10%N.
Definition CR : char := 13%N.

(** The character class [[,\s]]. *)
Definition is_sep (c : char) : bool := (c =? comma)%N || is_space c.

Fixpoint trimStart (s : str) : str :=
  match s with
  | c :: r => if is_space c then trimStart r else s
  | [] => []
  end.

Definition trimEnd (s : str) : str := rev (trimStart (rev s)).

(** [s.trim()] *)
Definition trim (s : str) : str := trimEnd (trimStart s).

(** Truthiness of a string: [Boolean(s)], [!!s]. *)
Definition truthy (s : str) : bool :=
  match s with [] => false | _ => true end.

(** [s.split(/C+/)] for a character class [C]: the pieces between the
    maximal runs of class characters.  [cur] is the piece being read,
    reversed; [inrun] tells that the previous character was matched.  A
    run at either end of the string leaves an empty piece there, and the
    empty string splits into one empty piece. *)
Fixpoint split_runs (C : char -> bool) (inrun : bool) (cur : str) (s : str)
  : list str :=
  match s with
  | [] => [rev cur]
  | c :: r =>
      if C c then
        if inrun then split_runs C true cur r
        else rev cur :: split_runs C true [] r
      else split_runs C false (c :: cur) r
  end.

(** [s.split(/[,\s]+/)] *)
Definition split_seps (s : str) : list str := split_runs is_sep false [] s.

(** [s.split(/\r?\n/)]: a match is a line feed, together with the carriage
    return right before it when there is one. *)
Fixpoint split_lines_from (cur : str) (s : str) : list str :=
  match s with
  | [] => [rev cur]
  | c :: r =>
      if (c =? LF)%N then rev cur :: split_lines_from [] r
      else
        match r with
        | d :: r' =>
            if (c =? CR)%N && (d =? LF)%N
            then rev cur :: split_lines_from [] r'
            else split_lines_from (c :: cur) r
        | [] => split_lines_from (c :: cur) r
        end
  end.

Definition split_lines (s : str) : list str := split_lines_from [] s.

(** [s.endsWith(suffix)] *)
Fixpoint startsWith (s p : str) : bool :=
  match p, s with
  | [], _ => true
  | a :: p', b :: s' => (a =? b)%N && startsWith s' p'
  | _ :: _, [] => false
  end.

Definition endsWith (s suffix : str) : bool := startsWith (rev s) (rev suffix).

(** [parts.join(sep)] *)
Fixpoint join (sep : str) (parts : list str) : str :=
  match parts with
  | [] => []
  | [p] => p
  | p :: rest => p ++ sep ++ join sep rest
  end.

(** [p.length > 0 ? p[p.length - 1] : ""] *)
Definition lastChar (p : str) : str :=
  match rev p with
  | [] => []
  | c :: _ => [c]
  end.

(** Decimal rendering of a non-negative integer, as a template literal
    [`${n}`] prints it. *)
Definition ofN (n : N) : str := lit (DecimalString.NilEmpty.string_of_uint (N.to_uint n)).

End Js.

Notation "'js' s" := (Js.lit s%string) (at level 9, s at level 0, only parsing).

Arguments Js.lit : simpl never.
Arguments Js.ofN : simpl never.

(* ================================================================== *)
(** ** Results and maps *)

(** The result of a call that may throw; [Err] carries the text that
    [err?.message || err] renders in a handler. *)
Inductive result (A : Type) : Type :=
| Ok (a : A)
| Err (msg : Js.str).

Arguments Ok {A} a.
Arguments Err {A} msg.

(** [Map<string, V>]: entries in insertion order, one per key. *)
Module JsMap.

Definition t (V : Type) := list (Js.str * V).

Fixpoint get {V} (k : Js.str) (m : t V) : option V :=
  match m with
  | [] => None
  | (k', v) :: r => if Js.eqb k' k then Some v else get k r
  end.

Definition has {V} (k : Js.str) (m : t V) : bool :=
  match get k m with Some _ => true | None => false end.

(** [m.set(k, v)]: an existing key keeps its place. *)
Fixpoint set {V} (k : Js.str) (v : V) (m : t V) : t V :=
  match m with
  | [] => [(k, v)]
  | (k', v') :: r =>
      if Js.eqb k' k then (k', v) :: r else (k', v') :: set k v r
  end.

Definition keys {V} (m : t V) : list Js.str := map fst m.
Definition values {V} (m : t V) : list V := map snd m.

(** [if (!m.has(k)) m.set(k, []); m.get(k)!.push(...xs)]: the array held
    under [k] grows in place. *)
Definition push {A} (k : Js.str) (xs : list A) (m : t (list A)) : t (list A) :=
  let m1 := if has k m then m else set k [] m in
  match get k m1 with
  | Some arr => set k (arr ++ xs) m1
  | None => m1
  end.

End JsMap.

(** [Array.from(new Set(l))]: the first occurrence of each element, in
    order.  [seen] holds what the set already contains. *)
Fixpoint uniq_from (seen : list Js.str) (l : list Js.str) : list Js.str :=
  match l with
  | [] => []
  | x :: r =>
      if existsb (Js.eqb x) seen then uniq_from seen r
      else x :: uniq_from (x :: seen) r
  end.

Definition uniq (l : list Js.str) : list Js.str := uniq_from [] l.

(* ================================================================== *)
(** ** Data model *)

(** [T | T[]] *)
Inductive OneOrMany (A : Type) : Type :=
| One (a : A)
| Many (l : list A).

Arguments One {A} a.
Arguments Many {A} l.

(** A prefix as the code finds it at run time.  The file is cast to the
    declared type without a check and [normalizeSnippet] does not look at
    the prefix, so besides a string it may be [undefined] (an entry
    without [prefix]), [null], or a number or a boolean, held as the text
    a template literal prints for it.  A prefix that is itself an array
    or an object is not modelled. *)
Inductive Prefix : Type :=
| PString (s : Js.str)
| PUndefined
| PNull
| PPrimitive (text : Js.str).

(** [`${prefix}`] *)
Definition prefixText (p : Prefix) : Js.str :=
  match p with
  | PString s => s
  | PUndefined => js "undefined"
  | PNull => js "null"
  | PPrimitive text => text
  end.

(** [p.length > 0 ? p[p.length - 1] : ""]: reading [length] of
    [undefined] or [null] throws; a number or a boolean has none. *)
Definition lastOf (p : Prefix) : result Js.str :=
  match p with
  | PString s => Ok (Js.lastChar s)
  | PUndefined =>
      Err (js "Cannot read properties of undefined (reading 'length')")
  | PNull => Err (js "Cannot read properties of null (reading 'length')")
  | PPrimitive _ => Ok []
  end.

(** [type RawSnippet], as an object holds it for which [normalizeSnippet]
    returns: the body is a string or an array and the scope is a string
    or falsy, or the function would throw; the prefix is one [Prefix] or
    an array of them.  The elements of a body array and the description are
    taken as strings, as declared: the code joins the first and hands on
    the second. *)
Record RawSnippet : Type := {
  raw_prefix : OneOrMany Prefix;
  raw_body : OneOrMany Js.str;
  raw_description : option Js.str;
  raw_scope : option Js.str
}.

(** A value of the object [JSON.parse] returns.  The loader casts the
    object to [Record<string, RawSnippet>] without a check, so a value is
    either one for which [normalizeSnippet] returns, of the declared type
    or not, or one on which it throws ([null], a body that is neither a
    string nor an array, a scope that is truthy and not a string); [err]
    is what the handler then reports. *)
Inductive Entry : Type :=
| Conforms (raw : RawSnippet)
| Throws (err : Js.str).

(** [type TeamSnippet]; the prefixes are as they come. *)
Record TeamSnippet : Type := {
  ts_name : Js.str;
  prefixes : list Prefix;
  bodyLines : list Js.str;
  ts_description : option Js.str;
  languages : list Js.str
}.

(** [type RepoConfig] *)
Record RepoConfig : Type := {
  rc_id : Js.str;
  rc_name : Js.str;
  localRepoPath : Js.str;
  branch : Js.str;
  snippetsPath : Js.str;
  includeJsonFiles : bool;
  enableGitPull : bool
}.

(** [type RepoStatus]; a [Date] is its time value. *)
Record RepoStatus : Type := {
  rs_id : Js.str;
  rs_name : Js.str;
  lastSync : option N;
  lastError : option Js.str;
  snippetCount : nat
}.

Definition SnippetMap := JsMap.t (list TeamSnippet).

(** [!x] and [!!x] on an optional string: [undefined] and the empty
    string are falsy. *)
Definition truthy_opt (x : option Js.str) : bool :=
  match x with
  | Some s => Js.truthy s
  | None => false
  end.

(** [normalizeSnippet(name, raw)] *)
Definition normalizeSnippet (name : Js.str) (raw : RawSnippet) : TeamSnippet :=
  let prefixes :=
    match raw_prefix raw with Many l => l | One p => [p] end in
  let bodyLines :=
    match raw_body raw with Many l => l | One b => Js.split_lines b end in
  let languages :=
    match raw_scope raw with
    | Some sc =>
        if Js.truthy sc && Js.truthy (Js.trim sc)
        then filter Js.truthy (map Js.trim (Js.split_seps sc))
        else [js "*"]
    | None => [js "*"]
    end in
  {| ts_name := name;
     prefixes := prefixes;
     bodyLines := bodyLines;
     ts_description := raw_description raw;
     languages := languages |}.

(** [countTotalSnippets(map)] *)
Definition countTotalSnippets (m : SnippetMap) : nat :=
  fold_left (fun count arr => count + length arr) (JsMap.values m) 0.

(* ================================================================== *)
(** ** Repository configuration *)

(** A settings value of type [any]: what [JSON] can hold, and
    [undefined] for an absent property.  A number is held as the text
    [String] gives for it: the code prints numbers and tests them for
    zero, and does nothing else with them. *)
Inductive value : Type :=
| VUndefined
| VNull
| VBool (b : bool)
| VNumber (shown : Js.str)
| VString (s : Js.str)
| VArray (items : list value)
| VObject (fields : list (Js.str * value)).

Module Value.

Definition truthy (v : value) : bool :=
  match v with
  | VUndefined | VNull => false
  | VBool b => b
  | VNumber shown => negb (Js.eqb shown (js "0"))
  | VString s => Js.truthy s
  | VArray _ | VObject _ => true
  end.

(** [a || b] *)
Definition or (a b : value) : value := if truthy a then a else b.

(** Whether an object parsed from JSON has the own property [key]. *)
Definition hasField (key : Js.str) (fields : list (Js.str * value)) : bool :=
  existsb (fun e => Js.eqb (fst e) key) fields.

(** [String(v)].  A number prints as its text.  An array prints its
    elements, [null] and [undefined] as nothing, with commas between.  An
    object prints as ["[object Object]"] through [Object.prototype], unless
    it has a property [toString] of its own: a value parsed from JSON is
    never callable, [valueOf] returns the object, and the conversion
    throws. *)
Fixpoint toString (v : value) : result Js.str :=
  match v with
  | VUndefined => Ok (js "undefined")
  | VNull => Ok (js "null")
  | VBool true => Ok (js "true")
  | VBool false => Ok (js "false")
  | VNumber shown => Ok shown
  | VString s => Ok s
  | VArray items =>
      match
        (fix each (l : list value) : result (list Js.str) :=
           match l with
           | [] => Ok []
           | x :: r =>
               match
                 match x with
                 | VUndefined | VNull => Ok []
                 | _ => toString x
                 end
               with
               | Ok piece =>
                   match each r with
                   | Ok pieces => Ok (piece :: pieces)
                   | Err e => Err e
                   end
               | Err e => Err e
               end
           end) items
      with
      | Ok pieces => Ok (Js.join (js ",") pieces)
      | Err e => Err e
      end
  | VObject fields =>
      if hasField (js "toString") fields
      then Err (js "Cannot convert object to primitive value")
      else Ok (js "[object Object]")
  end.

Fixpoint field (key : Js.str) (fields : list (Js.str * value)) : value :=
  match fields with
  | [] => VUndefined
  | (k, v) :: r => if Js.eqb k key then v else field key r
  end.

(** [r.key], for the property names this file reads on a settings entry;
    none of them is defined on a string, a number, a boolean or an
    array.  Reading a property of [null] or [undefined] throws. *)
Definition getProp (r : value) (key : Js.str) : result value :=
  match r with
  | VUndefined =>
      Err (js "Cannot read properties of undefined (reading '" ++ key ++ js "')")
  | VNull =>
      Err (js "Cannot read properties of null (reading '" ++ key ++ js "')")
  | VObject fields => Ok (field key fields)
  | _ => Ok VUndefined
  end.

(** [typeof v === "boolean" ? v : true] *)
Definition boolOrTrue (v : value) : bool :=
  match v with
  | VBool b => b
  | _ => true
  end.

End Value.

(** What [vscode.workspace.getConfiguration("hexSnippets")] answers to the
    [get] calls of this file. *)
Record Configuration : Type := {
  cfg_repositories : option (list value);
  cfg_localRepoPath : option Js.str;
  cfg_branch : option Js.str;
  cfg_snippetsPath : option Js.str;
  cfg_includeJsonFiles : option bool;
  cfg_enableGitPull : option bool;
  cfg_debug : option bool
}.

(** [x || d] on an optional string *)
Definition str_or (x : option Js.str) (d : Js.str) : Js.str :=
  match x with
  | Some s => if Js.truthy s then s else d
  | None => d
  end.

(** [x ?? d] *)
Definition nullish_or {A} (x : option A) (d : A) : A :=
  match x with
  | Some a => a
  | None => d
  end.

(** The callback of [repos.forEach] in [getRepoConfigs]: [None] when it
    returns without pushing. *)
Definition repoEntry (r : value) (index : N) : result (option RepoConfig) :=
  match Value.getProp r (js "localRepoPath") with
  | Err e => Err e
  | Ok p =>
      match Value.toString (Value.or p (VString [])) with
      | Err e => Err e
      | Ok path =>
          let localRepoPath := Js.trim path in
          if negb (Js.truthy localRepoPath) then Ok None
          else
            let get k :=
              Value.field k match r with VObject fs => fs | _ => [] end in
            match Value.toString (Value.or (get (js "name")) (VString [])) with
            | Err e => Err e
            | Ok name0 =>
                let name :=
                  if Js.truthy (Js.trim name0) then Js.trim name0
                  else js "Repo " ++ Js.ofN (index + 1) ++ js " ("
                       ++ localRepoPath ++ js ")" in
                match
                  Value.toString (Value.or (get (js "branch")) (VString (js "main")))
                with
                | Err e => Err e
                | Ok branch =>
                    match
                      Value.toString (Value.or (get (js "snippetsPath"))
                                        (VString (js "snippets")))
                    with
                    | Err e => Err e
                    | Ok snippetsPath =>
                        Ok (Some
                          {| rc_id := js "repo-" ++ Js.ofN index;
                             rc_name := name;
                             localRepoPath := localRepoPath;
                             branch := branch;
                             snippetsPath := snippetsPath;
                             includeJsonFiles :=
                               Value.boolOrTrue (get (js "includeJsonFiles"));
                             enableGitPull :=
                               Value.boolOrTrue (get (js "enableGitPull")) |})
                    end
                end
            end
      end
  end.

(** [repos.forEach((r, index) => ...)]; [out] is the array [result]. *)
Fixpoint forEachRepo (repos : list value) (index : N) (out : list RepoConfig)
  : result (list RepoConfig) :=
  match repos with
  | [] => Ok out
  | r :: rest =>
      match repoEntry r index with
      | Err e => Err e
      | Ok None => forEachRepo rest (index + 1) out
      | Ok (Some c) => forEachRepo rest (index + 1) (out ++ [c])
      end
  end.

(** [getRepoConfigs(cfg)] *)
Definition getRepoConfigs (cfg : Configuration) : result (list RepoConfig) :=
  let repos := nullish_or (cfg_repositories cfg) [] in
  if (0 <? length repos)%nat then forEachRepo repos 0 []
  else
    let fallbackPath := Js.trim (str_or (cfg_localRepoPath cfg) []) in
    if negb (Js.truthy fallbackPath) then Ok []
    else
      Ok [ {| rc_id := js "fallback";
              rc_name := js "Default Repo";
              localRepoPath := fallbackPath;
              branch := str_or (cfg_branch cfg) (js "main");
              snippetsPath := str_or (cfg_snippetsPath cfg) (js "snippets");
              includeJsonFiles := nullish_or (cfg_includeJsonFiles cfg) true;
              enableGitPull := nullish_or (cfg_enableGitPull cfg) true |} ].

(* ================================================================== *)
(** ** The host: editor, file system, git *)

(** An entry of [fs.readdirSync(dir, { withFileTypes: true })].  A
    directory entry carries what [readdirSync] answers for it in turn, so
    that the recursion of [walk] is on the tree the disk holds. *)
Inductive Dirent : Type :=
| FileEnt (name : Js.str)
| DirEnt (name : Js.str) (listing : result (list Dirent)).

(** What the extension observes of its surroundings.  [World] is the
    state outside the extension: the disk, the remote, the settings and
    the clock. *)
Class Host : Type := {
  World : Type;
  (** [vscode.workspace.getConfiguration("hexSnippets")] *)
  getConfiguration : World -> Configuration;
  (** [vscode.workspace.workspaceFolders?.[0].uri.fsPath] *)
  workspaceFolder : World -> option Js.str;
  (** [process.cwd()] *)
  cwd : World -> Js.str;
  (** [path.isAbsolute], [path.join] on two segments *)
  isAbsolute : Js.str -> bool;
  join : Js.str -> Js.str -> Js.str;
  (** [String.prototype.toLowerCase] *)
  toLowerCase : Js.str -> Js.str;
  existsSync : World -> Js.str -> bool;
  readdirSync : World -> Js.str -> result (list Dirent);
  (** [fs.readFileSync(file, "utf8")] *)
  readFileSync : World -> Js.str -> result Js.str;
  (** [Object.entries(JSON.parse(text) as Record<string, RawSnippet>)];
      [Err] when [JSON.parse] throws *)
  parseEntries : Js.str -> result (list (Js.str * Entry));
  (** [execFile(file, args, { timeout: 60_000 }, callback)]: the world
      once the callback runs, and [(error.message, stdout, stderr)] when
      it is called with an error *)
  execFile : Js.str -> list Js.str -> World ->
             World * option (Js.str * Js.str * Js.str);
  (** the time value of [new Date()] *)
  dateNow : World -> N;
  (** [Date.prototype.toLocaleString] *)
  toLocaleString : N -> Js.str
}.

(** [vscode.DocumentSelector] of a registered provider *)
Inductive Selector : Type :=
| ByLanguage (lang : Js.str)     (* [{ language: lang }] *)
| ByFileScheme.                  (* [{ scheme: "file" }] *)

(** One call of [vscode.languages.registerCompletionItemProvider]: the
    selector, the snippets the provider's closure offers, and the trigger
    characters. *)
Record Provider : Type := {
  selector : Selector;
  offered : list TeamSnippet;
  triggerChars : list Js.str
}.

(** [vscode.CompletionItem], kind [Snippet]; the label and the filter text
    are the prefix as it comes. *)
Record CompletionItem : Type := {
  label : Prefix;
  insertText : Js.str;
  filterText : Prefix;
  sortText : Js.str;
  detail : Js.str;
  documentation : option Js.str
}.

(** What the extension does to the outside, in order. *)
Inductive Event : Type :=
| EvExecFile (file : Js.str) (args : list Js.str)
| EvWarning (msg : Js.str)        (* [vscode.window.showWarningMessage] *)
| EvInformation (msg : Js.str)    (* [vscode.window.showInformationMessage] *)
| EvConsole (msg : Js.str).       (* [console.log] *)

Section Engine.

Context {H : Host}.

(** The module-level variables of the extension, the status bar item, the
    world around them and the trace of effects so far. *)
Record State : Type := {
  world : World;
  snippetMap : SnippetMap;
  providerDisposables : list Provider;
  repoWatchers : list Js.str;
  repoStatuses : JsMap.t RepoStatus;
  statusBarText : Js.str;
  statusBarTooltip : Js.str;
  events : list Event
}.

Definition set_world (w : World) (st : State) : State :=
  {| world := w; snippetMap := snippetMap st;
     providerDisposables := providerDisposables st;
     repoWatchers := repoWatchers st; repoStatuses := repoStatuses st;
     statusBarText := statusBarText st;
     statusBarTooltip := statusBarTooltip st; events := events st |}.

Definition set_snippetMap (m : SnippetMap) (st : State) : State :=
  {| world := world st; snippetMap := m;
     providerDisposables := providerDisposables st;
     repoWatchers := repoWatchers st; repoStatuses := repoStatuses st;
     statusBarText := statusBarText st;
     statusBarTooltip := statusBarTooltip st; events := events st |}.

Definition set_providerDisposables (ps : list Provider) (st : State) : State :=
  {| world := world st; snippetMap := snippetMap st;
     providerDisposables := ps;
     repoWatchers := repoWatchers st; repoStatuses := repoStatuses st;
     statusBarText := statusBarText st;
     statusBarTooltip := statusBarTooltip st; events := events st |}.

Definition set_repoWatchers (ws : list Js.str) (st : State) : State :=
  {| world := world st; snippetMap := snippetMap st;
     providerDisposables := providerDisposables st;
     repoWatchers := ws; repoStatuses := repoStatuses st;
     statusBarText := statusBarText st;
     statusBarTooltip := statusBarTooltip st; events := events st |}.

Definition set_repoStatuses (ss : JsMap.t RepoStatus) (st : State) : State :=
  {| world := world st; snippetMap := snippetMap st;
     providerDisposables := providerDisposables st;
     repoWatchers := repoWatchers st; repoStatuses := ss;
     statusBarText := statusBarText st;
     statusBarTooltip := statusBarTooltip st; events := events st |}.

Definition set_statusBar (text tooltip : Js.str) (st : State) : State :=
  {| world := world st; snippetMap := snippetMap st;
     providerDisposables := providerDisposables st;
     repoWatchers := repoWatchers st; repoStatuses := repoStatuses st;
     statusBarText := text;
     statusBarTooltip := tooltip; events := events st |}.

Definition add_event (e : Event) (st : State) : State :=
  {| world := world st; snippetMap := snippetMap st;
     providerDisposables := providerDisposables st;
     repoWatchers := repoWatchers st; repoStatuses := repoStatuses st;
     statusBarText := statusBarText st;
     statusBarTooltip := statusBarTooltip st; events := events st ++ [e] |}.

(** *** A computation of the extension: it reads and writes the state and
    either returns or throws. *)
Definition M (A : Type) : Type := State -> result A * State.

Definition ret {A} (a : A) : M A := fun st => (Ok a, st).

Definition bind {A B} (m : M A) (k : A -> M B) : M B :=
  fun st =>
    match m st with
    | (Ok a, st') => k a st'
    | (Err e, st') => (Err e, st')
    end.

Definition gets {A} (f : State -> A) : M A := fun st => (Ok (f st), st).
Definition modify (f : State -> State) : M unit := fun st => (Ok tt, f st).
Definition throw {A} (e : Js.str) : M A := fun st => (Err e, st).

(** A pure call that may throw. *)
Definition lift {A} (r : result A) : M A :=
  match r with
  | Ok a => ret a
  | Err e => throw e
  end.

(** [try { body } catch (err) { handler }] *)
Definition tryCatch {A} (body : M A) (handler : Js.str -> M A) : M A :=
  fun st =>
    match body st with
    | (Ok a, st') => (Ok a, st')
    | (Err e, st') => handler e st'
    end.

(** [for (const x of xs) { acc = body(acc, x) }] *)
Fixpoint forOf {A B} (body : B -> A -> M B) (xs : list A) (acc : B) : M B :=
  match xs with
  | [] => ret acc
  | x :: r => bind (body acc x) (forOf body r)
  end.

Definition when_ (b : bool) (m : M unit) : M unit := if b then m else ret tt.

End Engine.

Declare Scope js_scope.
Delimit Scope js_scope with M.
Notation "x <- m ;; k" := (bind m (fun x => k))
  (at level 61, m at next level, right associativity) : js_scope.
Notation "m ;; k" := (bind m (fun _ => k))
  (at level 61, right associativity) : js_scope.

Local Open Scope js_scope.

(* ================================================================== *)
(** ** Loading and registration *)

Section Loader.

Context {H : Host}.

(** [createLogger()]: the [log] every caller passes on. *)
Definition log (message : Js.str) (debugOnly : bool) : M unit :=
  fun st =>
    let debug := nullish_or (cfg_debug (getConfiguration (world st))) false in
    if debugOnly && negb debug then (Ok tt, st)
    else (Ok tt, add_event (EvConsole (js "[hexSnippets] " ++ message)) st).

(** One turn of the loop of [walk]: what the entry [entry] of [dir] adds
    to [results]. *)
Fixpoint walkEntry (dir : Js.str) (entry : Dirent) : result (list Js.str) :=
  match entry with
  | FileEnt name => Ok [join dir name]
  | DirEnt name (Err e) => Err e
  | DirEnt name (Ok sub) =>
      (fix loop (entries : list Dirent) : result (list Js.str) :=
         match entries with
         | [] => Ok []
         | e :: rest =>
             match walkEntry (join dir name) e with
             | Ok found =>
                 match loop rest with
                 | Ok results => Ok (found ++ results)
                 | Err x => Err x
                 end
             | Err x => Err x
             end
         end) sub
  end.

(** The loop of [walk] over the entries [readdirSync] returned for
    [dir]. *)
Fixpoint walkEntries (dir : Js.str) (entries : list Dirent)
  : result (list Js.str) :=
  match entries with
  | [] => Ok []
  | e :: rest =>
      match walkEntry dir e with
      | Ok found =>
          match walkEntries dir rest with
          | Ok results => Ok (found ++ results)
          | Err x => Err x
          end
      | Err x => Err x
      end
  end.

(** [walk(dir)] *)
Definition walk (w : World) (dir : Js.str) : result (list Js.str) :=
  match readdirSync w dir with
  | Ok entries => walkEntries dir entries
  | Err e => Err e
  end.

(** The filter of [collectSnippetsFromFolder]. *)
Definition eligible (includeJson : bool) (f : Js.str) : bool :=
  if Js.endsWith f (js ".code-snippets") then true
  else if includeJson && Js.endsWith f (js ".json") then true
  else false.

(** [for (const lang of snippet.languages) { ... push(snippet) }] *)
Definition addSnippet (map : SnippetMap) (snippet : TeamSnippet) : SnippetMap :=
  fold_left (fun m lang => JsMap.push (toLowerCase lang) [snippet] m)
            (languages snippet) map.

(** [for (const [name, raw] of Object.entries(json)) { ... }]: the map
    when the loop ends, and the error when it ends by a throw.  What
    the turns before the throw pushed stays in the map. *)
Fixpoint addEntries (map : SnippetMap) (entries : list (Js.str * Entry))
  : SnippetMap * option Js.str :=
  match entries with
  | [] => (map, None)
  | (name, Conforms raw) :: rest =>
      addEntries (addSnippet map (normalizeSnippet name raw)) rest
  | (name, Throws err) :: _ => (map, Some err)
  end.

Definition loadWarning (file e : Js.str) : Event :=
  EvWarning (js "HexSnippets: Failed to load snippets from '" ++ file
             ++ js "': " ++ e).

(** The body of the loop over [files], with its [try]/[catch]. *)
Definition loadFile (map : SnippetMap) (file : Js.str) : M SnippetMap :=
  w <- gets world ;;
  match readFileSync w file with
  | Err e => modify (add_event (loadWarning file e)) ;; ret map
  | Ok text =>
      if negb (Js.truthy (Js.trim text)) then ret map
      else
        match parseEntries text with
        | Err e => modify (add_event (loadWarning file e)) ;; ret map
        | Ok entries =>
            match addEntries map entries with
            | (map', Some e) => modify (add_event (loadWarning file e)) ;; ret map'
            | (map', None) => ret map'
            end
        end
  end.

(** [collectSnippetsFromFolder(snippetDir, includeJson, log)] *)
Definition collectSnippetsFromFolder (snippetDir : Js.str) (includeJson : bool)
  : M SnippetMap :=
  w <- gets world ;;
  all <- lift (walk w snippetDir) ;;
  let files := filter (eligible includeJson) all in
  log (js "Found " ++ Js.ofN (N.of_nat (length files))
       ++ js " snippet file(s) in " ++ snippetDir) true ;;
  forOf loadFile files [].

(** [prefixes.map((p) => (p.length > 0 ? p[p.length - 1] : ""))]: the
    first prefix without a length ends the call. *)
Fixpoint lastChars (ps : list Prefix) : result (list Js.str) :=
  match ps with
  | [] => Ok []
  | p :: rest =>
      match lastOf p with
      | Err e => Err e
      | Ok c =>
          match lastChars rest with
          | Ok cs => Ok (c :: cs)
          | Err e => Err e
          end
      end
  end.

(** The trigger characters computed from the prefixes of [snips]. *)
Definition triggerCharsOf (snips : list TeamSnippet) : result (list Js.str) :=
  match lastChars (flat_map prefixes snips) with
  | Ok cs => Ok (uniq (filter Js.truthy cs))
  | Err e => Err e
  end.

Definition languageProvider (globalSnips : list TeamSnippet) (map : SnippetMap)
  (lang : Js.str) : result Provider :=
  let langSnips := nullish_or (JsMap.get lang map) [] in
  match triggerCharsOf (globalSnips ++ langSnips) with
  | Ok triggerChars =>
      Ok {| selector := ByLanguage lang;
            offered := globalSnips ++ langSnips;
            triggerChars := triggerChars |}
  | Err e => Err e
  end.

Definition globalProvider (globalSnips : list TeamSnippet) : result Provider :=
  match triggerCharsOf globalSnips with
  | Ok triggerChars =>
      Ok {| selector := ByFileScheme;
            offered := globalSnips;
            triggerChars := triggerChars |}
  | Err e => Err e
  end.

(** [languages.forEach((lang) => { ... })]: the registrations made, and
    the error when the computation of trigger characters ends the loop. *)
Fixpoint registerEach (globalSnips : list TeamSnippet) (map : SnippetMap)
  (languages : list Js.str) : list Provider * option Js.str :=
  match languages with
  | [] => ([], None)
  | lang :: rest =>
      if Js.eqb lang (js "*") then registerEach globalSnips map rest
      else
        match languageProvider globalSnips map lang with
        | Err e => ([], Some e)
        | Ok p =>
            (p :: fst (registerEach globalSnips map rest),
             snd (registerEach globalSnips map rest))
        end
  end.

(** The registrations [registerCompletionProviders] makes for [map], in
    the order it makes them: one per language other than ["*"], then the
    one for every file when there are global snippets and no language;
    and the error that ends them, if any.  The registrations made before
    an error stay with the editor. *)
Definition registrations (map : SnippetMap) : list Provider * option Js.str :=
  let languages := uniq (JsMap.keys map) in
  let globalSnips := nullish_or (JsMap.get (js "*") map) [] in
  match registerEach globalSnips map languages with
  | (scoped, Some e) => (scoped, Some e)
  | (scoped, None) =>
      if (0 <? length globalSnips)%nat && (length languages =? 1)%nat
         && existsb (Js.eqb (js "*")) languages
      then
        match globalProvider globalSnips with
        | Ok p => (scoped ++ [p], None)
        | Err e => (scoped, Some e)
        end
      else (scoped, None)
  end.

(** [registerCompletionProviders(map, log)]: the disposables are returned
    when every registration is made. *)
Definition registerCompletionProviders (map : SnippetMap) : M (list Provider) :=
  let languages := uniq (JsMap.keys map) in
  let globalSnips := nullish_or (JsMap.get (js "*") map) [] in
  match registrations map with
  | (_, Some e) => throw e
  | (disposables, None) =>
      log (js "Registered completion providers for languages: "
           ++ Js.join (js ", ") languages ++ js " (global snippets: "
           ++ Js.ofN (N.of_nat (length globalSnips)) ++ js ").") true ;;
      ret disposables
  end.

(** The items one snippet contributes: one per prefix. *)
Definition itemsOf (scopeName : Js.str) (snip : TeamSnippet) : list CompletionItem :=
  map (fun prefix =>
         {| label :=
              if Js.truthy (ts_name snip) then PString (ts_name snip) else prefix;
            insertText := Js.join [Js.LF] (bodyLines snip);
            filterText := prefix;
            sortText := js "zzz_team_" ++ prefixText prefix;
            detail := js "Team Snippet (" ++ scopeName ++ js ")";
            documentation :=
              if truthy_opt (ts_description snip) then ts_description snip
              else None |})
      (prefixes snip).

(** [provideCompletionItems()] of a registered provider *)
Definition provideCompletionItems (p : Provider) : M (list CompletionItem) :=
  match selector p with
  | ByLanguage lang =>
      let items := flat_map (itemsOf lang) (offered p) in
      log (js "Providing " ++ Js.ofN (N.of_nat (length items))
           ++ js " completion items for language '" ++ lang ++ js "'.") true ;;
      ret items
  | ByFileScheme =>
      let items := flat_map (itemsOf (js "global")) (offered p) in
      log (js "Providing " ++ Js.ofN (N.of_nat (length items))
           ++ js " global completion items (no scoped snippets).") true ;;
      ret items
  end.

(** [disposeProviders()], [disposeWatchers()] *)
Definition disposeProviders : M unit := modify (set_providerDisposables []).
Definition disposeWatchers : M unit := modify (set_repoWatchers []).

End Loader.

(* ================================================================== *)
(** ** The cycle *)

Section Cycle.

Context {H : Host}.

(** [resolveRepoPath(configPath)] *)
Definition resolveRepoPath (w : World) (configPath : Js.str) : Js.str :=
  if isAbsolute configPath then configPath
  else
    match workspaceFolder w with
    | Some wf => join wf configPath
    | None => join (cwd w) configPath
    end.

(** [await runGitPull(repoPath, branch)]: the promise rejects with the
    error, whose message has the output appended. *)
Definition runGitPull (repoPath branch : Js.str) : M unit :=
  fun st =>
    let args := [js "-C"; repoPath; js "pull"; js "--ff-only"; js "origin"; branch] in
    let st1 := add_event (EvExecFile (js "git") args) st in
    match execFile (js "git") args (world st) with
    | (w', Some (message, stdout, stderr)) =>
        (Err (message ++ js " | stdout: " ++ stdout ++ js " | stderr: " ++ stderr),
         set_world w' st1)
    | (w', None) => (Ok tt, set_world w' st1)
    end.

Definition with_lastError (e : Js.str) (s : RepoStatus) : RepoStatus :=
  {| rs_id := rs_id s; rs_name := rs_name s; lastSync := lastSync s;
     lastError := Some e; snippetCount := snippetCount s |}.

Definition with_lastSync (d : N) (s : RepoStatus) : RepoStatus :=
  {| rs_id := rs_id s; rs_name := rs_name s; lastSync := Some d;
     lastError := lastError s; snippetCount := snippetCount s |}.

Definition with_snippetCount (n : nat) (s : RepoStatus) : RepoStatus :=
  {| rs_id := rs_id s; rs_name := rs_name s; lastSync := lastSync s;
     lastError := lastError s; snippetCount := n |}.

(** [repoStatuses.set(repo.id, status)] *)
Definition setStatus (id : Js.str) (status : RepoStatus) : M unit :=
  modify (fun st => set_repoStatuses (JsMap.set id status (repoStatuses st)) st).

(** [for (const [lang, snips] of repoMap.entries()) { ... }] *)
Definition mergeInto (aggregateMap repoMap : SnippetMap) : SnippetMap :=
  fold_left (fun agg e => JsMap.push (fst e) (snd e) agg) repoMap aggregateMap.

(** The block under [// Git pull]: the status as the block leaves it. *)
Definition gitPullStep (allowGitPull : bool) (repo : RepoConfig)
  (repoPath : Js.str) (status : RepoStatus) : M RepoStatus :=
  if allowGitPull && enableGitPull repo then
    tryCatch
      (log (js "Running 'git pull' in " ++ repoPath ++ js " (branch "
            ++ branch repo ++ js ")") true ;;
       runGitPull repoPath (branch repo) ;;
       ret status)
      (fun err =>
         let status' := with_lastError (js "git pull failed: " ++ err) status in
         setStatus (rc_id repo) status' ;;
         ret status')
  else ret status.

(** The status a turn of the loop starts from. *)
Definition newStatus (repo : RepoConfig) : RepoStatus :=
  {| rs_id := rc_id repo; rs_name := rc_name repo; lastSync := None;
     lastError := None; snippetCount := 0 |}.

(** [!fs.existsSync(repoPath) || !fs.existsSync(path.join(repoPath, ".git"))] *)
Definition notGitRepo (w : World) (repoPath : Js.str) : bool :=
  negb (existsSync w repoPath) || negb (existsSync w (join repoPath (js ".git"))).

(** The body of the loop of [syncAllRepos] over [repos]; [aggregateMap]
    is the map it fills.  The status object is local until it is stored;
    between the store in the handler of the pull and the later one no
    field of it changes unless the later store is reached. *)
Definition syncRepo (allowGitPull : bool) (aggregateMap : SnippetMap)
  (repo : RepoConfig) : M SnippetMap :=
  w <- gets world ;;
  let repoPath := resolveRepoPath w (localRepoPath repo) in
  let status := newStatus repo in
  if notGitRepo w repoPath then
    setStatus (rc_id repo) (with_lastError (js "Not a git repo: " ++ repoPath) status) ;;
    ret aggregateMap
  else
    status <- gitPullStep allowGitPull repo repoPath status ;;
    w <- gets world ;;
    let snippetDir := join repoPath (snippetsPath repo) in
    if negb (existsSync w snippetDir) then
      let status :=
        if negb (truthy_opt (lastError status))
        then with_lastError (js "Snippets folder not found: " ++ snippetDir) status
        else status in
      setStatus (rc_id repo) status ;;
      ret aggregateMap
    else
      repoMap <- collectSnippetsFromFolder snippetDir (includeJsonFiles repo) ;;
      let repoSnippetCount := countTotalSnippets repoMap in
      let status := with_snippetCount repoSnippetCount status in
      now <- gets (fun st => dateNow (world st)) ;;
      let status :=
        if negb (truthy_opt (lastError status)) then with_lastSync now status
        else status in
      let aggregateMap := mergeInto aggregateMap repoMap in
      setStatus (rc_id repo) status ;;
      modify (fun st => set_repoWatchers (repoWatchers st ++ [snippetDir]) st) ;;
      ret aggregateMap.

(** The lines of the tooltip for one status. *)
Definition statusLines (s : RepoStatus) : list Js.str :=
  let icon : Js.str := if truthy_opt (lastError s) then [9888%N] else [10004%N] in
  let lastSyncStr :=
    match lastSync s with
    | Some d => toLocaleString d
    | None => js "never"
    end in
  let base := icon ++ js " " ++ rs_name s ++ js " " ++ [8212%N] ++ js " "
              ++ Js.ofN (N.of_nat (snippetCount s)) ++ js " snippet(s)" in
  [ if truthy_opt (lastError s)
    then base ++ [Js.LF] ++ js "   Last error: " ++ nullish_or (lastError s) []
    else base ++ [Js.LF] ++ js "   Last sync: " ++ lastSyncStr;
    [] ].

(** [updateStatusBar()] *)
Definition updateStatusBar : M unit :=
  modify (fun st =>
    let statuses := JsMap.values (repoStatuses st) in
    let totalSnips := countTotalSnippets (snippetMap st) in
    if (length statuses =? 0)%nat then
      set_statusBar (js "$(circle-slash) HexSnippets")
                    (js "HexSnippets: No repositories configured.") st
    else
      let errorCount :=
        length (filter (fun s => truthy_opt (lastError s)) statuses) in
      let text :=
        if (0 <? errorCount)%nat
        then js "$(warning) HexSnippets (" ++ Js.ofN (N.of_nat totalSnips) ++ js ")"
        else js "$(check) HexSnippets (" ++ Js.ofN (N.of_nat totalSnips) ++ js ")" in
      let lines :=
        [js "HexSnippets Status"; []] ++ flat_map statusLines statuses
        ++ [js "Click to sync now."] in
      set_statusBar text (Js.join [Js.LF] lines) st).

(** The message of the closing notification. *)
Definition loadedMessage (totalSnips repoCount errorCount : nat) : Js.str :=
  if (0 <? errorCount)%nat then
    js "HexSnippets: Loaded " ++ Js.ofN (N.of_nat totalSnips) ++ js " snippet(s) from "
    ++ Js.ofN (N.of_nat repoCount) ++ js " repo(s) with "
    ++ Js.ofN (N.of_nat errorCount) ++ js " error(s)."
  else
    js "HexSnippets: Loaded " ++ Js.ofN (N.of_nat totalSnips) ++ js " snippet(s) from "
    ++ Js.ofN (N.of_nat repoCount) ++ js " repo(s).".

(** [syncAllRepos(context, { showNotifications, allowGitPull, log })], one
    call run to its end without another one interleaved. *)
Definition syncAllRepos (showNotifications allowGitPull : bool) : M unit :=
  cfg <- gets (fun st => getConfiguration (world st)) ;;
  repos <- lift (getRepoConfigs cfg) ;;
  if (length repos =? 0)%nat then
    when_ showNotifications
      (modify (add_event (EvWarning (js "HexSnippets: No repositories configured. Configure 'hexSnippets.repositories' or the legacy single-repo settings.")))) ;;
    modify (set_snippetMap []) ;;
    modify (set_repoStatuses []) ;;
    disposeProviders ;;
    disposeWatchers ;;
    updateStatusBar
  else
    modify (set_repoStatuses []) ;;
    disposeWatchers ;;
    aggregateMap <- forOf (syncRepo allowGitPull) repos [] ;;
    modify (set_snippetMap aggregateMap) ;;
    disposeProviders ;;
    providers <- registerCompletionProviders aggregateMap ;;
    modify (set_providerDisposables providers) ;;
    updateStatusBar ;;
    when_ showNotifications
      (st <- gets (fun st => st) ;;
       let totalSnips := countTotalSnippets (snippetMap st) in
       let errorCount :=
         length (filter (fun s => truthy_opt (lastError s))
                        (JsMap.values (repoStatuses st))) in
       modify (add_event (EvInformation
                 (loadedMessage totalSnips (length repos) errorCount)))).

End Cycle.

(* ================================================================== *)
(** ** Notions the statements use *)

(** The specification's reading of "split on [\r?\n]": drop each carriage
    return that stands right before a line feed, then cut at the line
    feeds. *)
Fixpoint dropCRbeforeLF (s : Js.str) : Js.str :=
  match s with
  | [] => []
  | c :: r =>
      match r with
      | d :: _ =>
          if (c =? Js.CR)%N && (d =? Js.LF)%N then dropCRbeforeLF r
          else c :: dropCRbeforeLF r
      | [] => [c]
      end
  end.

Fixpoint cutAt (sep : Js.char) (cur : Js.str) (s : Js.str) : list Js.str :=
  match s with
  | [] => [rev cur]
  | c :: r =>
      if (c =? sep)%N then rev cur :: cutAt sep [] r
      else cutAt sep (c :: cur) r
  end.

Definition spec_lines (s : Js.str) : list Js.str :=
  cutAt Js.LF [] (dropCRbeforeLF s).

(** The bucket under a key, empty when the key is absent. *)
Definition bucket {A} (k : Js.str) (m : JsMap.t (list A)) : list A :=
  nullish_or (JsMap.get k m) [].

Definition str_eq_dec : forall a b : Js.str, {a = b} + {a <> b} :=
  list_eq_dec N.eq_dec.

(** A table as the loader and the cycle build it: one entry per key, no
    empty bucket. *)
Definition wf_table {A} (m : JsMap.t (list A)) : Prop :=
  NoDup (JsMap.keys m) /\ Forall (fun e => snd e <> []) m.

(** [String.prototype.toLowerCase] on the letters A to Z, other code
    units unchanged: what the full mapping does on ASCII text. *)
Definition asciiLower (s : Js.str) : Js.str :=
  map (fun c => if (65 <=? c)%N && (c <=? 90)%N then (c + 32)%N else c) s.

Definition isObject (v : value) : Prop :=
  match v with
  | VObject _ => True
  | _ => False
  end.

(** A value [String] prints without a call that can throw: not an array,
    not an object. *)
Definition plain (v : value) : Prop :=
  match v with
  | VArray _ | VObject _ => False
  | _ => True
  end.

(** A settings entry that is an object whose path, name, branch and
    snippets path are plain, when they are there. *)
Definition plainEntry (r : value) : Prop :=
  match r with
  | VObject fields =>
      plain (Value.field (js "localRepoPath") fields)
      /\ plain (Value.field (js "name") fields)
      /\ plain (Value.field (js "branch") fields)
      /\ plain (Value.field (js "snippetsPath") fields)
  | _ => False
  end.

(** A prefix whose [length] can be read: any but [undefined] and
    [null]. *)
Definition hasLength (p : Prefix) : bool :=
  match p with
  | PUndefined | PNull => false
  | _ => true
  end.

(** Every prefix of every snippet of the table has a length. *)
Definition registrable (m : SnippetMap) : Prop :=
  Forall (fun e => Forall (fun s => forallb hasLength (prefixes s) = true) (snd e))
         m.

(** The last character a prefix with a length gives, empty when it has
    none. *)
Definition lastText (p : Prefix) : Js.str :=
  match p with
  | PString s => Js.lastChar s
  | _ => []
  end.

(** The distinct last characters of the prefixes of [snips], in order. *)
Definition triggers (snips : list TeamSnippet) : list Js.str :=
  uniq (filter Js.truthy (map lastText (flat_map prefixes snips))).

(** The candidates a sequence of snippets stands for: for each snippet
    and each of its prefixes, in order, the label shown, the prefix
    matched against what is typed, and the text inserted. *)
Definition candidatesOf (snips : list TeamSnippet)
  : list (Prefix * Prefix * Js.str) :=
  flat_map (fun s =>
              map (fun p =>
                     (if Js.truthy (ts_name s) then PString (ts_name s) else p,
                      p, Js.join [Js.LF] (bodyLines s)))
                  (prefixes s))
           snips.

(** What a completion item shows of its candidate. *)
Definition shownOf (item : CompletionItem) : Prefix * Prefix * Js.str :=
  (label item, filterText item, insertText item).

(** The snippets a provider registered for [table] stands for: the global
    bucket, followed by the bucket of its language when it has one. *)
Definition merged (table : SnippetMap) (sel : Selector) : list TeamSnippet :=
  match sel with
  | ByLanguage lang => bucket (js "*") table ++ bucket lang table
  | ByFileScheme => bucket (js "*") table
  end.

(** The provider the registration makes for [sel] when every prefix has a
    length. *)
Definition providerFor (table : SnippetMap) (sel : Selector) : Provider :=
  {| selector := sel;
     offered := merged table sel;
     triggerChars := triggers (merged table sel) |}.

(** The descriptors [forEach] pushes for the entries [repos], the first
    of which has position [index]. *)
Fixpoint keptRepos (repos : list value) (index : N) : list RepoConfig :=
  match repos with
  | [] => []
  | r :: rest =>
      match repoEntry r index with
      | Ok (Some c) => c :: keptRepos rest (index + 1)
      | _ => keptRepos rest (index + 1)
      end
  end.

(** The sum of [snippetCount] over the statuses. *)
Definition statusTotal (statuses : JsMap.t RepoStatus) : nat :=
  list_sum (map snippetCount (JsMap.values statuses)).

Section Statements.

Context {H : Host}.

Definition add_events (evs : list Event) (st : State) : State :=
  {| world := world st; snippetMap := snippetMap st;
     providerDisposables := providerDisposables st;
     repoWatchers := repoWatchers st; repoStatuses := repoStatuses st;
     statusBarText := statusBarText st;
     statusBarTooltip := statusBarTooltip st; events := events st ++ evs |}.

(** What [log] prints in a world. *)
Definition logged (w : World) (message : Js.str) (debugOnly : bool) : list Event :=
  if debugOnly && negb (nullish_or (cfg_debug (getConfiguration w)) false) then []
  else [EvConsole (js "[hexSnippets] " ++ message)].

(** The entries the loop over a parsed object reaches before it throws,
    and the error it throws, if any. *)
Fixpoint reached (entries : list (Js.str * Entry))
  : list (Js.str * RawSnippet) * option Js.str :=
  match entries with
  | [] => ([], None)
  | (name, Conforms raw) :: rest =>
      ((name, raw) :: fst (reached rest), snd (reached rest))
  | (name, Throws err) :: _ => ([], Some err)
  end.

(** What the [try] block of the loader gets out of a file: the entries it
    normalizes, and the error that ends it when reading, parsing or
    normalizing throws.  Blank text gives neither. *)
Definition fileOutcome (w : World) (file : Js.str)
  : list (Js.str * RawSnippet) * option Js.str :=
  match readFileSync w file with
  | Err e => ([], Some e)
  | Ok text =>
      if negb (Js.truthy (Js.trim text)) then ([], None)
      else
        match parseEntries text with
        | Err e => ([], Some e)
        | Ok entries => reached entries
        end
  end.

Definition fileEntries (w : World) (file : Js.str) : list (Js.str * RawSnippet) :=
  fst (fileOutcome w file).

Definition fileError (w : World) (file : Js.str) : option Js.str :=
  snd (fileOutcome w file).

(** The map after the snippets of [entries] are filed, in order. *)
Definition addTyped (map : SnippetMap) (entries : list (Js.str * RawSnippet))
  : SnippetMap :=
  fold_left (fun m e => addSnippet m (normalizeSnippet (fst e) (snd e)))
            entries map.

(** The map the loader's loop builds over [files], starting from [map]. *)
Definition loadedFrom (w : World) (files : list Js.str) (map : SnippetMap)
  : SnippetMap :=
  fold_left (fun m f => addTyped m (fileEntries w f)) files map.

(** The warnings the loader's loop shows over [files]. *)
Definition fileWarnings (w : World) (files : list Js.str) : list Event :=
  flat_map (fun f =>
              match fileError w f with
              | Some e => [loadWarning f e]
              | None => []
              end) files.

(** The snippets the loader normalizes out of [files], in order. *)
Definition snippetsOf (w : World) (files : list Js.str) : list TeamSnippet :=
  flat_map (fun f =>
              map (fun e => normalizeSnippet (fst e) (snd e)) (fileEntries w f))
           files.

(** Reading [file], or parsing its text, throws [e]. *)
Definition unreadable (w : World) (file e : Js.str) : Prop :=
  readFileSync w file = Err e
  \/ exists text,
       readFileSync w file = Ok text /\ Js.trim text <> []
       /\ parseEntries text = Err e.

(** Two worlds show the same disk to the loader. *)
Definition same_disk (w1 w2 : World) : Prop :=
  (forall p, existsSync w1 p = existsSync w2 p)
  /\ (forall p, readdirSync w1 p = readdirSync w2 p)
  /\ (forall p, readFileSync w1 p = readFileSync w2 p).

(** Two worlds resolve the same repositories to the same paths. *)
Definition same_config (w1 w2 : World) : Prop :=
  getRepoConfigs (getConfiguration w1) = getRepoConfigs (getConfiguration w2)
  /\ (forall p, resolveRepoPath w1 p = resolveRepoPath w2 p).

(** A run in which the pull, when allowed, changes neither what is on
    disk nor what is configured. *)
Definition quiet_pull (allowGitPull : bool) : Prop :=
  allowGitPull = true ->
  forall file args w,
    same_disk (fst (execFile file args w)) w
    /\ same_config (fst (execFile file args w)) w.

(** Two states agree on everything but the statuses, and on the status of
    every repository other than [id]. *)
Definition agree_off (id : Js.str) (st1 st2 : State) : Prop :=
  world st1 = world st2
  /\ snippetMap st1 = snippetMap st2
  /\ providerDisposables st1 = providerDisposables st2
  /\ repoWatchers st1 = repoWatchers st2
  /\ statusBarText st1 = statusBarText st2
  /\ statusBarTooltip st1 = statusBarTooltip st2
  /\ events st1 = events st2
  /\ (forall id', id' <> id ->
        JsMap.get id' (repoStatuses st1) = JsMap.get id' (repoStatuses st2)).

(** *** What a turn of the loop of [syncAllRepos] does, step by step *)

Definition pullArgs (repoPath branch : Js.str) : list Js.str :=
  [js "-C"; repoPath; js "pull"; js "--ff-only"; js "origin"; branch].

(** Whether the turn for [repo] runs the pull. *)
Definition pulls (allowGitPull : bool) (repo : RepoConfig) : bool :=
  allowGitPull && enableGitPull repo.

(** The world after the pull step. *)
Definition pullWorld (allowGitPull : bool) (repo : RepoConfig)
  (repoPath : Js.str) (w : World) : World :=
  if pulls allowGitPull repo
  then fst (execFile (js "git") (pullArgs repoPath (branch repo)) w)
  else w.

(** The error the pull step records, if any. *)
Definition pullError (allowGitPull : bool) (repo : RepoConfig)
  (repoPath : Js.str) (w : World) : option Js.str :=
  if pulls allowGitPull repo then
    match snd (execFile (js "git") (pullArgs repoPath (branch repo)) w) with
    | Some (message, stdout, stderr) =>
        Some (js "git pull failed: " ++ message ++ js " | stdout: " ++ stdout
              ++ js " | stderr: " ++ stderr)
    | None => None
    end
  else None.

(** The events of the pull step. *)
Definition pullEvents (allowGitPull : bool) (repo : RepoConfig)
  (repoPath : Js.str) (w : World) : list Event :=
  if pulls allowGitPull repo then
    logged w (js "Running 'git pull' in " ++ repoPath ++ js " (branch "
              ++ branch repo ++ js ")") true
    ++ [EvExecFile (js "git") (pullArgs repoPath (branch repo))]
  else [].

(** The status after the pull step. *)
Definition pulledStatus (repo : RepoConfig) (err : option Js.str) : RepoStatus :=
  match err with
  | Some e => with_lastError e (newStatus repo)
  | None => newStatus repo
  end.

Definition store (id : Js.str) (status : RepoStatus) (st : State) : State :=
  set_repoStatuses (JsMap.set id status (repoStatuses st)) st.

(** The state after the pull step: the status is stored when the pull
    failed. *)
Definition pulledState (allowGitPull : bool) (repo : RepoConfig)
  (repoPath : Js.str) (st : State) : State :=
  let w := world st in
  let st1 := set_world (pullWorld allowGitPull repo repoPath w)
               (add_events (pullEvents allowGitPull repo repoPath w) st) in
  match pullError allowGitPull repo repoPath w with
  | Some e => store (rc_id repo) (with_lastError e (newStatus repo)) st1
  | None => st1
  end.

(** The status a turn stores once the folder is loaded into [repoMap]. *)
Definition loadedStatus (repo : RepoConfig) (err : option Js.str)
  (repoMap : SnippetMap) (now : N) : RepoStatus :=
  let status := with_snippetCount (countTotalSnippets repoMap) (pulledStatus repo err) in
  if negb (truthy_opt (lastError status)) then with_lastSync now status else status.

(** The status a turn stores when the snippets folder is missing. *)
Definition missingStatus (repo : RepoConfig) (err : option Js.str)
  (snippetDir : Js.str) : RepoStatus :=
  let status := pulledStatus repo err in
  if negb (truthy_opt (lastError status))
  then with_lastError (js "Snippets folder not found: " ++ snippetDir) status
  else status.

Definition foundMessage (n : nat) (snippetDir : Js.str) : Js.str :=
  js "Found " ++ Js.ofN (N.of_nat n) ++ js " snippet file(s) in " ++ snippetDir.

Definition isWarning (e : Event) : bool :=
  match e with
  | EvWarning _ => true
  | _ => false
  end.

End Statements.

(* ================================================================== *)
(** ** A small host to run the definitions on *)

Module Demo.

Record Machine : Type := {
  config : Configuration;
  paths : list Js.str;                      (* the paths that exist *)
  dirs : list (Js.str * list Dirent);       (* the listing of each directory *)
  files : list (Js.str * Js.str);           (* the text of each file *)
  clock : N
}.

Fixpoint lookup {A} (k : Js.str) (l : list (Js.str * A)) : option A :=
  match l with
  | [] => None
  | (k', v) :: r => if Js.eqb k' k then Some v else lookup k r
  end.

Definition logSnippet : RawSnippet :=
  {| raw_prefix := One (PString (js "logv"));
     raw_body := Many [js "console.log(${1});"];
     raw_description := None;
     raw_scope := Some (js "javascript") |}.

Definition todoSnippet : RawSnippet :=
  {| raw_prefix := Many [PString (js "todo"); PString (js "fix")];
     raw_body := One (js "// TODO" ++ [Js.CR; Js.LF] ++ js "$0");
     raw_description := Some (js "A reminder");
     raw_scope := None |}.

(** An entry with a body and no [prefix]. *)
Definition bareSnippet : RawSnippet :=
  {| raw_prefix := One PUndefined;
     raw_body := One (js "return;");
     raw_description := None;
     raw_scope := None |}.

(** A parser that knows four texts and rejects every other one.  The
    third text stands for an object whose second value is [null], the
    fourth for an object whose only value has no [prefix]. *)
Definition parse (text : Js.str) : result (list (Js.str * Entry)) :=
  if Js.eqb text (js "{Log}") then Ok [(js "Log", Conforms logSnippet)]
  else if Js.eqb text (js "{Todo}") then Ok [(js "Todo", Conforms todoSnippet)]
  else if Js.eqb text (js "{Bare}") then Ok [(js "Bare", Conforms bareSnippet)]
  else if Js.eqb text (js "{Todo,null}") then
    Ok [(js "Todo", Conforms todoSnippet);
        (js "Broken",
         Throws (js "Cannot read properties of null (reading 'prefix')"))]
  else Err (js "Unexpected token").

(** The pull succeeds and finds nothing new; time passes. *)
Definition exec (file : Js.str) (args : list Js.str) (w : Machine)
  : Machine * option (Js.str * Js.str * Js.str) :=
  ({| config := config w; paths := paths w; dirs := dirs w;
      files := files w; clock := clock w + 1 |}, None).

Definition host : Host :=
  {| World := Machine;
     getConfiguration := config;
     workspaceFolder := fun _ => None;
     cwd := fun _ => js "/home";
     isAbsolute := fun p => Js.startsWith p (js "/");
     join := fun a b => a ++ js "/" ++ b;
     toLowerCase := asciiLower;
     existsSync := fun w p => existsb (Js.eqb p) (paths w);
     readdirSync := fun w p =>
       match lookup p (dirs w) with
       | Some es => Ok es
       | None => Err (js "ENOTDIR: not a directory")
       end;
     readFileSync := fun w p =>
       match lookup p (files w) with
       | Some text => Ok text
       | None => Err (js "ENOENT: no such file")
       end;
     parseEntries := parse;
     execFile := exec;
     dateNow := clock;
     toLocaleString := Js.ofN |}.

Definition repoEntryA : value :=
  VObject [(js "localRepoPath", VString (js "/a")); (js "name", VString (js "Team"))].

Definition repoEntryB : value :=
  VObject [(js "localRepoPath", VString (js "/b"))].

Definition settings : Configuration :=
  {| cfg_repositories := Some [repoEntryA; repoEntryB];
     cfg_localRepoPath := None; cfg_branch := None; cfg_snippetsPath := None;
     cfg_includeJsonFiles := None; cfg_enableGitPull := None;
     cfg_debug := Some true |}.

(** Repository [/a] is a working copy with three snippet files, one of
    them broken; [/b] does not exist. *)
Definition disk : Machine :=
  {| config := settings;
     paths := [js "/a"; js "/a/.git"; js "/a/snippets"];
     dirs := [(js "/a/snippets",
               [FileEnt (js "demo.code-snippets");
                FileEnt (js "bad.json");
                FileEnt (js "notes.txt");
                DirEnt (js "more") (Ok [FileEnt (js "todo.code-snippets")])])];
     files := [(js "/a/snippets/demo.code-snippets", js "{Log}");
               (js "/a/snippets/bad.json", js "{Log");
               (js "/a/snippets/notes.txt", js "hello");
               (js "/a/snippets/more/todo.code-snippets", js "{Todo}")];
     clock := 1700000000000 |}.

Definition start : State (H := host) :=
  @Build_State host disk [] [] [] [] [] [] [].

(** The descriptors [getRepoConfigs] resolves from [settings]. *)
Definition repoA : RepoConfig :=
  {| rc_id := js "repo-0"; rc_name := js "Team"; localRepoPath := js "/a";
     branch := js "main"; snippetsPath := js "snippets";
     includeJsonFiles := true; enableGitPull := true |}.

Definition repoB : RepoConfig :=
  {| rc_id := js "repo-1"; rc_name := js "Repo 2 (/b)"; localRepoPath := js "/b";
     branch := js "main"; snippetsPath := js "snippets";
     includeJsonFiles := true; enableGitPull := true |}.

(** The loop after the turn of [repoA]. *)
Definition tableA : SnippetMap :=
  match fst (forOf (syncRepo (H := host) true) [repoA] [] start) with
  | Ok table => table
  | Err _ => []
  end.

Definition stateA : State (H := host) :=
  snd (forOf (syncRepo (H := host) true) [repoA] [] start).

(** The loop after both turns. *)
Definition tableAB : SnippetMap :=
  match fst (forOf (syncRepo (H := host) true) [repoA; repoB] [] start) with
  | Ok table => table
  | Err _ => []
  end.


(** The files of [/a/snippets], as [walk] lists them. *)
Definition demoFile : Js.str := js "/a/snippets/demo.code-snippets".
Definition badFile : Js.str := js "/a/snippets/bad.json".
Definition notesFile : Js.str := js "/a/snippets/notes.txt".
Definition todoFile : Js.str := js "/a/snippets/more/todo.code-snippets".

(** A folder of [/a] with a file whose second value is [null]. *)
Definition halfFile : Js.str := js "/a/snippets/half.json".

Definition startHalf : State (H := host) :=
  @Build_State host
    {| config := settings;
       paths := paths disk;
       dirs := [(js "/a/snippets",
                 [FileEnt (js "demo.code-snippets"); FileEnt (js "half.json")])];
       files := [(demoFile, js "{Log}"); (halfFile, js "{Todo,null}")];
       clock := clock disk |}
    [] [] [] [] [] [] [].

(** The same disk and settings later, with a table published before. *)
Definition later : State (H := host) :=
  @Build_State host
    {| config := settings; paths := paths disk; dirs := dirs disk;
       files := files disk; clock := 1800000000000 |}
    [(js "python", [normalizeSnippet (js "Old") todoSnippet])]
    [] [js "/old"] [] (js "$(check) HexSnippets (1)") [] [EvConsole (js "earlier")].

End Demo.

(* ================================================================== *)
(** ** The command that opens a snippets folder, and the timer *)

Section Commands.

Context {H : Host}.

(** The handler of [hexSnippets.openSnippetsFolder].  [pick] is the label
    of the item the user picks when the quick pick is shown, [None] when
    the user dismisses it.  The result is the folder handed to
    [revealFileInOS], if any. *)
Definition openSnippetsFolder (pick : option Js.str) : M (option Js.str) :=
  cfg <- gets (fun st => getConfiguration (world st)) ;;
  repos <- lift (getRepoConfigs cfg) ;;
  if (length repos =? 0)%nat then
    modify (add_event (EvWarning (js "HexSnippets: No repositories configured."))) ;;
    ret None
  else
    let repo :=
      if (length repos =? 1)%nat then hd_error repos
      else
        match pick with
        | None => None
        | Some label => find (fun r => Js.eqb (rc_name r) label) repos
        end in
    match repo with
    | None => ret None
    | Some repo =>
        w <- gets world ;;
        let repoPath := resolveRepoPath w (localRepoPath repo) in
        let snippetDir := join repoPath (snippetsPath repo) in
        if negb (existsSync w snippetDir) then
          modify (add_event (EvWarning (js "HexSnippets: Snippets folder '"
                                        ++ snippetDir ++ js "' does not exist."))) ;;
          ret None
        else ret (Some snippetDir)
    end.

(** A setting that is a whole number: its value, and the text a template
    literal prints for it. *)
Record Whole : Type := {
  whole : Z;
  shown : Js.str
}.

Definition fifteen : Whole := {| whole := 15; shown := js "15" |}.

(** The extension with its timer: [syncTimer] is the module-level handle,
    [timers] the intervals that are live in the process, each with its
    delay in milliseconds, and [nextTimer] the handle the next
    [setInterval] returns. *)
Record Runtime : Type := {
  ext : State;
  syncTimer : option N;
  timers : list (N * Z);
  nextTimer : N
}.

(** [clearInterval(handle)] *)
Definition clearInterval (handle : N) (rt : Runtime) : Runtime :=
  {| ext := ext rt; syncTimer := syncTimer rt;
     timers := filter (fun t => negb (fst t =? handle)%N) (timers rt);
     nextTimer := nextTimer rt |}.

(** [TIMEOUT_MAX] of Node's timers. *)
Definition TIMEOUT_MAX : Z := 2147483647.

(** [setInterval(callback, delay)]: the handle and the runtime with the
    interval live.  Node sets a delay that is not between 1 and
    [TIMEOUT_MAX] to 1. *)
Definition setInterval (delay : Z) (rt : Runtime) : N * Runtime :=
  let after :=
    if (1 <=? delay)%Z && (delay <=? TIMEOUT_MAX)%Z then delay else 1%Z in
  (nextTimer rt,
   {| ext := ext rt; syncTimer := syncTimer rt;
      timers := timers rt ++ [(nextTimer rt, after)];
      nextTimer := (nextTimer rt + 1)%N |}).

Definition set_syncTimer (t : option N) (rt : Runtime) : Runtime :=
  {| ext := ext rt; syncTimer := t; timers := timers rt;
     nextTimer := nextTimer rt |}.

(** A computation of the extension, run in the runtime; none of those
    run here throws. *)
Definition onExt (m : M unit) (rt : Runtime) : Runtime :=
  {| ext := snd (m (ext rt)); syncTimer := syncTimer rt; timers := timers rt;
     nextTimer := nextTimer rt |}.

(** [if (syncTimer) { clearInterval(syncTimer); syncTimer = undefined; }] *)
Definition clearSyncTimer (rt : Runtime) : Runtime :=
  match syncTimer rt with
  | Some handle => set_syncTimer None (clearInterval handle rt)
  | None => rt
  end.

(** [scheduleAutoSync(context, log)]; [setting] is what
    [cfg.get<number>("autoSyncIntervalMinutes")] answers, a whole number
    of minutes when it is set.  A product above [TIMEOUT_MAX] stays above
    it however the multiplication rounds. *)
Definition scheduleAutoSync (setting : option Whole) (rt : Runtime) : Runtime :=
  let rt := clearSyncTimer rt in
  let minutes := nullish_or setting fifteen in
  if (0 <? whole minutes)%Z then
    let rt :=
      onExt (log (js "Auto-sync every " ++ shown minutes
                  ++ js " minute(s).") true) rt in
    let (handle, rt) := setInterval (whole minutes * 60000)%Z rt in
    set_syncTimer (Some handle) rt
  else onExt (log (js "Auto-sync disabled (interval = 0).") true) rt.

(** [deactivate()] *)
Definition deactivate (rt : Runtime) : Runtime :=
  clearSyncTimer (onExt disposeWatchers (onExt disposeProviders rt)).

End Commands.

(* ================================================================== *)
(** ** Notions the further statements use *)

(** The files under a directory entry, and whether every directory under
    it can be listed. *)
Fixpoint fileCount (entry : Dirent) : nat :=
  match entry with
  | FileEnt _ => 1
  | DirEnt _ (Err _) => 0
  | DirEnt _ (Ok sub) => list_sum (map fileCount sub)
  end.

Fixpoint listable (entry : Dirent) : bool :=
  match entry with
  | FileEnt _ => true
  | DirEnt _ (Err _) => false
  | DirEnt _ (Ok sub) => forallb listable sub
  end.

(** [null] or [undefined] *)
Definition nullish (v : value) : Prop := v = VNull \/ v = VUndefined.

(** Parsed entries that are all of the declared type. *)
Definition conforming (entries : list (Js.str * RawSnippet))
  : list (Js.str * Entry) :=
  map (fun e => (fst e, Conforms (snd e))) entries.

(** No white space at the start, at the end. *)
Definition noLead (s : Js.str) : Prop :=
  match s with
  | c :: _ => Js.is_space c = false
  | [] => True
  end.

Definition trimmed (s : Js.str) : Prop := noLead s /\ noLead (rev s).

(** A settings entry [getRepoConfigs] drops: not an object, or an object
    whose [localRepoPath] is falsy or a blank string. *)
Definition pathless (r : value) : Prop :=
  match r with
  | VUndefined | VNull => False
  | VObject fields =>
      Value.truthy (Value.field (js "localRepoPath") fields) = false
      \/ exists s, Value.field (js "localRepoPath") fields = VString s
                   /\ Js.trim s = []
  | _ => True
  end.

(** How often the loader files [snippet] under [key]. *)
Definition filedUnder {H : Host} (key : Js.str) (snippet : TeamSnippet) : nat :=
  count_occ str_eq_dec (map toLowerCase (languages snippet)) key.

Section FurtherStatements.

Context {H : Host}.

(** The paths of the files under the entry [entry] of [dir], in the order
    of the listings, those of a directory where the directory stands:
    the path of a file is its name joined to the path of its directory. *)
Fixpoint filesUnder (dir : Js.str) (entry : Dirent) : list Js.str :=
  match entry with
  | FileEnt name => [join dir name]
  | DirEnt name (Err _) => []
  | DirEnt name (Ok sub) => flat_map (filesUnder (join dir name)) sub
  end.

Definition isConsole (e : Event) : Prop :=
  match e with
  | EvConsole _ => True
  | _ => False
  end.

Definition isLoadWarning (e : Event) : Prop :=
  exists file err, e = loadWarning file err.


(** The message a cycle over [repos] closes with when it is asked to
    notify, read off the state it publishes. *)
Definition closingNotice (repos : list RepoConfig) (st : State) : Event :=
  if (length repos =? 0)%nat then
    EvWarning (js "HexSnippets: No repositories configured. Configure 'hexSnippets.repositories' or the legacy single-repo settings.")
  else
    EvInformation
      (loadedMessage (countTotalSnippets (snippetMap st)) (length repos)
         (length (filter (fun s => truthy_opt (lastError s))
                         (JsMap.values (repoStatuses st))))).

(** A status as a turn for a source of [repos] stores it: under the id of
    the source and with its name, and with either an error that is not
    the empty string or the time of the load, never both. *)
Definition statusOf (repos : list RepoConfig) (e : Js.str * RepoStatus) : Prop :=
  rs_id (snd e) = fst e
  /\ (exists repo, In repo repos /\ rc_id repo = fst e
                   /\ rs_name (snd e) = rc_name repo)
  /\ match lastError (snd e), lastSync (snd e) with
     | Some err, None => err <> []
     | None, Some _ => True
     | _, _ => False
     end.



(** The table a turn without pull loads for [repo] in the world [w]:
    empty when the source is skipped. *)
Definition sourceTable (w : World) (repo : RepoConfig) : SnippetMap :=
  let repoPath := resolveRepoPath w (localRepoPath repo) in
  let snippetDir := join repoPath (snippetsPath repo) in
  if notGitRepo w repoPath then []
  else if negb (existsSync w snippetDir) then []
  else
    match walk w snippetDir with
    | Ok all => loadedFrom w (filter (eligible (includeJsonFiles repo)) all) []
    | Err _ => []
    end.

(** The live timers are the one the extension holds, if it holds one. *)
Definition timerTracked (rt : Runtime) : Prop :=
  match syncTimer rt with
  | Some handle => exists delay, timers rt = [(handle, delay)]
  | None => timers rt = []
  end.

End FurtherStatements.

(** More of the demo host. *)
Module DemoMore.


(** The folder of [/a] with a file whose only entry has no [prefix],
    after a cycle that published a table and a provider. *)
Definition bareFile : Js.str := js "/a/snippets/bare.json".

Definition startBare : State (H := Demo.host) :=
  @Build_State Demo.host
    {| Demo.config := Demo.settings;
       Demo.paths := Demo.paths Demo.disk;
       Demo.dirs := [(js "/a/snippets",
                      [FileEnt (js "demo.code-snippets"); FileEnt (js "bare.json")])];
       Demo.files := [(Demo.demoFile, js "{Log}"); (bareFile, js "{Bare}")];
       Demo.clock := Demo.clock Demo.disk |}
    [(js "go", [normalizeSnippet (js "Old") Demo.todoSnippet])]
    [{| selector := ByLanguage (js "go");
        offered := [normalizeSnippet (js "Old") Demo.todoSnippet];
        triggerChars := [js "o"; js "x"] |}]
    [js "/old"] [] (js "$(check) HexSnippets (1)") [] [].

(** The table the loop of a cycle builds from [startBare], and the state
    it leaves. *)
Definition tableBare : SnippetMap :=
  match fst (forOf (syncRepo (H := Demo.host) true) [Demo.repoA; Demo.repoB] []
               (set_repoWatchers [] (set_repoStatuses [] startBare))) with
  | Ok table => table
  | Err _ => []
  end.

Definition stateBare : State (H := Demo.host) :=
  snd (forOf (syncRepo (H := Demo.host) true) [Demo.repoA; Demo.repoB] []
         (set_repoWatchers [] (set_repoStatuses [] startBare))).

(** The demo settings with a [null] between the two entries. *)
Definition nullSettings : Configuration :=
  {| cfg_repositories :=
       Some ([Demo.repoEntryA] ++ VNull :: [Demo.repoEntryB]);
     cfg_localRepoPath := None; cfg_branch := None; cfg_snippetsPath := None;
     cfg_includeJsonFiles := None; cfg_enableGitPull := None;
     cfg_debug := None |}.

Definition startNull : State (H := Demo.host) :=
  @Build_State Demo.host
    {| Demo.config := nullSettings;
       Demo.paths := Demo.paths Demo.disk;
       Demo.dirs := Demo.dirs Demo.disk;
       Demo.files := Demo.files Demo.disk;
       Demo.clock := Demo.clock Demo.disk |}
    [] [] [] [] [] [] [].

(** Two sources with the same name. *)
Definition twinSettings : Configuration :=
  {| cfg_repositories :=
       Some [VObject [(js "localRepoPath", VString (js "/a"));
                      (js "name", VString (js "Team"))];
             VObject [(js "localRepoPath", VString (js "/c"));
                      (js "name", VString (js "Team"))]];
     cfg_localRepoPath := None; cfg_branch := None; cfg_snippetsPath := None;
     cfg_includeJsonFiles := None; cfg_enableGitPull := None;
     cfg_debug := None |}.

Definition startTwins : State (H := Demo.host) :=
  @Build_State Demo.host
    {| Demo.config := twinSettings;
       Demo.paths := [js "/a"; js "/a/snippets"; js "/c"; js "/c/snippets"];
       Demo.dirs := [];
       Demo.files := [];
       Demo.clock := 0 |}
    [] [] [] [] [] [] [].

(** The demo host with the remote out of reach: the pull fails and
    changes nothing. *)
Definition offline : Host :=
  {| World := Demo.Machine;
     getConfiguration := @getConfiguration Demo.host;
     workspaceFolder := @workspaceFolder Demo.host;
     cwd := @cwd Demo.host;
     isAbsolute := @isAbsolute Demo.host;
     join := @join Demo.host;
     toLowerCase := @toLowerCase Demo.host;
     existsSync := @existsSync Demo.host;
     readdirSync := @readdirSync Demo.host;
     readFileSync := @readFileSync Demo.host;
     parseEntries := @parseEntries Demo.host;
     execFile := fun _ _ w =>
       (w, Some (js "Command failed", [], js "fatal: unable to access"));
     dateNow := @dateNow Demo.host;
     toLocaleString := @toLocaleString Demo.host |}.

Definition startOffline : State (H := offline) :=
  @Build_State offline Demo.disk [] [] [] [] [] [] [].

(** The runtime at activation, before a timer is set. *)
Definition fresh : Runtime (H := Demo.host) :=
  {| ext := Demo.start; syncTimer := None; timers := []; nextTimer := 1 |}.

End DemoMore.

(** Discharge the first hypothesis of [W] by evaluation. *)
Ltac by_evaluation W :=
  match type of W with
  | ?A -> _ =>
      let Hx := fresh "Hx" in
      assert (Hx : A) by (vm_compute; reflexivity);
      specialize (W Hx); clear Hx
  end.

(* ================================================================== *)
(** * Properties *)

(** ** Strings *)

Lemma Js_eqb_eq (a b : Js.str) : Js.eqb a b = true <-> a = b.
Proof.
  unfold Js.eqb. destruct (list_eq_dec N.eq_dec a b); split; congruence.
Qed.

Lemma Js_eqb_neq (a b : Js.str) : Js.eqb a b = false <-> a <> b.
Proof.
  unfold Js.eqb. destruct (list_eq_dec N.eq_dec a b); split; congruence.
Qed.

Lemma Js_eqb_refl (a : Js.str) : Js.eqb a a = true.
Proof. now apply Js_eqb_eq. Qed.

Lemma truthy_nonempty (s : Js.str) : Js.truthy s = true <-> s <> [].
Proof. destruct s; simpl; split; congruence. Qed.

Lemma space_is_sep (c : Js.char) : Js.is_space c = true -> Js.is_sep c = true.
Proof. unfold Js.is_sep. intros ->. apply orb_true_r. Qed.

Lemma trimStart_clean (s : Js.str) :
  Forall (fun c => Js.is_sep c = false) s -> Js.trimStart s = s.
Proof.
  destruct 1 as [|c r Hc _]; simpl; [reflexivity|].
  destruct (Js.is_space c) eqn:E; [|reflexivity].
  apply space_is_sep in E. congruence.
Qed.

(** Trimming leaves a piece without separators as it is. *)
Lemma trim_clean (s : Js.str) :
  Forall (fun c => Js.is_sep c = false) s -> Js.trim s = s.
Proof.
  intros Hs. unfold Js.trim, Js.trimEnd.
  rewrite (trimStart_clean Hs).
  rewrite trimStart_clean by now apply Forall_rev.
  apply rev_involutive.
Qed.

Lemma trimStart_nil_blank (s : Js.str) :
  Js.trimStart s = [] -> Forall (fun c => Js.is_space c = true) s.
Proof.
  induction s as [|c r IH]; simpl; intros E; [constructor|].
  destruct (Js.is_space c) eqn:Ec; [|discriminate].
  constructor; auto.
Qed.

Lemma trimStart_blank (s : Js.str) :
  Forall (fun c => Js.is_space c = true) s -> Js.trimStart s = [].
Proof.
  induction 1 as [|c r Hc _ IH]; simpl; [reflexivity|]. now rewrite Hc.
Qed.

(** [s.trim()] is empty exactly when [s] is made of white space. *)
Lemma trim_nil_iff (s : Js.str) :
  Js.trim s = [] <-> Forall (fun c => Js.is_space c = true) s.
Proof.
  unfold Js.trim, Js.trimEnd. split.
  - intros E. destruct (Js.trimStart s) as [|c r] eqn:Es.
    + now apply trimStart_nil_blank.
    + exfalso.
      assert (E' : Js.trimStart (rev (c :: r)) = []).
      { apply (f_equal (@rev _)) in E. now rewrite rev_involutive in E. }
      apply trimStart_nil_blank in E'. apply Forall_rev in E'.
      rewrite rev_involutive in E'. inversion E' as [|? ? Hc _]; subst.
      clear - Es Hc. induction s as [|a s IH]; simpl in Es; [discriminate|].
      destruct (Js.is_space a) eqn:Ea; [auto|]. injection Es as -> ->. congruence.
  - intros Hs. rewrite (trimStart_blank Hs). reflexivity.
Qed.

(** The pieces of a split hold no character of the class. *)
Lemma split_runs_clean (C : Js.char -> bool) (s : Js.str) :
  forall inrun cur,
    Forall (fun c => C c = false) cur ->
    Forall (Forall (fun c => C c = false)) (Js.split_runs C inrun cur s).
Proof.
  induction s as [|c r IH]; simpl; intros inrun cur Hcur.
  - constructor; [now apply Forall_rev | constructor].
  - destruct (C c) eqn:Ec.
    + destruct inrun; [now apply IH|].
      constructor; [now apply Forall_rev | apply IH; constructor].
    + apply IH. now constructor.
Qed.

(** Put end to end, the pieces are the string without the class. *)
Lemma split_runs_concat (C : Js.char -> bool) (s : Js.str) :
  forall inrun cur,
    (inrun = true -> cur = []) ->
    concat (Js.split_runs C inrun cur s)
    = rev cur ++ filter (fun c => negb (C c)) s.
Proof.
  induction s as [|c r IH]; simpl; intros inrun cur Hrun.
  - now rewrite app_nil_r.
  - destruct (C c) eqn:Ec; simpl.
    + destruct inrun.
      * rewrite IH by auto. reflexivity.
      * simpl. rewrite IH by auto. reflexivity.
    + rewrite IH by discriminate. simpl. now rewrite <- app_assoc.
Qed.

Lemma concat_filter_truthy (l : list Js.str) :
  concat (filter Js.truthy l) = concat l.
Proof.
  induction l as [|x r IH]; simpl; [reflexivity|].
  destruct x; simpl; [assumption|]. now rewrite IH.
Qed.

Lemma map_trim_clean (l : list Js.str) :
  Forall (Forall (fun c => Js.is_sep c = false)) l -> map Js.trim l = l.
Proof.
  induction 1 as [|x r Hx _ IH]; simpl; [reflexivity|].
  now rewrite (trim_clean Hx), IH.
Qed.

(** The tokens of a scope: the non-empty pieces between the runs of
    commas and white space; trimming them changes nothing. *)
Lemma scope_tokens (sc : Js.str) :
  filter Js.truthy (map Js.trim (Js.split_seps sc))
  = filter Js.truthy (Js.split_seps sc).
Proof.
  unfold Js.split_seps. rewrite map_trim_clean; [reflexivity|].
  apply split_runs_clean. constructor.
Qed.

(** ** The languages of a normalized snippet *)

(** An absent scope, an empty one and one made of white space give the
    global language alone. *)
Lemma normalizeSnippet_default_language (name : Js.str) (raw : RawSnippet) :
  (raw_scope raw = None
   \/ exists sc, raw_scope raw = Some sc
                 /\ Forall (fun c => Js.is_space c = true) sc) ->
  languages (normalizeSnippet name raw) = [js "*"].
Proof.
  intros [E | (sc & E & Hblank)]; unfold normalizeSnippet; simpl; rewrite E;
    [reflexivity|].
  apply trim_nil_iff in Hblank. rewrite Hblank. simpl.
  now rewrite andb_false_r.
Qed.

(** With any other scope the languages are the tokens of the scope, in
    their own case. *)
Lemma normalizeSnippet_scope_tokens (name : Js.str) (raw : RawSnippet) (sc : Js.str) :
  raw_scope raw = Some sc ->
  Js.trim sc <> [] ->
  languages (normalizeSnippet name raw) = filter Js.truthy (Js.split_seps sc).
Proof.
  intros E Hsc. unfold normalizeSnippet; simpl. rewrite E.
  assert (Ht : Js.truthy (Js.trim sc) = true) by now apply truthy_nonempty.
  assert (Hs : Js.truthy sc = true).
  { destruct sc; [now elim Hsc | reflexivity]. }
  rewrite Ht, Hs. simpl. apply scope_tokens.
Qed.

(** A scope with a character that is neither a comma nor white space has
    a language. *)
Lemma normalizeSnippet_languages_nonempty (name : Js.str) (raw : RawSnippet)
  (sc : Js.str) (c : Js.char) :
  raw_scope raw = Some sc ->
  In c sc -> Js.is_sep c = false ->
  languages (normalizeSnippet name raw) <> [].
Proof.
  intros E Hin Hc.
  assert (Hsc : Js.trim sc <> []).
  { intros Hnil. apply trim_nil_iff in Hnil.
    rewrite Forall_forall in Hnil. specialize (Hnil c Hin).
    apply space_is_sep in Hnil. congruence. }
  rewrite (normalizeSnippet_scope_tokens name raw E Hsc). intros Hnil.
  assert (Hcat : concat (filter Js.truthy (Js.split_seps sc))
                 = filter (fun c => negb (Js.is_sep c)) sc).
  { rewrite concat_filter_truthy. unfold Js.split_seps.
    now rewrite split_runs_concat by discriminate. }
  rewrite Hnil in Hcat. simpl in Hcat.
  assert (Hin' : In c (filter (fun c => negb (Js.is_sep c)) sc)).
  { apply filter_In. split; [assumption | now rewrite Hc]. }
  rewrite <- Hcat in Hin'. exact Hin'.
Qed.

(** A scope of commas and white space only leaves no token. *)
Lemma split_seps_only_separators (sc : Js.str) :
  Forall (fun c => Js.is_sep c = true) sc ->
  filter Js.truthy (Js.split_seps sc) = [].
Proof.
  intros Hsc.
  assert (Hcat : concat (filter Js.truthy (Js.split_seps sc)) = []).
  { rewrite concat_filter_truthy. unfold Js.split_seps.
    rewrite split_runs_concat by discriminate. simpl.
    induction Hsc as [|c r Hc _ IH]; simpl; [reflexivity|]. now rewrite Hc. }
  destruct (filter Js.truthy (Js.split_seps sc)) as [|t ts] eqn:E; [reflexivity|].
  assert (Ht : In t (filter Js.truthy (Js.split_seps sc))) by (rewrite E; now left).
  apply filter_In in Ht. destruct Ht as [_ Ht].
  destruct t; [discriminate|]. discriminate.
Qed.

(** C1 — The claim that every normalized snippet has a language fails on
    the code for a scope that is not blank and holds separators only: with
    the scope [","] the test [raw.scope && raw.scope.trim()] passes, the
    split leaves two empty pieces, the filter drops both, and
    [normalizeSnippet] returns a snippet whose [languages] is empty, so
    the loader files it under no key at all. *)
Theorem normalizeSnippet_comma_scope_has_no_language
  (name : Js.str) (prefix : OneOrMany Prefix) (body : OneOrMany Js.str)
  (description : option Js.str) :
  languages (normalizeSnippet name
               {| raw_prefix := prefix; raw_body := body;
                  raw_description := description;
                  raw_scope := Some (js ",") |}) = [].
Proof.
  rewrite normalizeSnippet_scope_tokens with (sc := js ",").
  - apply split_seps_only_separators. repeat constructor.
  - reflexivity.
  - discriminate.
Qed.

(** ** The body lines of a normalized snippet *)

Lemma dropCRbeforeLF_cons (c : Js.char) (r : Js.str) :
  (c =? Js.CR)%N = false -> dropCRbeforeLF (c :: r) = c :: dropCRbeforeLF r.
Proof. intros Hc. simpl. rewrite Hc. destruct r; reflexivity. Qed.

Lemma dropCRbeforeLF_LF (r : Js.str) :
  dropCRbeforeLF (Js.LF :: r) = Js.LF :: dropCRbeforeLF r.
Proof. now apply dropCRbeforeLF_cons. Qed.

(** The split of the source is the split the specification words. *)
Lemma split_lines_from_spec (n : nat) :
  forall s cur, length s <= n ->
    Js.split_lines_from cur s = cutAt Js.LF cur (dropCRbeforeLF s).
Proof.
  induction n as [|n IH]; intros s cur Hlen.
  - destruct s; [reflexivity | simpl in Hlen; lia].
  - destruct s as [|c r]; [reflexivity|]. simpl in Hlen.
    cbn [Js.split_lines_from].
    destruct (c =? Js.LF)%N eqn:Ec.
    + apply N.eqb_eq in Ec. subst c. rewrite dropCRbeforeLF_LF.
      cbn [cutAt]. rewrite N.eqb_refl. f_equal. apply IH. lia.
    + destruct r as [|d r'].
      * cbn. rewrite Ec. reflexivity.
      * destruct ((c =? Js.CR)%N && (d =? Js.LF)%N) eqn:Ecd.
        -- apply andb_prop in Ecd. destruct Ecd as [E1 E2].
           apply N.eqb_eq in E1, E2. subst c d.
           change (dropCRbeforeLF (Js.CR :: Js.LF :: r'))
             with (dropCRbeforeLF (Js.LF :: r')).
           rewrite dropCRbeforeLF_LF. cbn [cutAt]. rewrite N.eqb_refl.
           f_equal. apply IH. simpl in Hlen. lia.
        -- replace (dropCRbeforeLF (c :: d :: r'))
             with (c :: dropCRbeforeLF (d :: r')).
           2:{ cbn [dropCRbeforeLF]. rewrite Ecd. reflexivity. }
           cbn [cutAt]. rewrite Ec. apply IH. lia.
Qed.

Lemma split_lines_spec (s : Js.str) : Js.split_lines s = spec_lines s.
Proof. apply (split_lines_from_spec (n := length s)). lia. Qed.

Lemma join_cutAt (sep : Js.char) (s : Js.str) :
  forall cur, Js.join [sep] (cutAt sep cur s) = rev cur ++ s.
Proof.
  induction s as [|c r IH]; intros cur; simpl.
  - now rewrite List.app_nil_r.
  - destruct (c =? sep)%N eqn:Ec.
    + apply N.eqb_eq in Ec. subst c.
      assert (Hne : exists x l, cutAt sep [] r = x :: l).
      { destruct r as [|a r']; simpl; [now eexists; eexists|].
        destruct (a =? sep)%N; [now eexists; eexists|].
        clear. generalize [a]. induction r' as [|b r'' IH']; intros acc; simpl.
        - now eexists; eexists.
        - destruct (b =? sep)%N; [now eexists; eexists | apply IH']. }
      destruct Hne as (x & l & Hxl).
      cbn [Js.join]. rewrite Hxl, <- Hxl, IH. reflexivity.
    + rewrite IH. simpl. now rewrite <- List.app_assoc.
Qed.

Lemma cutAt_clean (sep : Js.char) (s : Js.str) :
  forall cur, ~ In sep cur -> Forall (fun l => ~ In sep l) (cutAt sep cur s).
Proof.
  induction s as [|c r IH]; intros cur Hcur; simpl.
  - constructor; [|constructor]. now rewrite <- in_rev.
  - destruct (c =? sep)%N eqn:Ec.
    + constructor; [now rewrite <- in_rev | apply IH; intros []].
    + apply IH. intros [-> | Hin]; [|auto]. now rewrite N.eqb_refl in Ec.
Qed.

Lemma length_cutAt (sep : Js.char) (s : Js.str) :
  forall cur, length (cutAt sep cur s) = S (count_occ N.eq_dec s sep).
Proof.
  induction s as [|c r IH]; intros cur; simpl; [reflexivity|].
  destruct (c =? sep)%N eqn:Ec; destruct (N.eq_dec c sep) as [E|E].
  - simpl. now rewrite IH.
  - apply N.eqb_eq in Ec. contradiction.
  - subst. now rewrite N.eqb_refl in Ec.
  - apply IH.
Qed.

Lemma dropCRbeforeLF_step (c d : Js.char) (r : Js.str) :
  dropCRbeforeLF (c :: d :: r)
  = if (c =? Js.CR)%N && (d =? Js.LF)%N then dropCRbeforeLF (d :: r)
    else c :: dropCRbeforeLF (d :: r).
Proof. reflexivity. Qed.

Lemma count_LF_dropCRbeforeLF (s : Js.str) :
  count_occ N.eq_dec (dropCRbeforeLF s) Js.LF = count_occ N.eq_dec s Js.LF.
Proof.
  induction s as [|c r IH]; [reflexivity|].
  destruct r as [|d r']; [reflexivity|].
  rewrite dropCRbeforeLF_step.
  destruct ((c =? Js.CR)%N && (d =? Js.LF)%N) eqn:Ecd.
  - apply andb_prop in Ecd. destruct Ecd as [E1 _]. apply N.eqb_eq in E1.
    subst c. rewrite IH. reflexivity.
  - destruct (N.eq_dec c Js.LF) as [E|E].
    + rewrite !(count_occ_cons_eq N.eq_dec _ E). now rewrite IH.
    + rewrite !(count_occ_cons_neq N.eq_dec _ E). exact IH.
Qed.

(** C8 — A body given as one string becomes the lines of that string cut
    at each [\n] or [\r\n]: the lines hold no line feed, joined by line
    feeds they give the string back with each [\r\n] turned into [\n], and
    there is one line more than there are line feeds.  A body given as an
    array of lines is taken as it is. *)
Theorem normalizeSnippet_bodyLines
  (name : Js.str) (prefix : OneOrMany Prefix) (description scope : option Js.str) :
  (forall b : Js.str,
      let snippet :=
        normalizeSnippet name
          {| raw_prefix := prefix; raw_body := One b;
             raw_description := description; raw_scope := scope |} in
      bodyLines snippet = Js.split_lines b
      /\ bodyLines snippet = spec_lines b
      /\ Js.join [Js.LF] (bodyLines snippet) = dropCRbeforeLF b
      /\ Forall (fun line => ~ In Js.LF line) (bodyLines snippet)
      /\ length (bodyLines snippet) = S (count_occ N.eq_dec b Js.LF))
  /\ (forall lines : list Js.str,
        bodyLines (normalizeSnippet name
                     {| raw_prefix := prefix; raw_body := Many lines;
                        raw_description := description; raw_scope := scope |})
        = lines).
Proof.
  split; [|reflexivity].
  intros b snippet.
  assert (E : bodyLines snippet = spec_lines b) by apply split_lines_spec.
  split; [reflexivity|]. split; [exact E|]. rewrite E. unfold spec_lines.
  split; [apply (join_cutAt Js.LF (dropCRbeforeLF b) []) |].
  split; [apply cutAt_clean; intros [] |].
  rewrite length_cutAt. now rewrite count_LF_dropCRbeforeLF.
Qed.

(** ** Maps *)

Lemma get_set_eq {V} (k : Js.str) (v : V) (m : JsMap.t V) :
  JsMap.get k (JsMap.set k v m) = Some v.
Proof.
  induction m as [|[k' v'] r IH]; simpl.
  - now rewrite Js_eqb_refl.
  - destruct (Js.eqb k' k) eqn:E; simpl; rewrite E; [reflexivity | exact IH].
Qed.

Lemma get_set_ne {V} (k k' : Js.str) (v : V) (m : JsMap.t V) :
  k <> k' -> JsMap.get k' (JsMap.set k v m) = JsMap.get k' m.
Proof.
  intros Hne. induction m as [|[k0 v0] r IH]; simpl.
  - apply Js_eqb_neq in Hne. now rewrite Hne.
  - destruct (Js.eqb k0 k) eqn:E; simpl.
    + apply Js_eqb_eq in E. subst k0.
      apply Js_eqb_neq in Hne. now rewrite Hne.
    + destruct (Js.eqb k0 k'); [reflexivity | exact IH].
Qed.

Lemma get_None_keys {V} (k : Js.str) (m : JsMap.t V) :
  JsMap.get k m = None <-> ~ In k (JsMap.keys m).
Proof.
  induction m as [|[k' v'] r IH]; simpl.
  - split; [intros _ [] | reflexivity].
  - destruct (Js.eqb k' k) eqn:E.
    + apply Js_eqb_eq in E. subst. split; [discriminate | intros Hn; elim Hn; now left].
    + apply Js_eqb_neq in E. rewrite IH. split.
      * intros Hn [Heq | Hin]; [contradiction | auto].
      * intros Hn Hin. apply Hn. now right.
Qed.

Lemma keys_set {V} (k : Js.str) (v : V) (m : JsMap.t V) :
  JsMap.keys (JsMap.set k v m)
  = if JsMap.has k m then JsMap.keys m else JsMap.keys m ++ [k].
Proof.
  unfold JsMap.has. induction m as [|[k' v'] r IH]; simpl; [reflexivity|].
  destruct (Js.eqb k' k) eqn:E; simpl; [reflexivity|].
  rewrite IH. destruct (JsMap.get k r); reflexivity.
Qed.

Lemma values_set_absent {V} (k : Js.str) (v : V) (m : JsMap.t V) :
  JsMap.get k m = None -> JsMap.set k v m = m ++ [(k, v)].
Proof.
  induction m as [|[k' v'] r IH]; simpl; [reflexivity|].
  destruct (Js.eqb k' k); [discriminate|]. intros E. now rewrite IH.
Qed.

(** Replacing the value under a present key changes one entry. *)
Lemma set_present {V} (k : Js.str) (v v0 : V) (m : JsMap.t V) :
  JsMap.get k m = Some v0 ->
  exists m1 m2 k0,
    m = m1 ++ (k0, v0) :: m2 /\ JsMap.set k v m = m1 ++ (k0, v) :: m2.
Proof.
  induction m as [|[k' v'] r IH]; simpl; [discriminate|].
  destruct (Js.eqb k' k) eqn:E.
  - intros [= ->]. now exists [], r, k'.
  - intros Hget. destruct (IH Hget) as (m1 & m2 & k0 & -> & ->).
    now exists ((k', v') :: m1), m2, k0.
Qed.

Lemma bucket_push {A} (k k' : Js.str) (xs : list A) (m : JsMap.t (list A)) :
  bucket k' (JsMap.push k xs m)
  = if Js.eqb k k' then bucket k' m ++ xs else bucket k' m.
Proof.
  unfold bucket, JsMap.push, JsMap.has.
  destruct (JsMap.get k m) as [arr|] eqn:Eg.
  - rewrite Eg. destruct (Js.eqb k k') eqn:E.
    + apply Js_eqb_eq in E. subst k'. now rewrite get_set_eq, Eg.
    + apply Js_eqb_neq in E. now rewrite get_set_ne.
  - rewrite get_set_eq. destruct (Js.eqb k k') eqn:E.
    + apply Js_eqb_eq in E. subst k'. now rewrite get_set_eq, Eg.
    + apply Js_eqb_neq in E. now rewrite !get_set_ne.
Qed.

Lemma keys_push {A} (k : Js.str) (xs : list A) (m : JsMap.t (list A)) :
  JsMap.keys (JsMap.push k xs m)
  = if JsMap.has k m then JsMap.keys m else JsMap.keys m ++ [k].
Proof.
  unfold JsMap.push, JsMap.has.
  destruct (JsMap.get k m) as [arr|] eqn:Eg.
  - rewrite Eg, keys_set. unfold JsMap.has. now rewrite Eg.
  - rewrite get_set_eq, keys_set. unfold JsMap.has. rewrite get_set_eq.
    rewrite keys_set. unfold JsMap.has. now rewrite Eg.
Qed.

Lemma countTotalSnippets_sum (m : SnippetMap) :
  countTotalSnippets m = list_sum (map (fun e => length (snd e)) m).
Proof.
  unfold countTotalSnippets, JsMap.values.
  assert (G : forall (l : list (Js.str * list TeamSnippet)) n,
             fold_left (fun count arr => count + length arr) (map snd l) n
             = n + list_sum (map (fun e => length (snd e)) l)).
  { induction l as [|e r IH]; intros n; simpl; [lia|]. rewrite IH. lia. }
  apply G.
Qed.

Lemma countTotalSnippets_app (m1 m2 : SnippetMap) :
  countTotalSnippets (m1 ++ m2) = countTotalSnippets m1 + countTotalSnippets m2.
Proof. rewrite !countTotalSnippets_sum, map_app, list_sum_app. reflexivity. Qed.

(** Pushing [xs] under any key makes the map [length xs] snippets
    larger. *)
Lemma countTotalSnippets_push (k : Js.str) (xs : list TeamSnippet) (m : SnippetMap) :
  countTotalSnippets (JsMap.push k xs m) = countTotalSnippets m + length xs.
Proof.
  unfold JsMap.push, JsMap.has.
  destruct (JsMap.get k m) as [arr|] eqn:Eg.
  - rewrite Eg.
    destruct (set_present k (arr ++ xs) m Eg) as (m1 & m2 & k0 & E1 & E2).
    rewrite E2. rewrite E1.
    rewrite !countTotalSnippets_app.
    change ((k0, arr ++ xs) :: m2) with ([(k0, arr ++ xs)] ++ m2).
    change ((k0, arr) :: m2) with ([(k0, arr)] ++ m2).
    rewrite !countTotalSnippets_app, !countTotalSnippets_sum. simpl.
    rewrite length_app. lia.
  - rewrite get_set_eq.
    rewrite (values_set_absent k [] m Eg).
    assert (Eg' : JsMap.get k (m ++ [(k, @nil TeamSnippet)]) = Some []).
    { rewrite <- (values_set_absent k [] m Eg). apply get_set_eq. }
    destruct (set_present k ([] ++ xs) _ Eg') as (m1 & m2 & k0 & E1 & E2).
    rewrite E2.
    assert (Ec : countTotalSnippets (m ++ [(k, [])]) = countTotalSnippets m).
    { rewrite countTotalSnippets_app, !countTotalSnippets_sum. simpl. lia. }
    rewrite <- Ec, E1.
    rewrite !countTotalSnippets_app.
    change ((k0, [] ++ xs) :: m2) with ([(k0, [] ++ xs)] ++ m2).
    change ((k0, []) :: m2) with ([(k0, @nil TeamSnippet)] ++ m2).
    rewrite !countTotalSnippets_app, !countTotalSnippets_sum. simpl. lia.
Qed.

(** ** Scope tokens and bucket keys *)

Section Buckets.

Context {H : Host}.

Lemma addSnippet_bucket (snippet : TeamSnippet) (langs : list Js.str) :
  forall (map : SnippetMap) (key : Js.str),
    bucket key
      (fold_left (fun m lang => JsMap.push (toLowerCase lang) [snippet] m) langs map)
    = bucket key map
      ++ repeat snippet (count_occ str_eq_dec (List.map toLowerCase langs) key).
Proof.
  induction langs as [|lang r IH]; intros map key; simpl.
  - now rewrite List.app_nil_r.
  - rewrite IH, bucket_push.
    destruct (str_eq_dec (toLowerCase lang) key) as [E|E].
    + apply Js_eqb_eq in E. rewrite E. simpl. now rewrite <- List.app_assoc.
    + apply Js_eqb_neq in E. now rewrite E.
Qed.

Lemma addSnippet_count (snippet : TeamSnippet) (map : SnippetMap) :
  countTotalSnippets (addSnippet map snippet)
  = countTotalSnippets map + length (languages snippet).
Proof.
  unfold addSnippet. generalize (languages snippet) as langs. intros langs.
  revert map. induction langs as [|lang r IH]; intros map; simpl; [lia|].
  rewrite IH, countTotalSnippets_push. simpl. lia.
Qed.

(** C2 (as amended) — For an entry whose scope is present and not blank,
    normalization cuts the scope at the runs of commas and white space and
    keeps the non-empty pieces in their own case: each token is non-empty
    and free of commas and white space, and end to end the tokens are the
    scope without its separators.  The loader then files the snippet under
    the lower-cased tokens: under each key, once per token that lower-cases
    to it. *)
Theorem normalizeSnippet_tokens_keep_case_keys_lower
  (name : Js.str) (raw : RawSnippet) (sc : Js.str) :
  raw_scope raw = Some sc ->
  Js.trim sc <> [] ->
  let snippet := normalizeSnippet name raw in
  languages snippet = filter Js.truthy (Js.split_seps sc)
  /\ Forall (fun t => t <> [] /\ Forall (fun c => Js.is_sep c = false) t)
            (languages snippet)
  /\ concat (languages snippet) = filter (fun c => negb (Js.is_sep c)) sc
  /\ forall (map : SnippetMap) (key : Js.str),
       bucket key (addSnippet map snippet)
       = bucket key map
         ++ repeat snippet
              (count_occ str_eq_dec (List.map toLowerCase (languages snippet)) key).
Proof.
  intros E Hsc snippet.
  assert (El : languages snippet = filter Js.truthy (Js.split_seps sc))
    by now apply normalizeSnippet_scope_tokens.
  split; [exact El|]. split; [|split].
  - rewrite El. apply Forall_forall. intros t Ht.
    apply filter_In in Ht. destruct Ht as [Hin Ht]. split.
    + now apply truthy_nonempty.
    + pose proof (@split_runs_clean Js.is_sep sc false [] (Forall_nil _)) as Hc.
      rewrite Forall_forall in Hc. now apply Hc.
  - rewrite El, concat_filter_truthy. unfold Js.split_seps.
    now rewrite split_runs_concat by discriminate.
  - intros map key. apply addSnippet_bucket.
Qed.

End Buckets.

(** C2 (witness): the scope ["JS, Ts"] on the demo host. *)
Lemma normalizeSnippet_tokens_keep_case_keys_lower_witness :
  let raw := {| raw_prefix := One (PString (js "p")); raw_body := One (js "b");
                raw_description := None; raw_scope := Some (js "JS, Ts") |} in
  let snippet := normalizeSnippet (js "n") raw in
  languages snippet = [js "JS"; js "Ts"]
  /\ JsMap.keys (addSnippet (H := Demo.host) [] snippet) = [js "js"; js "ts"].
Proof.
  intros raw snippet.
  destruct (@normalizeSnippet_tokens_keep_case_keys_lower Demo.host
              (js "n") raw (js "JS, Ts") eq_refl) as (El & _).
  - discriminate.
  - split; [exact El | reflexivity].
Defined.

(** C2 (counterexample) — the tokens are not lower-cased by the
    normalization: the scope ["JS"] is stored as ["JS"]. *)
Lemma normalizeSnippet_does_not_lower_case :
  ~ (forall (name : Js.str) (raw : RawSnippet) (sc : Js.str),
        raw_scope raw = Some sc ->
        Js.trim sc <> [] ->
        languages (normalizeSnippet name raw)
        = map asciiLower (filter Js.truthy (map Js.trim (Js.split_seps sc)))).
Proof.
  intros Hall.
  specialize (Hall (js "Log")
                {| raw_prefix := One (PString (js "logv")); raw_body := One (js "x");
                   raw_description := None; raw_scope := Some (js "JS") |}
                (js "JS") eq_refl).
  assert (Hne : Js.trim (js "JS") <> []) by discriminate.
  specialize (Hall Hne). vm_compute in Hall. discriminate.
Qed.

(** ** Running the loader *)

Section Runs.

Context {H : Host}.

Lemma add_events_nil (st : State) : add_events [] st = st.
Proof. destruct st. unfold add_events. simpl. now rewrite List.app_nil_r. Qed.

Lemma add_events_app (e1 e2 : list Event) (st : State) :
  add_events e2 (add_events e1 st) = add_events (e1 ++ e2) st.
Proof. unfold add_events. simpl. now rewrite <- List.app_assoc. Qed.

Lemma add_event_events (e : Event) (st : State) :
  add_event e st = add_events [e] st.
Proof. reflexivity. Qed.

Lemma log_run (message : Js.str) (debugOnly : bool) (st : State) :
  log message debugOnly st
  = (Ok tt, add_events (logged (world st) message debugOnly) st).
Proof.
  unfold log, logged.
  destruct (debugOnly && negb (nullish_or (cfg_debug (getConfiguration (world st))) false)).
  - now rewrite add_events_nil.
  - reflexivity.
Qed.

(** The loop over the entries files those it reaches and stops at the
    first that throws. *)
Lemma addEntries_reached (entries : list (Js.str * Entry)) :
  forall map : SnippetMap,
    addEntries map entries
    = (addTyped map (fst (reached entries)), snd (reached entries)).
Proof.
  induction entries as [|[name [raw|err]] rest IH]; intros map; simpl;
    [reflexivity | apply IH | reflexivity].
Qed.

Lemma loadFile_run (map : SnippetMap) (file : Js.str) (st : State) :
  loadFile map file st
  = (Ok (loadedFrom (world st) [file] map),
     add_events (fileWarnings (world st) [file]) st).
Proof.
  unfold loadFile, loadedFrom, fileWarnings, fileEntries, fileError, fileOutcome,
    bind, gets, modify, ret.
  cbn [fold_left flat_map world].
  destruct (readFileSync (world st) file) as [text|e]; cbn [fst snd negb].
  - destruct (Js.truthy (Js.trim text)); cbn [fst snd negb].
    + destruct (parseEntries text) as [entries|e]; cbn [fst snd].
      * rewrite addEntries_reached.
        destruct (snd (reached entries)); cbn [app];
          [reflexivity | now rewrite add_events_nil].
      * reflexivity.
    + now rewrite add_events_nil.
  - reflexivity.
Qed.

Lemma loadedFrom_app (w : World) (l1 l2 : list Js.str) (map : SnippetMap) :
  loadedFrom w (l1 ++ l2) map = loadedFrom w l2 (loadedFrom w l1 map).
Proof. unfold loadedFrom. apply fold_left_app. Qed.

Lemma fileWarnings_app (w : World) (l1 l2 : list Js.str) :
  fileWarnings w (l1 ++ l2) = fileWarnings w l1 ++ fileWarnings w l2.
Proof. unfold fileWarnings. apply flat_map_app. Qed.

(** The loop of the loader never throws: it returns the map of the files
    that load and shows one warning per file that does not. *)
Lemma forOf_loadFile_run (files : list Js.str) :
  forall (map : SnippetMap) (st : State),
    forOf loadFile files map st
    = (Ok (loadedFrom (world st) files map),
       add_events (fileWarnings (world st) files) st).
Proof.
  induction files as [|f r IH]; intros map st; cbn [forOf].
  - unfold ret. now rewrite add_events_nil.
  - unfold bind. rewrite loadFile_run. rewrite IH. cbn [world add_events].
    rewrite add_events_app.
    change (f :: r) with ([f] ++ r).
    now rewrite loadedFrom_app, fileWarnings_app.
Qed.

Lemma collectSnippetsFromFolder_run (snippetDir : Js.str) (includeJson : bool)
  (st : State) :
  collectSnippetsFromFolder snippetDir includeJson st
  = match walk (world st) snippetDir with
    | Err e => (Err e, st)
    | Ok all =>
        let files := filter (eligible includeJson) all in
        (Ok (loadedFrom (world st) files []),
         add_events (logged (world st) (foundMessage (length files) snippetDir) true
                     ++ fileWarnings (world st) files) st)
    end.
Proof.
  unfold collectSnippetsFromFolder, bind, gets, lift. simpl.
  destruct (walk (world st) snippetDir) as [all|e]; simpl; [|reflexivity].
  rewrite log_run. rewrite forOf_loadFile_run. simpl world.
  now rewrite add_events_app.
Qed.

Lemma gitPullStep_run (allowGitPull : bool) (repo : RepoConfig)
  (repoPath : Js.str) (st : State) :
  gitPullStep allowGitPull repo repoPath (newStatus repo) st
  = (Ok (pulledStatus repo (pullError allowGitPull repo repoPath (world st))),
     pulledState allowGitPull repo repoPath st).
Proof.
  unfold gitPullStep, pulledState, pullError, pullWorld, pullEvents, pulls.
  destruct (allowGitPull && enableGitPull repo); simpl.
  - unfold tryCatch, bind. rewrite log_run. unfold runGitPull. simpl world.
    fold (pullArgs repoPath (branch repo)).
    destruct (execFile (js "git") (pullArgs repoPath (branch repo)) (world st))
      as [w' [[[message stdout] stderr]|]] eqn:E; simpl.
    + unfold setStatus, modify, ret, store. simpl.
      rewrite add_event_events, add_events_app. reflexivity.
    + unfold ret. rewrite add_event_events, add_events_app. reflexivity.
  - unfold ret. rewrite add_events_nil. destruct st; reflexivity.
Qed.

(** A pull that failed leaves an error that is not the empty string. *)
Lemma pullError_truthy (allowGitPull : bool) (repo : RepoConfig)
  (repoPath : Js.str) (w : World) (e : Js.str) :
  pullError allowGitPull repo repoPath w = Some e -> Js.truthy e = true.
Proof.
  unfold pullError. destruct (pulls allowGitPull repo); [|discriminate].
  destruct (snd (execFile _ _ w)) as [[[m o] x]|]; [|discriminate].
  intros [= <-]. reflexivity.
Qed.

(** One turn of the loop of [syncAllRepos], case by case. *)
Lemma syncRepo_run (allowGitPull : bool) (aggregateMap : SnippetMap)
  (repo : RepoConfig) (st : State) :
  syncRepo allowGitPull aggregateMap repo st
  = let w := world st in
    let repoPath := resolveRepoPath w (localRepoPath repo) in
    if notGitRepo w repoPath then
      (Ok aggregateMap,
       store (rc_id repo)
             (with_lastError (js "Not a git repo: " ++ repoPath) (newStatus repo)) st)
    else
      let err := pullError allowGitPull repo repoPath w in
      let st1 := pulledState allowGitPull repo repoPath st in
      let w1 := world st1 in
      let snippetDir := join repoPath (snippetsPath repo) in
      if negb (existsSync w1 snippetDir) then
        (Ok aggregateMap, store (rc_id repo) (missingStatus repo err snippetDir) st1)
      else
        match walk w1 snippetDir with
        | Err e => (Err e, st1)
        | Ok all =>
            let files := filter (eligible (includeJsonFiles repo)) all in
            let repoMap := loadedFrom w1 files [] in
            (Ok (mergeInto aggregateMap repoMap),
             set_repoWatchers (repoWatchers st1 ++ [snippetDir])
               (store (rc_id repo) (loadedStatus repo err repoMap (dateNow w1))
                  (add_events
                     (logged w1 (foundMessage (length files) snippetDir) true
                      ++ fileWarnings w1 files) st1)))
        end.
Proof.
  unfold syncRepo. unfold bind at 1. unfold gets at 1. cbv zeta.
  destruct (notGitRepo (world st) (resolveRepoPath (world st) (localRepoPath repo))).
  - reflexivity.
  - unfold bind at 1. rewrite gitPullStep_run.
    unfold bind at 1. unfold gets at 1.
    destruct (negb (existsSync (world (pulledState allowGitPull repo
               (resolveRepoPath (world st) (localRepoPath repo)) st))
               (join (resolveRepoPath (world st) (localRepoPath repo))
                  (snippetsPath repo)))).
    + reflexivity.
    + unfold bind at 1. rewrite collectSnippetsFromFolder_run.
      destruct (walk _ _) as [all|e]; [|reflexivity].
      reflexivity.
Qed.

End Runs.

(** ** A source that is not a git working copy *)

Section NotGit.

Context {H : Host}.

Lemma forOf_app {A B} (body : B -> A -> M B) (l1 l2 : list A) :
  forall (acc : B) (st : State),
    forOf body (l1 ++ l2) acc st
    = match forOf body l1 acc st with
      | (Ok acc', st') => forOf body l2 acc' st'
      | (Err e, st') => (Err e, st')
      end.
Proof.
  induction l1 as [|x r IH]; intros acc st; simpl; [reflexivity|].
  unfold bind. destruct (body acc x st) as [[acc'|e] st']; [apply IH | reflexivity].
Qed.

Lemma agree_off_refl (id : Js.str) (st : State) : agree_off id st st.
Proof. unfold agree_off. repeat split; reflexivity. Qed.

Lemma agree_off_store_same (id k : Js.str) (v : RepoStatus) (st1 st2 : State) :
  agree_off id st1 st2 -> agree_off id (store k v st1) (store k v st2).
Proof.
  unfold agree_off, store. simpl. intros (? & ? & ? & ? & ? & ? & ? & Hs).
  repeat split; try assumption.
  intros id' Hne. destruct (str_eq_dec k id') as [->|Hk].
  - now rewrite !get_set_eq.
  - rewrite !get_set_ne by assumption. now apply Hs.
Qed.

Lemma agree_off_store_left (id : Js.str) (v : RepoStatus) (st : State) :
  agree_off id (store id v st) st.
Proof.
  unfold agree_off, store. simpl. repeat split; try reflexivity.
  intros id' Hne. apply get_set_ne. congruence.
Qed.

Lemma agree_off_add_events (id : Js.str) (evs : list Event) (st1 st2 : State) :
  agree_off id st1 st2 -> agree_off id (add_events evs st1) (add_events evs st2).
Proof.
  unfold agree_off, add_events. simpl. intros (? & ? & ? & ? & ? & ? & He & Hs).
  repeat split; try assumption. now rewrite He.
Qed.

Lemma agree_off_set_world (id : Js.str) (w : World) (st1 st2 : State) :
  agree_off id st1 st2 -> agree_off id (set_world w st1) (set_world w st2).
Proof.
  unfold agree_off. simpl. intros (? & ? & ? & ? & ? & ? & He & Hs).
  repeat split; assumption.
Qed.

Lemma agree_off_set_repoWatchers (id : Js.str) (ws : list Js.str) (st1 st2 : State) :
  agree_off id st1 st2 ->
  agree_off id (set_repoWatchers ws st1) (set_repoWatchers ws st2).
Proof.
  unfold agree_off. simpl. intros (? & ? & ? & ? & ? & ? & He & Hs).
  repeat split; assumption.
Qed.

Lemma agree_off_pulledState (id : Js.str) (allowGitPull : bool)
  (repo : RepoConfig) (repoPath : Js.str) (st1 st2 : State) :
  agree_off id st1 st2 ->
  agree_off id (pulledState allowGitPull repo repoPath st1)
               (pulledState allowGitPull repo repoPath st2).
Proof.
  intros Ha. unfold pulledState.
  assert (Ew : world st1 = world st2) by apply Ha. rewrite Ew.
  destruct (pullError allowGitPull repo repoPath (world st2)).
  - now apply agree_off_store_same, agree_off_set_world, agree_off_add_events.
  - now apply agree_off_set_world, agree_off_add_events.
Qed.

(** A turn of the loop neither reads the statuses nor touches the status
    of another repository. *)
Lemma syncRepo_agree_off (id : Js.str) (allowGitPull : bool)
  (aggregateMap : SnippetMap) (repo : RepoConfig) (st1 st2 : State) :
  agree_off id st1 st2 ->
  fst (syncRepo allowGitPull aggregateMap repo st1)
  = fst (syncRepo allowGitPull aggregateMap repo st2)
  /\ agree_off id (snd (syncRepo allowGitPull aggregateMap repo st1))
                  (snd (syncRepo allowGitPull aggregateMap repo st2)).
Proof.
  intros Ha. rewrite !syncRepo_run. cbv zeta.
  assert (Ew : world st1 = world st2) by apply Ha. rewrite Ew.
  destruct (notGitRepo (world st2) _).
  - split; [reflexivity | now apply agree_off_store_same].
  - pose proof (agree_off_pulledState allowGitPull repo
                  (resolveRepoPath (world st2) (localRepoPath repo)) Ha) as Hp.
    assert (Ew1 : world (pulledState allowGitPull repo
                    (resolveRepoPath (world st2) (localRepoPath repo)) st1)
                  = world (pulledState allowGitPull repo
                    (resolveRepoPath (world st2) (localRepoPath repo)) st2))
      by apply Hp.
    assert (Er : repoWatchers (pulledState allowGitPull repo
                    (resolveRepoPath (world st2) (localRepoPath repo)) st1)
                  = repoWatchers (pulledState allowGitPull repo
                    (resolveRepoPath (world st2) (localRepoPath repo)) st2))
      by apply Hp.
    rewrite Ew1, Er.
    destruct (negb (existsSync _ _)).
    + split; [reflexivity | now apply agree_off_store_same].
    + destruct (walk _ _) as [all|e].
      * split; [reflexivity|].
        now apply agree_off_set_repoWatchers, agree_off_store_same,
                  agree_off_add_events.
      * split; [reflexivity | assumption].
Qed.

Lemma forOf_syncRepo_agree_off (id : Js.str) (allowGitPull : bool)
  (repos : list RepoConfig) :
  forall (aggregateMap : SnippetMap) (st1 st2 : State),
    agree_off id st1 st2 ->
    fst (forOf (syncRepo allowGitPull) repos aggregateMap st1)
    = fst (forOf (syncRepo allowGitPull) repos aggregateMap st2)
    /\ agree_off id (snd (forOf (syncRepo allowGitPull) repos aggregateMap st1))
                    (snd (forOf (syncRepo allowGitPull) repos aggregateMap st2)).
Proof.
  induction repos as [|repo r IH]; intros agg st1 st2 Ha; simpl.
  - split; [reflexivity | assumption].
  - unfold bind.
    destruct (syncRepo_agree_off allowGitPull agg repo Ha) as [Ef Es].
    destruct (syncRepo allowGitPull agg repo st1) as [[a1|e1] s1];
      destruct (syncRepo allowGitPull agg repo st2) as [[a2|e2] s2];
      simpl in Ef, Es; try discriminate.
    + injection Ef as ->. now apply IH.
    + split; assumption.
Qed.

End NotGit.

(** ** A source that loads *)

Section Loaded.

Context {H : Host}.

Lemma filter_isWarning_logged (w : World) (message : Js.str) (debugOnly : bool) :
  filter isWarning (logged w message debugOnly) = [].
Proof. unfold logged. destruct (_ && _); reflexivity. Qed.

Lemma filter_isWarning_fileWarnings (w : World) (files : list Js.str) :
  filter isWarning (fileWarnings w files) = fileWarnings w files.
Proof.
  unfold fileWarnings. induction files as [|f r IH]; simpl; [reflexivity|].
  destruct (fileError w f); simpl; now rewrite IH.
Qed.

Lemma filter_isWarning_pullEvents (allowGitPull : bool) (repo : RepoConfig)
  (repoPath : Js.str) (w : World) :
  filter isWarning (pullEvents allowGitPull repo repoPath w) = [].
Proof.
  unfold pullEvents. destruct (pulls allowGitPull repo); [|reflexivity].
  rewrite filter_app, filter_isWarning_logged. reflexivity.
Qed.

Lemma events_pulledState (allowGitPull : bool) (repo : RepoConfig)
  (repoPath : Js.str) (st : State) :
  events (pulledState allowGitPull repo repoPath st)
  = events st ++ pullEvents allowGitPull repo repoPath (world st).
Proof.
  unfold pulledState. destruct (pullError _ _ _ _); reflexivity.
Qed.

Lemma lastError_pulledStatus (repo : RepoConfig) (err : option Js.str) :
  lastError (pulledStatus repo err) = err.
Proof. destruct err; reflexivity. Qed.

Lemma lastError_loadedStatus (repo : RepoConfig) (err : option Js.str)
  (repoMap : SnippetMap) (now : N) :
  lastError (loadedStatus repo err repoMap now) = err.
Proof.
  unfold loadedStatus. cbv zeta.
  destruct (negb _); simpl; apply lastError_pulledStatus.
Qed.

Lemma snippetCount_loadedStatus (repo : RepoConfig) (err : option Js.str)
  (repoMap : SnippetMap) (now : N) :
  snippetCount (loadedStatus repo err repoMap now) = countTotalSnippets repoMap.
Proof. unfold loadedStatus. cbv zeta. destruct (negb _); reflexivity. Qed.

(** A file adds to the map the entries reached in it. *)
Lemma loadedFrom_file (w : World) (pre post : list Js.str) (file : Js.str)
  (map : SnippetMap) :
  loadedFrom w (pre ++ file :: post) map
  = loadedFrom w post (addTyped (loadedFrom w pre map) (fileEntries w file)).
Proof.
  rewrite !loadedFrom_app.
  change (file :: post) with ([file] ++ post). now rewrite loadedFrom_app.
Qed.

(** A file in which no entry is reached adds nothing to the map. *)
Lemma loadedFrom_skip (w : World) (pre post : list Js.str) (bad : Js.str)
  (map : SnippetMap) :
  fileEntries w bad = [] ->
  loadedFrom w (pre ++ bad :: post) map = loadedFrom w (pre ++ post) map.
Proof.
  intros Hbad. rewrite loadedFrom_file, Hbad, loadedFrom_app. reflexivity.
Qed.

Lemma fileWarnings_bad (w : World) (pre post : list Js.str) (bad e : Js.str) :
  fileError w bad = Some e ->
  fileWarnings w (pre ++ bad :: post)
  = fileWarnings w pre ++ [loadWarning bad e] ++ fileWarnings w post.
Proof.
  intros Hbad. rewrite fileWarnings_app. f_equal.
  change (bad :: post) with ([bad] ++ post). rewrite fileWarnings_app. f_equal.
  unfold fileWarnings. cbn [flat_map]. rewrite Hbad. reflexivity.
Qed.

(** A file that cannot be read or parsed has no entry reached. *)
Lemma unreadable_outcome (w : World) (file e : Js.str) :
  unreadable w file e -> fileEntries w file = [] /\ fileError w file = Some e.
Proof.
  unfold unreadable, fileEntries, fileError, fileOutcome.
  intros [E | (text & E & Hblank & Ep)]; rewrite E.
  - now split.
  - destruct (Js.trim text); [now elim Hblank|]. cbn [Js.truthy negb].
    rewrite Ep. now split.
Qed.

(** The turn of a source whose folder is walked: what it returns and
    stores. *)
Lemma syncRepo_loaded (allowGitPull : bool) (aggregateMap : SnippetMap)
  (repo : RepoConfig) (st : State) (all : list Js.str) :
  let repoPath := resolveRepoPath (world st) (localRepoPath repo) in
  let err := pullError allowGitPull repo repoPath (world st) in
  let st1 := pulledState allowGitPull repo repoPath st in
  let snippetDir := join repoPath (snippetsPath repo) in
  let files := filter (eligible (includeJsonFiles repo)) all in
  let repoMap := loadedFrom (world st1) files [] in
  notGitRepo (world st) repoPath = false ->
  existsSync (world st1) snippetDir = true ->
  walk (world st1) snippetDir = Ok all ->
  syncRepo allowGitPull aggregateMap repo st
  = (Ok (mergeInto aggregateMap repoMap),
     set_repoWatchers (repoWatchers st1 ++ [snippetDir])
       (store (rc_id repo) (loadedStatus repo err repoMap (dateNow (world st1)))
          (add_events
             (logged (world st1) (foundMessage (length files) snippetDir) true
              ++ fileWarnings (world st1) files) st1))).
Proof.
  intros repoPath err st1 snippetDir files repoMap Hgit Hdir Hwalk.
  rewrite syncRepo_run. cbv zeta. fold repoPath. rewrite Hgit.
  fold st1 snippetDir. rewrite Hdir. cbn [negb]. rewrite Hwalk. reflexivity.
Qed.

(** In a source whose folder holds the eligible files
    [pre ++ bad :: post], where loading [bad] throws: the turn of the
    source shows the warning naming [bad] between the warnings of the
    files before and after it, loads the files before and after it as it
    does without [bad], and stores a status whose [lastError] is what the
    pull step left, unset when no pull ran or failed.  Of [bad] itself it
    keeps the entries normalized before the throw: none when the file
    cannot be read or parsed, in which case the result is that of the
    other files alone. *)
Theorem broken_file_stops_alone
  (allowGitPull : bool) (aggregateMap : SnippetMap) (repo : RepoConfig)
  (st : State) (all pre post : list Js.str) (bad e : Js.str) :
  let repoPath := resolveRepoPath (world st) (localRepoPath repo) in
  let err := pullError allowGitPull repo repoPath (world st) in
  let st1 := pulledState allowGitPull repo repoPath st in
  let snippetDir := join repoPath (snippetsPath repo) in
  notGitRepo (world st) repoPath = false ->
  existsSync (world st1) snippetDir = true ->
  walk (world st1) snippetDir = Ok all ->
  filter (eligible (includeJsonFiles repo)) all = pre ++ bad :: post ->
  fileError (world st1) bad = Some e ->
  let turn := syncRepo allowGitPull aggregateMap repo st in
  let before := loadedFrom (world st1) pre [] in
  let kept := addTyped before (fileEntries (world st1) bad) in
  let repoMap := loadedFrom (world st1) post kept in
  fst turn = Ok (mergeInto aggregateMap repoMap)
  /\ (unreadable (world st1) bad e ->
      repoMap = loadedFrom (world st1) (pre ++ post) [])
  /\ filter isWarning (events (snd turn))
     = filter isWarning (events st)
       ++ fileWarnings (world st1) pre
       ++ [loadWarning bad e]
       ++ fileWarnings (world st1) post
  /\ exists status,
       JsMap.get (rc_id repo) (repoStatuses (snd turn)) = Some status
       /\ lastError status = err
       /\ (pulls allowGitPull repo = false -> lastError status = None)
       /\ snippetCount status = countTotalSnippets repoMap.
Proof.
  intros repoPath err st1 snippetDir Hgit Hdir Hwalk Hfiles Hbad
    turn before kept repoMap.
  unfold turn.
  rewrite (syncRepo_loaded allowGitPull aggregateMap repo st Hgit Hdir Hwalk).
  fold repoPath err st1 snippetDir. rewrite Hfiles.
  rewrite (loadedFrom_file (world st1) pre post bad []).
  fold before kept repoMap.
  cbn [fst snd]. split; [reflexivity|]. split; [|split].
  - intros Hun. apply unreadable_outcome in Hun. destruct Hun as [Hnone _].
    unfold repoMap, kept, before. rewrite Hnone. cbn [addTyped fold_left].
    now rewrite loadedFrom_app.
  - cbn [events set_repoWatchers store set_repoStatuses add_events].
    rewrite !filter_app, filter_isWarning_logged, filter_isWarning_fileWarnings.
    rewrite (fileWarnings_bad _ pre post bad Hbad).
    unfold st1 at 1. rewrite events_pulledState.
    rewrite filter_app, filter_isWarning_pullEvents.
    rewrite List.app_nil_r. reflexivity.
  - eexists. split; [|split; [|split]].
    + cbn [repoStatuses set_repoWatchers store set_repoStatuses].
      apply get_set_eq.
    + apply lastError_loadedStatus.
    + intros Hp. rewrite lastError_loadedStatus. unfold err, pullError.
      now rewrite Hp.
    + apply snippetCount_loadedStatus.
Qed.

Lemma addTyped_count (entries : list (Js.str * RawSnippet)) :
  forall m : SnippetMap,
    countTotalSnippets (addTyped m entries)
    = countTotalSnippets m
      + list_sum (map (fun s => length (languages s))
                      (map (fun e => normalizeSnippet (fst e) (snd e)) entries)).
Proof.
  unfold addTyped.
  induction entries as [|e r IH]; intros m;
    cbn [fold_left List.map list_sum fold_right]; [lia|].
  rewrite IH, addSnippet_count. unfold list_sum. lia.
Qed.

Lemma loadedFrom_count (w : World) (files : list Js.str) :
  forall m : SnippetMap,
    countTotalSnippets (loadedFrom w files m)
    = countTotalSnippets m
      + list_sum (map (fun s => length (languages s)) (snippetsOf w files)).
Proof.
  unfold loadedFrom, snippetsOf.
  induction files as [|f r IH]; intros m;
    cbn [fold_left flat_map List.map list_sum fold_right]; [lia|].
  rewrite IH, addTyped_count, map_app, list_sum_app. unfold list_sum. lia.
Qed.

(** C5 — For a source that loads (its root is a git working copy, its
    snippets folder exists and is walked), the [snippetCount] of the status
    the turn stores is the number of snippets in the source's own map: the
    sum of the lengths of its buckets, which is the sum over the snippets
    read from its files of the number of languages each one targets. *)
Theorem snippetCount_is_sum_of_own_buckets
  (allowGitPull : bool) (aggregateMap : SnippetMap) (repo : RepoConfig)
  (st : State) (all : list Js.str) :
  let repoPath := resolveRepoPath (world st) (localRepoPath repo) in
  let st1 := pulledState allowGitPull repo repoPath st in
  let snippetDir := join repoPath (snippetsPath repo) in
  let files := filter (eligible (includeJsonFiles repo)) all in
  let repoMap := loadedFrom (world st1) files [] in
  notGitRepo (world st) repoPath = false ->
  existsSync (world st1) snippetDir = true ->
  walk (world st1) snippetDir = Ok all ->
  let turn := syncRepo allowGitPull aggregateMap repo st in
  fst turn = Ok (mergeInto aggregateMap repoMap)
  /\ exists status,
       JsMap.get (rc_id repo) (repoStatuses (snd turn)) = Some status
       /\ snippetCount status = list_sum (map (fun e => length (snd e)) repoMap)
       /\ snippetCount status
          = list_sum (map (fun s => length (languages s))
                          (snippetsOf (world st1) files)).
Proof.
  intros repoPath st1 snippetDir files repoMap Hgit Hdir Hwalk turn.
  unfold turn.
  rewrite (syncRepo_loaded allowGitPull aggregateMap repo st Hgit Hdir Hwalk).
  fold repoPath st1 snippetDir files repoMap.
  cbn [fst snd]. split; [reflexivity|].
  eexists. split; [|split].
  - cbn [repoStatuses set_repoWatchers store set_repoStatuses]. apply get_set_eq.
  - rewrite snippetCount_loadedStatus. apply countTotalSnippets_sum.
  - rewrite snippetCount_loadedStatus. unfold repoMap.
    rewrite loadedFrom_count. reflexivity.
Qed.

End Loaded.

(** ** Resolving the configured sources *)

Lemma lit_inj (a b : string) : Js.lit a = Js.lit b -> a = b.
Proof.
  revert b. induction a as [|x a IH]; destruct b as [|y b]; simpl;
    try discriminate; [reflexivity|].
  intros [= Hxy Hab]. f_equal; [|now apply IH].
  rewrite <- (ascii_N_embedding x), <- (ascii_N_embedding y). now rewrite Hxy.
Qed.

(** Two numbers print alike only when they are equal. *)
Lemma ofN_inj (n m : N) : Js.ofN n = Js.ofN m -> n = m.
Proof.
  unfold Js.ofN. intros E. apply lit_inj in E.
  apply DecimalN.Unsigned.to_uint_inj.
  assert (E' : Some (N.to_uint n) = Some (N.to_uint m)).
  { rewrite <- !DecimalString.NilEmpty.usu. now rewrite E. }
  now injection E'.
Qed.

(** The cases of [repoEntry]. *)
Ltac open_repoEntry :=
  unfold repoEntry;
  repeat (match goal with
          | |- context [match Value.getProp ?r ?k with _ => _ end] =>
              destruct (Value.getProp r k) eqn:?
          | |- context [match Value.toString ?v with _ => _ end] =>
              destruct (Value.toString v) eqn:?
          | |- context [if negb (Js.truthy ?t) then _ else _] =>
              destruct (Js.truthy t) eqn:?; cbn [negb]
          end; cbv zeta; try discriminate).

Lemma toString_plain (v : value) : plain v -> exists s, Value.toString v = Ok s.
Proof.
  destruct v as [| | [|] | shown | s | items | fields]; cbn;
    try contradiction; intros _; eexists; reflexivity.
Qed.

Lemma plain_or (a b : value) : plain a -> plain b -> plain (Value.or a b).
Proof. unfold Value.or. now destruct (Value.truthy a). Qed.

(** Reading the settings of a plain entry does not throw. *)
Lemma repoEntry_plain (r : value) (index : N) :
  plainEntry r -> exists o, repoEntry r index = Ok o.
Proof.
  destruct r as [| | b | shown | s | items | fields]; try contradiction.
  intros (Hp & Hn & Hb & Hs). unfold repoEntry. cbn [Value.getProp].
  destruct (toString_plain _ (plain_or _ (VString []) Hp I)) as (path & ->).
  cbv zeta. destruct (negb _); [eexists; reflexivity|].
  destruct (toString_plain _ (plain_or _ (VString []) Hn I)) as (name0 & ->).
  destruct (toString_plain _ (plain_or _ (VString (js "main")) Hb I)) as (br & ->).
  destruct (toString_plain _ (plain_or _ (VString (js "snippets")) Hs I))
    as (sp & ->).
  eexists. reflexivity.
Qed.

Lemma repoEntry_id (r : value) (index : N) (c : RepoConfig) :
  repoEntry r index = Ok (Some c) -> rc_id c = js "repo-" ++ Js.ofN index.
Proof. open_repoEntry. intros [= <-]. reflexivity. Qed.

Lemma forEachRepo_kept (repos : list value) :
  forall (index : N) (out l : list RepoConfig),
    forEachRepo repos index out = Ok l -> l = out ++ keptRepos repos index.
Proof.
  induction repos as [|r rest IH]; intros index out l; simpl.
  - intros [= <-]. now rewrite List.app_nil_r.
  - destruct (repoEntry r index) as [[c|]|e]; [| |discriminate]; intros E.
    + apply IH in E. now rewrite <- List.app_assoc in E.
    + now apply IH in E.
Qed.

Lemma forEachRepo_plain (repos : list value) :
  Forall plainEntry repos ->
  forall (index : N) (out : list RepoConfig),
    forEachRepo repos index out = Ok (out ++ keptRepos repos index).
Proof.
  induction 1 as [|r rest Hr _ IH]; intros index out; simpl.
  - now rewrite List.app_nil_r.
  - destruct (repoEntry_plain r index Hr) as [o Eo]. rewrite Eo.
    destruct o as [c|]; rewrite IH; [now rewrite <- List.app_assoc | reflexivity].
Qed.

Lemma keptRepos_ids (repos : list value) :
  forall (index : N) (c : RepoConfig),
    In c (keptRepos repos index) ->
    exists j, (index <= j)%N /\ rc_id c = js "repo-" ++ Js.ofN j.
Proof.
  induction repos as [|r rest IH]; intros index c; simpl; [intros []|].
  assert (Hrest : In c (keptRepos rest (index + 1)) ->
                  exists j, (index <= j)%N /\ rc_id c = js "repo-" ++ Js.ofN j).
  { intros Hin. destruct (IH _ _ Hin) as (j & Hj & Ej). exists j. split; [lia|assumption]. }
  destruct (repoEntry r index) as [[c0|]|e] eqn:E; [|assumption|assumption].
  intros [<- | Hin]; [|auto].
  exists index. split; [lia | now apply repoEntry_id with (r := r)].
Qed.

(** The descriptors of a list of entries have distinct ids. *)
Lemma keptRepos_NoDup (repos : list value) :
  forall index : N, NoDup (map rc_id (keptRepos repos index)).
Proof.
  induction repos as [|r rest IH]; intros index; simpl; [constructor|].
  destruct (repoEntry r index) as [[c|]|e] eqn:E; [|apply IH|apply IH].
  simpl. constructor; [|apply IH].
  rewrite in_map_iff. intros (c' & Eid & Hin).
  destruct (keptRepos_ids _ _ _ Hin) as (j & Hj & Ej).
  rewrite (repoEntry_id _ _ E), Ej in Eid.
  apply app_inv_head in Eid. apply ofN_inj in Eid. lia.
Qed.

Lemma getRepoConfigs_NoDup (cfg : Configuration) (repos : list RepoConfig) :
  getRepoConfigs cfg = Ok repos -> NoDup (map rc_id repos).
Proof.
  unfold getRepoConfigs.
  destruct (0 <? length (nullish_or (cfg_repositories cfg) []))%nat.
  - intros E. apply forEachRepo_kept in E. subst repos. apply keptRepos_NoDup.
  - destruct (negb _).
    + intros [= <-]. constructor.
    + intros [= <-]. simpl. constructor; [intros [] | constructor].
Qed.

Lemma toString_or_empty (s : Js.str) :
  Value.toString (Value.or (VString s) (VString [])) = Ok s.
Proof. destruct s; reflexivity. Qed.

(** Where the entries are plain objects, [getRepoConfigs] does what the
    specification says of an explicit list: it returns the descriptors of
    the entries that have a path, in order; an entry whose
    [localRepoPath] is absent or blank is dropped; a kept entry has the
    id of its position, the trimmed path, and, where the setting is
    absent, the name ["Repo <index+1> (<path>)"], the branch ["main"], the
    snippets path ["snippets"]; each flag is the boolean given and [true]
    when it is absent or not a boolean.  With the list absent or empty, it
    returns the one legacy descriptor when the flat path is present and
    not blank, and no descriptor otherwise. *)
Lemma getRepoConfigs_resolves :
  (forall (cfg : Configuration) (repos : list value),
      cfg_repositories cfg = Some repos -> repos <> [] -> Forall plainEntry repos ->
      getRepoConfigs cfg = Ok (keptRepos repos 0))
  /\ (forall (fields : list (Js.str * value)) (index : N),
        Value.field (js "localRepoPath") fields = VUndefined
        \/ (exists s, Value.field (js "localRepoPath") fields = VString s
                      /\ Js.trim s = []) ->
        repoEntry (VObject fields) index = Ok None)
  /\ (forall (fields : list (Js.str * value)) (index : N) (s : Js.str),
        Value.field (js "localRepoPath") fields = VString s ->
        Js.trim s <> [] ->
        plainEntry (VObject fields) ->
        exists c,
          repoEntry (VObject fields) index = Ok (Some c)
          /\ rc_id c = js "repo-" ++ Js.ofN index
          /\ localRepoPath c = Js.trim s
          /\ (Value.field (js "name") fields = VUndefined ->
              rc_name c = js "Repo " ++ Js.ofN (index + 1) ++ js " ("
                          ++ Js.trim s ++ js ")")
          /\ (Value.field (js "branch") fields = VUndefined -> branch c = js "main")
          /\ (Value.field (js "snippetsPath") fields = VUndefined ->
              snippetsPath c = js "snippets")
          /\ (forall b, Value.field (js "includeJsonFiles") fields = VBool b ->
                        includeJsonFiles c = b)
          /\ ((forall b, Value.field (js "includeJsonFiles") fields <> VBool b) ->
              includeJsonFiles c = true)
          /\ (forall b, Value.field (js "enableGitPull") fields = VBool b ->
                        enableGitPull c = b)
          /\ ((forall b, Value.field (js "enableGitPull") fields <> VBool b) ->
              enableGitPull c = true))
  /\ (forall cfg : Configuration,
        cfg_repositories cfg = None \/ cfg_repositories cfg = Some [] ->
        (forall p, cfg_localRepoPath cfg = Some p -> Js.trim p <> [] ->
           getRepoConfigs cfg
           = Ok [ {| rc_id := js "fallback";
                     rc_name := js "Default Repo";
                     localRepoPath := Js.trim p;
                     branch := str_or (cfg_branch cfg) (js "main");
                     snippetsPath := str_or (cfg_snippetsPath cfg) (js "snippets");
                     includeJsonFiles := nullish_or (cfg_includeJsonFiles cfg) true;
                     enableGitPull := nullish_or (cfg_enableGitPull cfg) true |} ])
        /\ (cfg_localRepoPath cfg = None
            \/ (exists p, cfg_localRepoPath cfg = Some p /\ Js.trim p = []) ->
            getRepoConfigs cfg = Ok [])).
Proof.
  split; [|split; [|split]].
  - intros cfg repos E Hne Hobj. unfold getRepoConfigs. rewrite E.
    cbn [nullish_or]. destruct repos as [|r rest]; [now elim Hne|].
    cbn [length Nat.ltb Nat.leb]. apply (forEachRepo_plain Hobj 0 []).
  - intros fields index Hp. unfold repoEntry. cbn [Value.getProp].
    destruct Hp as [E | (s & E & Hs)]; rewrite E.
    + reflexivity.
    + rewrite toString_or_empty. cbv zeta. rewrite Hs. reflexivity.
  - intros fields index s E Hs (_ & Hn & Hb & Hp). unfold repoEntry.
    cbn [Value.getProp].
    rewrite E, toString_or_empty. cbv zeta.
    assert (Ht : negb (Js.truthy (Js.trim s)) = false).
    { destruct (Js.trim s); [now elim Hs | reflexivity]. }
    rewrite Ht.
    destruct (toString_plain _ (plain_or _ (VString []) Hn I)) as (name0 & En).
    destruct (toString_plain _ (plain_or _ (VString (js "main")) Hb I))
      as (br & Eb).
    destruct (toString_plain _ (plain_or _ (VString (js "snippets")) Hp I))
      as (sp & Esp).
    rewrite En, Eb, Esp.
    eexists. split; [reflexivity|]. cbn [rc_id localRepoPath
      rc_name branch snippetsPath includeJsonFiles enableGitPull].
    split; [reflexivity|]. split; [reflexivity|].
    split; [intros Eu; rewrite Eu in En; injection En as <-; reflexivity|].
    split; [intros Eu; rewrite Eu in Eb; now injection Eb as <-|].
    split; [intros Eu; rewrite Eu in Esp; now injection Esp as <-|].
    split; [intros b ->; reflexivity|].
    split.
    { intros Hx. destruct (Value.field (js "includeJsonFiles") fields);
        try reflexivity. now elim (Hx b). }
    split; [intros b ->; reflexivity|].
    intros Hx. destruct (Value.field (js "enableGitPull") fields);
      try reflexivity. now elim (Hx b).
  - intros cfg Hrepos.
    assert (E0 : (0 <? length (nullish_or (cfg_repositories cfg) []))%nat = false).
    { destruct Hrepos as [-> | ->]; reflexivity. }
    split.
    + intros p Ep Hp. unfold getRepoConfigs. rewrite E0, Ep.
      assert (Es : str_or (Some p) [] = p).
      { unfold str_or. destruct p; reflexivity. }
      rewrite Es.
      destruct (Js.trim p) eqn:Et; [now elim Hp|]. reflexivity.
    + intros Hp. unfold getRepoConfigs. rewrite E0.
      destruct Hp as [-> | (p & -> & Hp)]; [reflexivity|].
      assert (Es : str_or (Some p) [] = p).
      { unfold str_or. destruct p; reflexivity. }
      rewrite Es, Hp. reflexivity.
Qed.

Lemma repoEntry_nullish (r : value) (index : N) :
  nullish r -> exists e, repoEntry r index = Err e.
Proof.
  unfold repoEntry, nullish.
  intros [-> | ->]; cbn [Value.getProp]; eexists; reflexivity.
Qed.

Lemma forEachRepo_nullish (repos : list value) :
  Exists nullish repos ->
  forall index out, exists e, forEachRepo repos index out = Err e.
Proof.
  induction repos as [|r rest IH]; intros Hx index out;
    [inversion Hx|]. cbn [forEachRepo].
  destruct (repoEntry r index) as [o|e] eqn:E; [|now exists e].
  assert (Hrest : Exists nullish rest).
  { inversion Hx as [? ? Hn | ? ? Hn]; subst; [|exact Hn].
    destruct (repoEntry_nullish index Hn) as (e & Ee). congruence. }
  destruct o as [c|]; now apply IH.
Qed.

(** C7 — A [null] among the entries is not dropped: reading its path
    throws, [getRepoConfigs] throws with it and returns no source at all,
    whatever the entries before and after it hold.  After plain entries
    the error is the one of the property read. *)
Theorem null_entry_loses_every_source (cfg : Configuration)
  (before after : list value) :
  cfg_repositories cfg = Some (before ++ VNull :: after) ->
  (exists e, getRepoConfigs cfg = Err e)
  /\ (Forall plainEntry before ->
      getRepoConfigs cfg
      = Err (js "Cannot read properties of null (reading 'localRepoPath')")).
Proof.
  intros E. unfold getRepoConfigs. rewrite E. cbn [nullish_or].
  assert (Hlen : (0 <? length (before ++ VNull :: after))%nat = true).
  { rewrite length_app. cbn [length]. apply Nat.ltb_lt. lia. }
  rewrite Hlen. split.
  - apply forEachRepo_nullish. apply Exists_exists. exists VNull.
    split; [apply in_or_app; right; now left | now left].
  - intros Hb. clear E Hlen.
    generalize 0%N as index, (@nil RepoConfig) as out.
    induction Hb as [|r rest Hr _ IH]; intros index out.
    + reflexivity.
    + cbn [app forEachRepo].
      destruct (repoEntry_plain r index Hr) as [o ->].
      destruct o; apply IH.
Qed.

(** ** What the loop keeps true of its tables *)

Lemma set_app_absent {V} (k : Js.str) (v : V) (m l : JsMap.t V) :
  JsMap.get k m = None -> JsMap.set k v (m ++ l) = m ++ JsMap.set k v l.
Proof.
  induction m as [|[k' v'] r IH]; simpl; [reflexivity|].
  destruct (Js.eqb k' k); [discriminate|]. intros E. now rewrite IH.
Qed.

Lemma push_absent {A} (k : Js.str) (xs : list A) (m : JsMap.t (list A)) :
  JsMap.get k m = None -> JsMap.push k xs m = m ++ [(k, xs)].
Proof.
  intros E. unfold JsMap.push, JsMap.has. rewrite E, get_set_eq.
  rewrite (values_set_absent k [] m E), (set_app_absent k _ m _ E).
  simpl. now rewrite Js_eqb_refl.
Qed.

Lemma push_present {A} (k : Js.str) (xs arr : list A) (m : JsMap.t (list A)) :
  JsMap.get k m = Some arr ->
  exists m1 m2 k0,
    m = m1 ++ (k0, arr) :: m2
    /\ JsMap.push k xs m = m1 ++ (k0, arr ++ xs) :: m2.
Proof.
  intros E. unfold JsMap.push, JsMap.has. rewrite !E.
  apply set_present, E.
Qed.

Lemma wf_table_nil {A} : wf_table (@nil (Js.str * list A)).
Proof. split; constructor. Qed.

Lemma wf_table_push {A} (k : Js.str) (xs : list A) (m : JsMap.t (list A)) :
  xs <> [] -> wf_table m -> wf_table (JsMap.push k xs m).
Proof.
  intros Hxs [Hnd Hne]. split.
  - rewrite keys_push. unfold JsMap.has.
    destruct (JsMap.get k m) eqn:E; [assumption|].
    apply get_None_keys in E.
    apply NoDup_app; [assumption | constructor; [intros [] | constructor] |].
    intros x Hx [<- | []]. contradiction.
  - destruct (JsMap.get k m) as [arr|] eqn:E.
    + destruct (push_present k xs m E) as (m1 & m2 & k0 & E1 & E2).
      rewrite E2. rewrite E1 in Hne.
      apply Forall_app in Hne. destruct Hne as [H1 H2].
      inversion H2 as [|? ? _ H3]; subst.
      apply Forall_app. split; [assumption|]. constructor; [|assumption].
      simpl. destruct arr; [assumption | discriminate].
    + rewrite (push_absent k xs m E). apply Forall_app. split; [assumption|].
      constructor; [assumption | constructor].
Qed.

Section Tables.

Context {H : Host}.

Lemma wf_table_addSnippet (snippet : TeamSnippet) (m : SnippetMap) :
  wf_table m -> wf_table (addSnippet m snippet).
Proof.
  unfold addSnippet. generalize (languages snippet) as langs.
  intros langs. revert m.
  induction langs as [|lang r IH]; intros m Hm; simpl; [assumption|].
  apply IH, wf_table_push; [discriminate | assumption].
Qed.

Lemma wf_table_addTyped (entries : list (Js.str * RawSnippet)) :
  forall m : SnippetMap, wf_table m -> wf_table (addTyped m entries).
Proof.
  unfold addTyped.
  induction entries as [|e r IH]; intros m Hm; simpl; [assumption|].
  now apply IH, wf_table_addSnippet.
Qed.

Lemma wf_table_loadedFrom (w : World) (files : list Js.str) :
  forall m : SnippetMap, wf_table m -> wf_table (loadedFrom w files m).
Proof.
  unfold loadedFrom.
  induction files as [|f r IH]; intros m Hm; simpl; [assumption|].
  apply IH. now apply wf_table_addTyped.
Qed.

Lemma wf_table_mergeInto (repoMap : SnippetMap) :
  Forall (fun e => snd e <> []) repoMap ->
  forall aggregateMap : SnippetMap,
    wf_table aggregateMap -> wf_table (mergeInto aggregateMap repoMap).
Proof.
  unfold mergeInto.
  induction 1 as [|e r He _ IH]; intros agg Hagg; simpl; [assumption|].
  apply IH. now apply wf_table_push.
Qed.

Lemma mergeInto_count (repoMap : SnippetMap) :
  forall aggregateMap : SnippetMap,
    countTotalSnippets (mergeInto aggregateMap repoMap)
    = countTotalSnippets aggregateMap + countTotalSnippets repoMap.
Proof.
  unfold mergeInto.
  induction repoMap as [|e r IH]; intros agg; cbn [fold_left].
  - rewrite (countTotalSnippets_sum []). simpl. lia.
  - rewrite IH, countTotalSnippets_push.
    change (e :: r) with ([e] ++ r). rewrite (countTotalSnippets_app [e] r).
    rewrite (countTotalSnippets_sum [e]). simpl. lia.
Qed.

(** Every table a turn returns is one the loop can go on with. *)
Lemma syncRepo_wf_table (allowGitPull : bool) (aggregateMap agg' : SnippetMap)
  (repo : RepoConfig) (st st' : State) :
  syncRepo allowGitPull aggregateMap repo st = (Ok agg', st') ->
  wf_table aggregateMap -> wf_table agg'.
Proof.
  rewrite syncRepo_run. cbv zeta.
  destruct (notGitRepo _ _); [now intros [= <- _]|].
  destruct (negb _); [now intros [= <- _]|].
  destruct (walk _ _) as [all|e]; [|discriminate].
  intros [= <- _] Hagg. apply wf_table_mergeInto; [|assumption].
  apply (wf_table_loadedFrom _ _ wf_table_nil).
Qed.

Lemma forOf_syncRepo_wf_table (allowGitPull : bool) (repos : list RepoConfig) :
  forall (aggregateMap agg' : SnippetMap) (st st' : State),
    forOf (syncRepo allowGitPull) repos aggregateMap st = (Ok agg', st') ->
    wf_table aggregateMap -> wf_table agg'.
Proof.
  induction repos as [|repo r IH]; intros agg agg' st st'; cbn [forOf].
  - now intros [= <- _].
  - unfold bind.
    destruct (syncRepo allowGitPull agg repo st) as [[a1|e1] s1] eqn:E;
      [|discriminate].
    intros Hrest Hagg. eapply IH; [exact Hrest|].
    eapply syncRepo_wf_table; eassumption.
Qed.

(** *** Counts *)

Lemma statusTotal_store (id : Js.str) (s : RepoStatus) (ss : JsMap.t RepoStatus) :
  (JsMap.get id ss = None
   \/ exists s0, JsMap.get id ss = Some s0 /\ snippetCount s0 = 0) ->
  statusTotal (JsMap.set id s ss) = statusTotal ss + snippetCount s.
Proof.
  unfold statusTotal, JsMap.values. intros [E | (s0 & E & E0)].
  - rewrite (values_set_absent id s ss E), !map_app, list_sum_app. simpl. lia.
  - destruct (set_present id s ss E) as (m1 & m2 & k0 & E1 & E2).
    rewrite E2, E1, !map_app, !list_sum_app. simpl. lia.
Qed.

Lemma repoStatuses_pulledState (allowGitPull : bool) (repo : RepoConfig)
  (repoPath : Js.str) (st : State) :
  repoStatuses (pulledState allowGitPull repo repoPath st)
  = match pullError allowGitPull repo repoPath (world st) with
    | Some e => JsMap.set (rc_id repo) (with_lastError e (newStatus repo))
                          (repoStatuses st)
    | None => repoStatuses st
    end.
Proof. unfold pulledState. destruct (pullError _ _ _ _); reflexivity. Qed.

(** A turn changes the status of its own repository only. *)
Lemma syncRepo_other_statuses (allowGitPull : bool) (aggregateMap : SnippetMap)
  (repo : RepoConfig) (st : State) (id : Js.str) :
  id <> rc_id repo ->
  JsMap.get id (repoStatuses (snd (syncRepo allowGitPull aggregateMap repo st)))
  = JsMap.get id (repoStatuses st).
Proof.
  intros Hne.
  assert (Hne' : rc_id repo <> id) by congruence.
  assert (Hp : forall p,
             JsMap.get id (repoStatuses (pulledState allowGitPull repo p st))
             = JsMap.get id (repoStatuses st)).
  { intros p. rewrite repoStatuses_pulledState.
    destruct (pullError _ _ _ _); [now apply get_set_ne | reflexivity]. }
  rewrite syncRepo_run. cbv zeta.
  destruct (notGitRepo _ _); cbn [snd].
  - unfold store. cbn [repoStatuses set_repoStatuses]. now apply get_set_ne.
  - destruct (negb _); cbn [snd].
    + unfold store. cbn [repoStatuses set_repoStatuses].
      rewrite get_set_ne by assumption. apply Hp.
    + destruct (walk _ _) as [all|e]; cbn [snd].
      * unfold store.
        cbn [repoStatuses set_repoStatuses set_repoWatchers add_events].
        rewrite get_set_ne by assumption. apply Hp.
      * apply Hp.
Qed.

(** What a turn adds to the aggregate it adds to the counts of the
    statuses. *)
Lemma syncRepo_totals (allowGitPull : bool) (aggregateMap agg' : SnippetMap)
  (repo : RepoConfig) (st st' : State) :
  JsMap.get (rc_id repo) (repoStatuses st) = None ->
  syncRepo allowGitPull aggregateMap repo st = (Ok agg', st') ->
  countTotalSnippets agg' + statusTotal (repoStatuses st)
  = countTotalSnippets aggregateMap + statusTotal (repoStatuses st').
Proof.
  intros Hfresh.
  assert (Hp : forall p,
             statusTotal (repoStatuses (pulledState allowGitPull repo p st))
             = statusTotal (repoStatuses st)
             /\ (JsMap.get (rc_id repo)
                   (repoStatuses (pulledState allowGitPull repo p st)) = None
                 \/ exists s0,
                      JsMap.get (rc_id repo)
                        (repoStatuses (pulledState allowGitPull repo p st)) = Some s0
                      /\ snippetCount s0 = 0)).
  { intros p. rewrite repoStatuses_pulledState.
    destruct (pullError _ _ _ _) as [e|].
    - split.
      + rewrite statusTotal_store by now left. simpl. lia.
      + right. eexists. split; [apply get_set_eq | reflexivity].
    - split; [reflexivity | now left]. }
  rewrite syncRepo_run. cbv zeta.
  destruct (notGitRepo _ _).
  - intros [= <- <-]. unfold store. cbn [repoStatuses set_repoStatuses].
    rewrite statusTotal_store by now left. simpl. lia.
  - destruct (Hp (resolveRepoPath (world st) (localRepoPath repo))) as [Ht Hz].
    destruct (negb _).
    + intros [= <- <-]. unfold store. cbn [repoStatuses set_repoStatuses].
      rewrite statusTotal_store by assumption. rewrite Ht.
      unfold missingStatus. cbv zeta.
      destruct (negb _); destruct (pullError _ _ _ _); simpl; lia.
    + destruct (walk _ _) as [all|e]; [|discriminate].
      intros [= <- <-]. unfold store.
      cbn [repoStatuses set_repoStatuses set_repoWatchers add_events].
      rewrite statusTotal_store by assumption.
      rewrite Ht, snippetCount_loadedStatus, mergeInto_count. lia.
Qed.

Lemma forOf_syncRepo_totals (allowGitPull : bool) (repos : list RepoConfig) :
  forall (aggregateMap agg' : SnippetMap) (st st' : State),
    NoDup (map rc_id repos) ->
    (forall r, In r repos -> JsMap.get (rc_id r) (repoStatuses st) = None) ->
    forOf (syncRepo allowGitPull) repos aggregateMap st = (Ok agg', st') ->
    countTotalSnippets agg' + statusTotal (repoStatuses st)
    = countTotalSnippets aggregateMap + statusTotal (repoStatuses st').
Proof.
  induction repos as [|repo r IH]; intros agg agg' st st' Hnd Hfresh;
    cbn [forOf].
  - now intros [= <- <-].
  - unfold bind.
    destruct (syncRepo allowGitPull agg repo st) as [[a1|e1] s1] eqn:E;
      [|discriminate].
    intros Hrest. inversion Hnd as [|? ? Hnotin Hnd']; subst.
    pose proof (syncRepo_totals allowGitPull agg repo st
                  (Hfresh repo (or_introl eq_refl)) E) as H1.
    assert (Hfresh' : forall r0, In r0 r ->
                                 JsMap.get (rc_id r0) (repoStatuses s1) = None).
    { intros r0 Hin.
      assert (Hne : rc_id r0 <> rc_id repo).
      { intros Heq. apply Hnotin. rewrite <- Heq. now apply in_map. }
      pose proof (syncRepo_other_statuses allowGitPull agg repo st Hne) as Ho.
      rewrite E in Ho. cbn [snd] in Ho. rewrite Ho. apply Hfresh. now right. }
    pose proof (IH _ _ _ _ Hnd' Hfresh' Hrest) as H2. lia.
Qed.

End Tables.

(** ** The source that is not a git working copy, in its cycle *)

Section Skipped.

Context {H : Host}.

Lemma forOf_syncRepo_other_statuses (allowGitPull : bool) (id : Js.str)
  (repos : list RepoConfig) :
  (forall r, In r repos -> rc_id r <> id) ->
  forall (aggregateMap : SnippetMap) (st : State),
    JsMap.get id (repoStatuses (snd (forOf (syncRepo allowGitPull) repos
                                       aggregateMap st)))
    = JsMap.get id (repoStatuses st).
Proof.
  induction repos as [|repo r IH]; intros Hids agg st; cbn [forOf].
  - reflexivity.
  - unfold bind.
    assert (Hne : id <> rc_id repo).
    { intros E. apply (Hids repo); [now left | now symmetry]. }
    pose proof (syncRepo_other_statuses allowGitPull agg repo st Hne) as Ho.
    destruct (syncRepo allowGitPull agg repo st) as [[a1|e1] s1];
      cbn [snd] in *.
    + rewrite IH; [exact Ho|]. intros r0 Hin. apply Hids. now right.
    + exact Ho.
Qed.

(** C3 — A configured source whose resolved root does not exist or has no
    [.git] in it, met by the loop after the sources [before]: its turn
    calls nothing outside (no [execFile], so no pull), does not throw and
    leaves the aggregate as it was; it stores a status with [lastError]
    set and [snippetCount] 0, which the turns after it leave in place.
    The cycle over all the sources ends as the cycle without that source
    does: same outcome and aggregate, same world, events and watchers, and
    the same status for every other source. *)
Theorem not_a_git_repo_is_skipped
  (allowGitPull : bool) (repo : RepoConfig) (before after : list RepoConfig)
  (agg0 agg1 : SnippetMap) (st0 st1 : State) :
  forOf (syncRepo allowGitPull) before agg0 st0 = (Ok agg1, st1) ->
  notGitRepo (world st1) (resolveRepoPath (world st1) (localRepoPath repo)) = true ->
  let status :=
    {| rs_id := rc_id repo; rs_name := rc_name repo; lastSync := None;
       lastError := Some (js "Not a git repo: "
                          ++ resolveRepoPath (world st1) (localRepoPath repo));
       snippetCount := 0 |} in
  let turn := syncRepo allowGitPull agg1 repo st1 in
  let all := forOf (syncRepo allowGitPull) (before ++ repo :: after) agg0 st0 in
  let others := forOf (syncRepo allowGitPull) (before ++ after) agg0 st0 in
  fst turn = Ok agg1
  /\ snd turn = store (rc_id repo) status st1
  /\ events (snd turn) = events st1
  /\ world (snd turn) = world st1
  /\ JsMap.get (rc_id repo) (repoStatuses (snd turn)) = Some status
  /\ truthy_opt (lastError status) = true
  /\ ((forall r, In r after -> rc_id r <> rc_id repo) ->
      JsMap.get (rc_id repo) (repoStatuses (snd all)) = Some status)
  /\ fst all = fst others
  /\ agree_off (rc_id repo) (snd all) (snd others).
Proof.
  intros Hbefore Hnot status turn all others.
  assert (Eturn : turn = (Ok agg1, store (rc_id repo) status st1)).
  { unfold turn. rewrite syncRepo_run. cbv zeta. now rewrite Hnot. }
  rewrite Eturn. cbn [fst snd].
  split; [reflexivity|]. split; [reflexivity|].
  split; [reflexivity|]. split; [reflexivity|].
  split; [apply get_set_eq|]. split; [reflexivity|].
  unfold all, others. rewrite !forOf_app, Hbefore.
  cbn [forOf]. unfold bind. fold turn. rewrite Eturn.
  split.
  - intros Hids. rewrite forOf_syncRepo_other_statuses by assumption.
    apply get_set_eq.
  - apply forOf_syncRepo_agree_off. apply agree_off_store_left.
Qed.

End Skipped.

(** ** A whole cycle *)

Section WholeCycle.

Context {H : Host}.

Lemma registerCompletionProviders_run (map : SnippetMap) (st : State) :
  match registrations map with
  | (_, Some e) => registerCompletionProviders map st = (Err e, st)
  | (providers, None) =>
      exists evs,
        registerCompletionProviders map st = (Ok providers, add_events evs st)
  end.
Proof.
  unfold registerCompletionProviders. cbv zeta.
  destruct (registrations map) as [providers [e|]]; [reflexivity|].
  unfold bind. rewrite log_run. eexists. reflexivity.
Qed.

(** A cycle whose settings cannot be read throws before it changes
    anything. *)
Lemma syncAllRepos_config_error (showNotifications allowGitPull : bool)
  (st : State) (e : Js.str) :
  getRepoConfigs (getConfiguration (world st)) = Err e ->
  syncAllRepos showNotifications allowGitPull st = (Err e, st).
Proof.
  intros E. unfold syncAllRepos, bind, gets, lift. cbv beta match.
  rewrite E. reflexivity.
Qed.

(** With no source configured, the cycle publishes the empty table and
    no status. *)
Lemma syncAllRepos_empty (showNotifications allowGitPull : bool) (st : State) :
  getRepoConfigs (getConfiguration (world st)) = Ok [] ->
  exists st',
    syncAllRepos showNotifications allowGitPull st = (Ok tt, st')
    /\ snippetMap st' = [] /\ repoStatuses st' = []
    /\ providerDisposables st' = [] /\ repoWatchers st' = []
    /\ world st' = world st.
Proof.
  intros E.
  unfold syncAllRepos, disposeWatchers, disposeProviders, updateStatusBar,
    bind, gets, lift, modify.
  cbv beta match. rewrite E. unfold ret. cbv beta match.
  change (length (@nil RepoConfig) =? 0)%nat with true. cbv beta match.
  destruct showNotifications; cbn [when_]; cbv beta match;
    (eexists; split; [reflexivity|]); repeat split; reflexivity.
Qed.

(** When a turn of the loop throws, the cycle throws and publishes
    nothing. *)
Lemma syncAllRepos_threw (showNotifications allowGitPull : bool) (st st2 : State)
  (repos : list RepoConfig) (e : Js.str) :
  getRepoConfigs (getConfiguration (world st)) = Ok repos ->
  repos <> [] ->
  forOf (syncRepo allowGitPull) repos []
        (set_repoWatchers [] (set_repoStatuses [] st)) = (Err e, st2) ->
  syncAllRepos showNotifications allowGitPull st = (Err e, st2).
Proof.
  intros E Hne Hloop.
  unfold syncAllRepos, disposeWatchers, disposeProviders, bind, gets, lift, modify.
  cbv beta match. rewrite E. destruct repos as [|r0 rest]; [now elim Hne|].
  unfold ret. cbv beta match.
  change (length (r0 :: rest) =? 0)%nat with false. cbv beta match.
  rewrite Hloop. reflexivity.
Qed.

(** When the loop ends and the registrations are made, the cycle
    publishes its table, keeps the providers registered for it and the
    statuses the loop stored. *)
Lemma syncAllRepos_published (showNotifications allowGitPull : bool)
  (st st2 : State) (repos : list RepoConfig) (aggregateMap : SnippetMap)
  (providers : list Provider) :
  getRepoConfigs (getConfiguration (world st)) = Ok repos ->
  repos <> [] ->
  forOf (syncRepo allowGitPull) repos []
        (set_repoWatchers [] (set_repoStatuses [] st)) = (Ok aggregateMap, st2) ->
  registrations aggregateMap = (providers, None) ->
  exists st',
    syncAllRepos showNotifications allowGitPull st = (Ok tt, st')
    /\ snippetMap st' = aggregateMap
    /\ repoStatuses st' = repoStatuses st2
    /\ providerDisposables st' = providers
    /\ repoWatchers st' = repoWatchers st2
    /\ world st' = world st2.
Proof.
  intros E Hne Hloop Hreg.
  unfold syncAllRepos, disposeWatchers, disposeProviders, updateStatusBar,
    bind, gets, lift, modify.
  cbv beta match. rewrite E. destruct repos as [|r0 rest]; [now elim Hne|].
  unfold ret. cbv beta match.
  change (length (r0 :: rest) =? 0)%nat with false. cbv beta match.
  rewrite Hloop. cbv beta match.
  pose proof (registerCompletionProviders_run aggregateMap
                (set_providerDisposables [] (set_snippetMap aggregateMap st2)))
    as Hrun.
  rewrite Hreg in Hrun. destruct Hrun as [evs Er].
  rewrite Er. cbv beta match.
  destruct showNotifications; cbn [when_]; cbv beta match;
    (eexists; split; [reflexivity|]);
    cbn [snippetMap repoStatuses providerDisposables repoWatchers world
         set_snippetMap set_repoStatuses set_providerDisposables
         set_repoWatchers set_statusBar add_event add_events];
    destruct (length (JsMap.values (repoStatuses st2)) =? 0)%nat;
    repeat split; reflexivity.
Qed.

(** When the loop ends and a registration throws, the cycle throws: the
    table is published and the providers from before are disposed, the
    status bar is not updated and no notification is shown. *)
Lemma syncAllRepos_unregistered (showNotifications allowGitPull : bool)
  (st st2 : State) (repos : list RepoConfig) (aggregateMap : SnippetMap)
  (made : list Provider) (e : Js.str) :
  getRepoConfigs (getConfiguration (world st)) = Ok repos ->
  repos <> [] ->
  forOf (syncRepo allowGitPull) repos []
        (set_repoWatchers [] (set_repoStatuses [] st)) = (Ok aggregateMap, st2) ->
  registrations aggregateMap = (made, Some e) ->
  syncAllRepos showNotifications allowGitPull st
  = (Err e, set_providerDisposables [] (set_snippetMap aggregateMap st2)).
Proof.
  intros E Hne Hloop Hreg.
  unfold syncAllRepos, disposeWatchers, disposeProviders, bind, gets, lift, modify.
  cbv beta match. rewrite E. destruct repos as [|r0 rest]; [now elim Hne|].
  unfold ret. cbv beta match.
  change (length (r0 :: rest) =? 0)%nat with false. cbv beta match.
  rewrite Hloop. cbv beta match.
  pose proof (registerCompletionProviders_run aggregateMap
                (set_providerDisposables [] (set_snippetMap aggregateMap st2)))
    as Hrun.
  rewrite Hreg in Hrun. rewrite Hrun. reflexivity.
Qed.

(** C10 — After a cycle that completes, the number of snippets in the
    published table (the total the notification and the status bar show)
    is the sum of [snippetCount] over the statuses of that cycle. *)
Theorem total_is_sum_of_status_counts
  (showNotifications allowGitPull : bool) (st st' : State) :
  syncAllRepos showNotifications allowGitPull st = (Ok tt, st') ->
  countTotalSnippets (snippetMap st')
  = list_sum (map snippetCount (JsMap.values (repoStatuses st'))).
Proof.
  intros Hrun. fold (statusTotal (repoStatuses st')).
  destruct (getRepoConfigs (getConfiguration (world st))) as [repos|e] eqn:E.
  2:{ rewrite (syncAllRepos_config_error showNotifications allowGitPull st E) in Hrun.
      discriminate. }
  destruct repos as [|r0 rest].
  - destruct (syncAllRepos_empty showNotifications allowGitPull st E)
      as (st1 & E1 & Em & Es & _).
    rewrite E1 in Hrun. injection Hrun as <-. now rewrite Em, Es.
  - assert (Hne : r0 :: rest <> []) by discriminate.
    destruct (forOf (syncRepo allowGitPull) (r0 :: rest) []
                (set_repoWatchers [] (set_repoStatuses [] st)))
      as [[agg|e] st2] eqn:Hloop.
    + destruct (registrations agg) as [providers [e|]] eqn:Hreg.
      { rewrite (syncAllRepos_unregistered showNotifications allowGitPull st
                   E Hne Hloop Hreg) in Hrun. discriminate. }
      destruct (syncAllRepos_published showNotifications allowGitPull st E Hne
                  Hloop Hreg)
        as (st1 & E1 & Em & Es & _).
      rewrite E1 in Hrun. injection Hrun as <-. rewrite Em, Es.
      pose proof (forOf_syncRepo_totals allowGitPull (r0 :: rest)
                    [] (set_repoWatchers [] (set_repoStatuses [] st))
                    (getRepoConfigs_NoDup _ E)
                    (fun r _ => eq_refl) Hloop) as Ht.
      cbn in Ht. lia.
    + rewrite (syncAllRepos_threw showNotifications allowGitPull st E Hne Hloop)
        in Hrun. discriminate.
Qed.

End WholeCycle.

(** ** Completion providers *)

Lemma existsb_eqb_In (x : Js.str) (l : list Js.str) :
  existsb (Js.eqb x) l = true <-> In x l.
Proof.
  rewrite existsb_exists. split.
  - intros (y & Hin & E). apply Js_eqb_eq in E. now subst.
  - intros Hin. exists x. split; [assumption | apply Js_eqb_refl].
Qed.

Lemma uniq_from_In (l : list Js.str) :
  forall seen x, In x (uniq_from seen l) <-> In x l /\ ~ In x seen.
Proof.
  induction l as [|y r IH]; intros seen x; simpl.
  - tauto.
  - destruct (existsb (Js.eqb y) seen) eqn:E.
    + apply existsb_eqb_In in E. rewrite IH. split.
      * intros [Hin Hn]. split; [now right | assumption].
      * intros [[<- | Hin] Hn]; [contradiction | now split].
    + assert (Hy : ~ In y seen).
      { intros Hin. apply existsb_eqb_In in Hin. congruence. }
      simpl. rewrite IH. simpl. split.
      * intros [<- | [Hin Hn]]; [split; [now left | assumption]|].
        split; [now right | tauto].
      * intros [[<- | Hin] Hn]; [now left|].
        destruct (str_eq_dec y x) as [-> | Hne]; [now left|]. right.
        split; [assumption|]. intros [Heq | Hs]; [contradiction | contradiction].
Qed.

Lemma uniq_from_NoDup (l : list Js.str) :
  forall seen, NoDup (uniq_from seen l).
Proof.
  induction l as [|y r IH]; intros seen; simpl; [constructor|].
  destruct (existsb (Js.eqb y) seen); [apply IH|].
  constructor; [|apply IH]. rewrite uniq_from_In. intros [_ Hn]. apply Hn. now left.
Qed.

Lemma uniq_from_id (l : list Js.str) :
  forall seen, NoDup l -> (forall x, In x l -> ~ In x seen) -> uniq_from seen l = l.
Proof.
  induction l as [|y r IH]; intros seen Hnd Hdis; simpl; [reflexivity|].
  inversion Hnd as [|? ? Hy Hnd']; subst.
  destruct (existsb (Js.eqb y) seen) eqn:E.
  - apply existsb_eqb_In in E. elim (Hdis y); [now left | assumption].
  - f_equal. apply IH; [assumption|].
    intros x Hin [<- | Hs]; [contradiction|]. apply (Hdis x); [now right | assumption].
Qed.

Lemma uniq_NoDup_id (l : list Js.str) : NoDup l -> uniq l = l.
Proof. intros Hnd. apply uniq_from_id; [assumption | intros ? _ []]. Qed.

(** The last character of a prefix, as the registration takes it. *)
Lemma lastChar_spec (p : Js.str) :
  (Js.lastChar p = [] <-> p = [])
  /\ forall c, Js.lastChar p = [c] <-> exists init, p = init ++ [c].
Proof.
  unfold Js.lastChar. destruct (rev p) as [|x r] eqn:E.
  - assert (Ep : p = []).
    { apply (f_equal (@rev _)) in E. now rewrite rev_involutive in E. }
    subst p. split; [tauto|]. intros c. split; [discriminate|].
    intros (init & Hi). destruct init; discriminate.
  - assert (Ep : p = rev r ++ [x]).
    { apply (f_equal (@rev _)) in E. now rewrite rev_involutive in E. }
    subst p. split.
    + split; [discriminate|]. intros Hn. destruct (rev r); discriminate.
    + intros c. split.
      * intros [= <-]. now exists (rev r).
      * intros (init & Hi). apply app_inj_tail in Hi. destruct Hi as [_ ->].
        reflexivity.
Qed.

Lemma lastChars_ok (ps : list Prefix) :
  forallb hasLength ps = true -> lastChars ps = Ok (map lastText ps).
Proof.
  induction ps as [|p rest IH]; cbn [forallb lastChars map]; [reflexivity|].
  intros Hp. apply andb_prop in Hp. destruct Hp as [Hp Hrest].
  rewrite (IH Hrest). destruct p; try discriminate; reflexivity.
Qed.

Lemma lastChars_err (ps : list Prefix) :
  forallb hasLength ps = false -> exists e, lastChars ps = Err e.
Proof.
  induction ps as [|p rest IH]; cbn [forallb lastChars]; [discriminate|].
  intros Hp. destruct (lastOf p) as [c|e] eqn:El; [|now exists e].
  assert (Hl : hasLength p = true) by (destruct p; try discriminate; reflexivity).
  rewrite Hl in Hp. destruct (IH Hp) as (e & ->). now exists e.
Qed.

Lemma triggerCharsOf_ok (snips : list TeamSnippet) :
  forallb hasLength (flat_map prefixes snips) = true ->
  triggerCharsOf snips = Ok (triggers snips).
Proof. intros Hp. unfold triggerCharsOf. now rewrite (lastChars_ok _ Hp). Qed.

Lemma triggerCharsOf_err (snips : list TeamSnippet) :
  forallb hasLength (flat_map prefixes snips) = false ->
  exists e, triggerCharsOf snips = Err e.
Proof.
  intros Hp. unfold triggerCharsOf.
  destruct (lastChars_err _ Hp) as (e & ->). now exists e.
Qed.

(** The trigger characters are, each once, the last characters of the
    prefixes that are strings and not empty. *)
Lemma triggers_spec (snips : list TeamSnippet) :
  NoDup (triggers snips)
  /\ forall t,
       In t (triggers snips)
       <-> exists s init c,
             In s snips /\ In (PString (init ++ [c])) (prefixes s) /\ t = [c].
Proof.
  unfold triggers, uniq. split; [apply uniq_from_NoDup|].
  intros t. rewrite uniq_from_In, filter_In, in_map_iff. split.
  - intros [[(prefix & El & Hin) Ht] _].
    apply in_flat_map in Hin. destruct Hin as (s & Hs & Hp).
    destruct prefix as [p | | | shown]; cbn [lastText] in El;
      try (subst t; discriminate).
    destruct (lastChar_spec p) as [_ Hc].
    destruct t as [|c [|d t']].
    + discriminate.
    + apply Hc in El. destruct El as (init & ->).
      now exists s, init, c.
    + unfold Js.lastChar in El. destruct (rev p); discriminate.
  - intros (s & init & c & Hs & Hp & ->).
    split; [|intros []]. split; [|reflexivity].
    exists (PString (init ++ [c])). split.
    + cbn [lastText]. apply (lastChar_spec (init ++ [c])). now exists init.
    + apply in_flat_map. now exists s.
Qed.

Lemma forallb_flat_map {A B} (f : B -> bool) (g : A -> list B) (l : list A) :
  forallb f (flat_map g l) = forallb (fun x => forallb f (g x)) l.
Proof.
  induction l as [|x r IH]; cbn [flat_map forallb]; [reflexivity|].
  now rewrite forallb_app, IH.
Qed.

Lemma wf_table_bucket_nonempty {A} (m : JsMap.t (list A)) (k : Js.str) :
  wf_table m -> In k (JsMap.keys m) -> bucket k m <> [].
Proof.
  intros [_ Hne] Hin. unfold bucket.
  destruct (JsMap.get k m) as [b|] eqn:E.
  - destruct (set_present k b m E) as (m1 & m2 & k0 & E1 & _).
    rewrite E1 in Hne. apply Forall_app in Hne. destruct Hne as [_ H2].
    inversion H2; subst. assumption.
  - apply get_None_keys in E. contradiction.
Qed.

Lemma bucket_In_key {A} (k : Js.str) (m : JsMap.t (list A)) (x : A) :
  In x (bucket k m) -> In k (JsMap.keys m).
Proof.
  unfold bucket. intros Hin.
  destruct (In_dec str_eq_dec k (JsMap.keys m)) as [Hk|Hk]; [exact Hk|].
  apply get_None_keys in Hk. rewrite Hk in Hin. destruct Hin.
Qed.

Lemma bucket_entry {A} (k : Js.str) (m : JsMap.t (list A)) (x : A) :
  In x (bucket k m) -> exists k0 b, In (k0, b) m /\ In x b.
Proof.
  unfold bucket. destruct (JsMap.get k m) as [b|] eqn:E; [|intros []].
  destruct (set_present k b m E) as (m1 & m2 & k0 & E1 & _).
  intros Hin. exists k0, b. split; [|exact Hin].
  rewrite E1. apply in_or_app. right. now left.
Qed.

(** In a table whose prefixes all have a length, so have those of the
    snippets of every bucket. *)
Lemma registrable_bucket (m : SnippetMap) (k : Js.str) :
  registrable m ->
  forallb hasLength (flat_map prefixes (bucket k m)) = true.
Proof.
  intros Hr. rewrite forallb_flat_map. apply forallb_forall. intros s Hs.
  destruct (bucket_entry k m s Hs) as (k0 & b & Hin & Hb).
  unfold registrable in Hr. rewrite Forall_forall in Hr.
  specialize (Hr _ Hin). cbn [snd] in Hr. rewrite Forall_forall in Hr.
  now apply Hr.
Qed.

Lemma registrable_merged (m : SnippetMap) (sel : Selector) :
  registrable m ->
  forallb hasLength (flat_map prefixes (merged m sel)) = true.
Proof.
  intros Hr. destruct sel as [lang|]; cbn [merged].
  - rewrite flat_map_app, forallb_app, !registrable_bucket by exact Hr.
    reflexivity.
  - now apply registrable_bucket.
Qed.

Lemma languageProvider_ok (m : SnippetMap) (lang : Js.str) :
  registrable m ->
  languageProvider (bucket (js "*") m) m lang
  = Ok (providerFor m (ByLanguage lang)).
Proof.
  intros Hr. unfold languageProvider. cbv zeta.
  pose proof (triggerCharsOf_ok _ (registrable_merged (ByLanguage lang) Hr))
    as E.
  unfold providerFor. cbn [merged] in *. unfold bucket in *. now rewrite E.
Qed.

Lemma globalProvider_ok (m : SnippetMap) :
  registrable m ->
  globalProvider (bucket (js "*") m) = Ok (providerFor m ByFileScheme).
Proof.
  intros Hr. unfold globalProvider.
  pose proof (triggerCharsOf_ok _ (registrable_merged ByFileScheme Hr)) as E.
  unfold providerFor. cbn [merged] in *. now rewrite E.
Qed.

Lemma registerEach_ok (m : SnippetMap) (langs : list Js.str) :
  registrable m ->
  registerEach (bucket (js "*") m) m langs
  = (map (fun lang => providerFor m (ByLanguage lang))
         (filter (fun lang => negb (Js.eqb lang (js "*"))) langs),
     None).
Proof.
  intros Hr. induction langs as [|l r IH]; cbn [registerEach filter map];
    [reflexivity|].
  destruct (Js.eqb l (js "*")); cbn [negb]; [exact IH|].
  rewrite (languageProvider_ok l Hr), IH. reflexivity.
Qed.

(** A registration loop that ends made a provider for every language. *)
Lemma registerEach_made (g : list TeamSnippet) (m : SnippetMap)
  (langs : list Js.str) :
  snd (registerEach g m langs) = None ->
  forall lang, In lang langs -> lang <> js "*" ->
    exists p, languageProvider g m lang = Ok p.
Proof.
  induction langs as [|l r IH]; cbn [registerEach]; [intros _ lang []|].
  destruct (Js.eqb l (js "*")) eqn:El.
  - intros Hn lang [<- | Hin] Hne; [|now apply IH].
    apply Js_eqb_eq in El. contradiction.
  - destruct (languageProvider g m l) as [p|e] eqn:Ep; cbn [snd];
      [|discriminate].
    intros Hn lang [<- | Hin] Hne; [now exists p | now apply IH].
Qed.

Lemma registrations_keys (m : SnippetMap) :
  wf_table m ->
  ((0 <? length (bucket (js "*") m))%nat
   && (length (JsMap.keys m) =? 1)%nat
   && existsb (Js.eqb (js "*")) (JsMap.keys m))
  = if list_eq_dec str_eq_dec (JsMap.keys m) [js "*"] then true else false.
Proof.
  intros Hwf.
  destruct (list_eq_dec str_eq_dec (JsMap.keys m) [js "*"]) as [E|E].
  - assert (Hg : bucket (js "*") m <> []).
    { apply wf_table_bucket_nonempty; [assumption|]. rewrite E. now left. }
    rewrite E. cbn [length Nat.eqb existsb]. rewrite Js_eqb_refl.
    destruct (bucket (js "*") m); [now elim Hg | reflexivity].
  - destruct ((0 <? length (bucket (js "*") m))%nat
              && (length (JsMap.keys m) =? 1)%nat
              && existsb (Js.eqb (js "*")) (JsMap.keys m)) eqn:C;
      [|reflexivity].
    exfalso. apply E.
    apply andb_prop in C. destruct C as [C C3].
    apply andb_prop in C. destruct C as [_ C2].
    apply Nat.eqb_eq in C2. apply existsb_eqb_In in C3.
    destruct (JsMap.keys m) as [|k [|k' r]]; try discriminate.
    destruct C3 as [<- | []]. reflexivity.
Qed.

(** The registrations for a table with one entry per key, no empty
    bucket, and a length for every prefix. *)
Lemma registrations_wf (m : SnippetMap) :
  wf_table m -> registrable m ->
  registrations m
  = (map (fun lang => providerFor m (ByLanguage lang))
         (filter (fun lang => negb (Js.eqb lang (js "*"))) (JsMap.keys m))
     ++ (if list_eq_dec str_eq_dec (JsMap.keys m) [js "*"]
         then [providerFor m ByFileScheme] else []),
     None).
Proof.
  intros Hwf Hr. unfold registrations. cbv zeta.
  rewrite (uniq_NoDup_id (proj1 Hwf)).
  fold (bucket (js "*") m). rewrite (registerEach_ok _ Hr).
  rewrite (registrations_keys Hwf).
  destruct (list_eq_dec str_eq_dec (JsMap.keys m) [js "*"]).
  - now rewrite (globalProvider_ok Hr).
  - now rewrite List.app_nil_r.
Qed.

Lemma other_key (keys : list Js.str) (k : Js.str) :
  NoDup keys -> keys <> [] -> keys <> [k] -> exists k', In k' keys /\ k' <> k.
Proof.
  intros Hnd Hne Hk. destruct keys as [|a [|b r]]; [now elim Hne| |].
  - exists a. split; [now left|]. intros ->. now elim Hk.
  - destruct (str_eq_dec a k) as [->|Ha].
    + exists b. split; [right; now left|]. intros ->.
      inversion Hnd as [|? ? Hin _]; subst. apply Hin. now left.
    + exists a. split; [now left | exact Ha].
Qed.

(** A prefix without a length, anywhere in the table, ends the
    registrations with an error. *)
Lemma registrations_throw (m : SnippetMap) (key : Js.str) (s : TeamSnippet)
  (p : Prefix) :
  wf_table m -> In s (bucket key m) -> In p (prefixes s) ->
  hasLength p = false ->
  exists made e, registrations m = (made, Some e).
Proof.
  intros Hwf Hs Hp Hl.
  assert (Hbad : forall snips,
             In s snips -> forallb hasLength (flat_map prefixes snips) = false).
  { intros snips Hin. apply not_true_is_false. intros Ht.
    rewrite forallb_flat_map, forallb_forall in Ht.
    specialize (Ht s Hin). rewrite forallb_forall in Ht.
    specialize (Ht p Hp). congruence. }
  assert (Hlang : forall lang,
             In lang (JsMap.keys m) -> lang <> js "*" ->
             In s (bucket (js "*") m ++ bucket lang m) ->
             exists made e, registrations m = (made, Some e)).
  { intros lang Hin Hne Hboth. unfold registrations. cbv zeta.
    rewrite (uniq_NoDup_id (proj1 Hwf)). fold (bucket (js "*") m).
    destruct (registerEach (bucket (js "*") m) m (JsMap.keys m))
      as [scoped [e|]] eqn:Er; [now exists scoped, e|].
    exfalso.
    assert (Hn : snd (registerEach (bucket (js "*") m) m (JsMap.keys m)) = None)
      by now rewrite Er.
    destruct (@registerEach_made _ _ _ Hn lang Hin Hne) as (prov & Eprov).
    unfold languageProvider in Eprov. cbv zeta in Eprov.
    fold (bucket lang m) in Eprov.
    destruct (triggerCharsOf_err _ (Hbad _ Hboth)) as (e & Ee).
    rewrite Ee in Eprov. discriminate. }
  destruct (str_eq_dec key (js "*")) as [->|Hne].
  - destruct (list_eq_dec str_eq_dec (JsMap.keys m) [js "*"]) as [Ek|Ek].
    + unfold registrations. cbv zeta.
      rewrite (uniq_NoDup_id (proj1 Hwf)). fold (bucket (js "*") m).
      rewrite (registrations_keys Hwf).
      destruct (list_eq_dec str_eq_dec (JsMap.keys m) [js "*"]) as [_|Hk];
        [|contradiction].
      destruct (registerEach (bucket (js "*") m) m (JsMap.keys m))
        as [scoped [e|]]; [now exists scoped, e|].
      unfold globalProvider.
      destruct (triggerCharsOf_err _ (Hbad _ Hs)) as (e & ->).
      now exists scoped, e.
    + destruct (@other_key (JsMap.keys m) (js "*")) as (k & Hk & Hkne);
        [apply Hwf | | exact Ek |].
      * pose proof (bucket_In_key _ _ _ Hs) as Hin.
        destruct (JsMap.keys m); [destruct Hin | discriminate].
      * apply (Hlang k Hk Hkne). apply in_or_app. now left.
  - apply (Hlang key); [now apply bucket_In_key with (x := s) | exact Hne |].
    apply in_or_app. now right.
Qed.

(** A registration loop that ends with an error stopped at a language:
    the registrations it made are those of languages before that one. *)
Lemma registerEach_err (g : list TeamSnippet) (m : SnippetMap)
  (langs : list Js.str) (e : Js.str) :
  snd (registerEach g m langs) = Some e ->
  exists pre lang post,
    langs = pre ++ lang :: post
    /\ lang <> js "*"
    /\ languageProvider g m lang = Err e
    /\ forall p, In p (fst (registerEach g m langs)) ->
                 exists l, In l pre /\ selector p = ByLanguage l.
Proof.
  induction langs as [|l r IH]; cbn [registerEach]; [discriminate|].
  destruct (Js.eqb l (js "*")) eqn:El.
  - intros Hs. destruct (IH Hs) as (pre & lang & post & -> & Hne & Hp & Hin).
    exists (l :: pre), lang, post. repeat split; try assumption.
    intros p Hp'. destruct (Hin p Hp') as (l0 & Hl0 & Hsel).
    exists l0. split; [now right | exact Hsel].
  - apply Js_eqb_neq in El.
    destruct (languageProvider g m l) as [p|e'] eqn:Ep; cbn [fst snd].
    + intros Hs. destruct (IH Hs) as (pre & lang & post & -> & Hne & Hp & Hin).
      exists (l :: pre), lang, post. repeat split; try assumption.
      intros q [<- | Hq].
      * exists l. split; [now left|]. unfold languageProvider in Ep.
        cbv zeta in Ep. destruct (triggerCharsOf _); [|discriminate].
        now injection Ep as <-.
      * destruct (Hin q Hq) as (l0 & Hl0 & Hsel).
        exists l0. split; [now right | exact Hsel].
    + intros [= ->]. exists [], l, r. repeat split; try assumption.
      intros p [].
Qed.

(** When the registrations end with an error, a provider the table calls
    for has not been registered: that of a key other than ["*"], or the
    one for every file when ["*"] is the only key. *)
Lemma registrations_err (m : SnippetMap) (made : list Provider) (e : Js.str) :
  wf_table m ->
  registrations m = (made, Some e) ->
  exists sel,
    match sel with
    | ByLanguage lang => In lang (JsMap.keys m) /\ lang <> js "*"
    | ByFileScheme => JsMap.keys m = [js "*"]
    end
    /\ ~ In sel (map selector made).
Proof.
  intros Hwf. unfold registrations. cbv zeta.
  rewrite (uniq_NoDup_id (proj1 Hwf)). fold (bucket (js "*") m).
  rewrite (registrations_keys Hwf).
  destruct (registerEach (bucket (js "*") m) m (JsMap.keys m))
    as [scoped [e'|]] eqn:Er.
  - intros [= <- <-].
    assert (Hs : snd (registerEach (bucket (js "*") m) m (JsMap.keys m)) = Some e')
      by now rewrite Er.
    destruct (registerEach_err _ _ _ Hs) as (pre & lang & post & Ek & Hne & _ & Hin).
    rewrite Er in Hin. cbn [fst] in Hin.
    exists (ByLanguage lang). split.
    + split; [|exact Hne]. rewrite Ek. apply in_or_app. right. now left.
    + intros Hsel. apply in_map_iff in Hsel. destruct Hsel as (p & Hp & Hmade).
      destruct (Hin p Hmade) as (l & Hl & Hpl). rewrite Hp in Hpl.
      injection Hpl as <-.
      pose proof (proj1 Hwf) as Hnd. rewrite Ek in Hnd.
      apply NoDup_remove_2 in Hnd. apply Hnd. apply in_or_app. now left.
  - destruct (list_eq_dec str_eq_dec (JsMap.keys m) [js "*"]) as [Ek|Ek];
      [|discriminate].
    destruct (globalProvider (bucket (js "*") m)); [discriminate|].
    intros [= <- <-]. exists ByFileScheme. split; [exact Ek|].
    rewrite Ek in Er. cbn [registerEach] in Er. rewrite Js_eqb_refl in Er.
    injection Er as <-. intros [].
Qed.

Section Providers.

Context {H : Host}.

(** The items a provider gives are the candidates of the snippets it
    stands for. *)
Lemma provideCompletionItems_candidates (p : Provider) (st : State) :
  exists items,
    fst (provideCompletionItems p st) = Ok items
    /\ map shownOf items = candidatesOf (offered p)
    /\ Forall (fun item =>
                 detail item
                 = js "Team Snippet ("
                   ++ match selector p with
                      | ByLanguage lang => lang
                      | ByFileScheme => js "global"
                      end ++ js ")") items.
Proof.
  assert (Hc : forall scopeName snips,
             map shownOf (flat_map (itemsOf scopeName) snips)
             = candidatesOf snips).
  { intros scopeName snips. unfold candidatesOf.
    induction snips as [|s r IH]; cbn [flat_map map]; [reflexivity|].
    rewrite map_app, IH. f_equal. unfold itemsOf. rewrite map_map.
    reflexivity. }
  assert (Hd : forall scopeName snips,
             Forall (fun item =>
                       detail item = js "Team Snippet (" ++ scopeName ++ js ")")
                    (flat_map (itemsOf scopeName) snips)).
  { intros scopeName snips. apply Forall_forall. intros item Hin.
    apply in_flat_map in Hin. destruct Hin as (s & _ & Hin).
    unfold itemsOf in Hin. apply in_map_iff in Hin.
    destruct Hin as (prefix & <- & _). reflexivity. }
  unfold provideCompletionItems.
  destruct (selector p); unfold bind; rewrite log_run; cbn [fst];
    eexists; (split; [reflexivity|]); split; [apply Hc | apply Hd | apply Hc
                                               | apply Hd].
Qed.

(** For the table a cycle aggregates, when every prefix in it has a
    length: the call registers, in key order, one provider per key other
    than ["*"], and after them the provider for every file exactly when
    ["*"] is the only key; the candidates a provider gives are those of
    the global bucket followed by that language's bucket, in that order;
    and its trigger characters are, each once, the last characters of the
    prefixes of those snippets that are strings and not empty. *)
Lemma completion_providers_of_table
  (allowGitPull : bool) (repos : list RepoConfig) (st0 st1 : State)
  (table : SnippetMap) :
  forOf (syncRepo allowGitPull) repos [] st0 = (Ok table, st1) ->
  registrable table ->
  let scoped :=
    filter (fun lang => negb (Js.eqb lang (js "*"))) (JsMap.keys table) in
  exists providers,
    registrations table = (providers, None)
    /\ (forall st, fst (registerCompletionProviders table st) = Ok providers)
    /\ map selector providers
       = map ByLanguage scoped
         ++ (if list_eq_dec str_eq_dec (JsMap.keys table) [js "*"]
             then [ByFileScheme] else [])
    /\ NoDup scoped
    /\ (forall lang, In lang scoped <-> In lang (JsMap.keys table) /\ lang <> js "*")
    /\ Forall (fun p =>
                 (forall st,
                     exists items,
                       fst (provideCompletionItems p st) = Ok items
                       /\ map shownOf items
                          = candidatesOf (merged table (selector p)))
                 /\ NoDup (triggerChars p)
                 /\ forall t,
                      In t (triggerChars p)
                      <-> exists s init c,
                            In s (merged table (selector p))
                            /\ In (PString (init ++ [c])) (prefixes s)
                            /\ t = [c])
              providers.
Proof.
  intros Hloop Hr scoped.
  assert (Hwf : wf_table table).
  { eapply forOf_syncRepo_wf_table; [exact Hloop | apply wf_table_nil]. }
  pose proof (registrations_wf Hwf Hr) as R. fold scoped in R.
  eexists. split; [exact R|].
  split; [|split; [|split; [|split]]].
  - intros st. pose proof (registerCompletionProviders_run table st) as Hrun.
    rewrite R in Hrun. destruct Hrun as [evs E]. now rewrite E.
  - rewrite map_app, map_map. cbn [selector providerFor]. f_equal.
    now destruct (list_eq_dec str_eq_dec (JsMap.keys table) [js "*"]).
  - apply NoDup_filter, Hwf.
  - intros lang. unfold scoped. rewrite filter_In. split.
    + intros [Hin Hb]. split; [assumption|].
      apply negb_true_iff, Js_eqb_neq in Hb. assumption.
    + intros [Hin Hne]. split; [assumption|].
      apply negb_true_iff, Js_eqb_neq. assumption.
  - assert (Hp : forall sel,
               (forall st,
                   exists items,
                     fst (provideCompletionItems (providerFor table sel) st)
                     = Ok items
                     /\ map shownOf items
                        = candidatesOf
                            (merged table (selector (providerFor table sel))))
               /\ NoDup (triggerChars (providerFor table sel))
               /\ forall t,
                    In t (triggerChars (providerFor table sel))
                    <-> exists s init c,
                          In s (merged table (selector (providerFor table sel)))
                          /\ In (PString (init ++ [c])) (prefixes s)
                          /\ t = [c]).
    { intros sel. cbn [selector triggerChars providerFor]. split.
      - intros st.
        destruct (provideCompletionItems_candidates (providerFor table sel) st)
          as (items & E & Hc & _).
        exists items. now split.
      - apply triggers_spec. }
    apply Forall_app. split.
    + apply Forall_forall. intros p Hin. apply in_map_iff in Hin.
      destruct Hin as (lang & <- & _). apply Hp.
    + destruct (list_eq_dec str_eq_dec (JsMap.keys table) [js "*"]);
        [|constructor].
      constructor; [apply Hp | constructor].
Qed.

(** C6 — A table the loop of a cycle returns can hold a snippet one of
    whose prefixes has no length, from an entry without [prefix] or with
    a prefix [null]; the loader takes such an entry without a word.  For
    that table the registration throws while it computes the trigger
    characters, whatever key the snippet is filed under.  The call hands
    no provider to the cycle, and a provider the table calls for is not
    even registered: that of a key other than ["*"], or the one for
    every file when ["*"] is the only key.  For that key no candidate is
    given. *)
Theorem registration_throws_on_a_prefix_without_length
  (allowGitPull : bool) (repos : list RepoConfig) (st0 st1 : State)
  (table : SnippetMap) (key : Js.str) (s : TeamSnippet) (p : Prefix) :
  forOf (syncRepo allowGitPull) repos [] st0 = (Ok table, st1) ->
  In s (bucket key table) ->
  In p (prefixes s) ->
  hasLength p = false ->
  exists made e,
    registrations table = (made, Some e)
    /\ (forall st, registerCompletionProviders table st = (Err e, st))
    /\ exists sel,
         match sel with
         | ByLanguage lang => In lang (JsMap.keys table) /\ lang <> js "*"
         | ByFileScheme => JsMap.keys table = [js "*"]
         end
         /\ ~ In sel (map selector made).
Proof.
  intros Hloop Hs Hp Hl.
  assert (Hwf : wf_table table).
  { eapply forOf_syncRepo_wf_table; [exact Hloop | apply wf_table_nil]. }
  destruct (registrations_throw key s p Hwf Hs Hp Hl) as (made & e & R).
  exists made, e. split; [exact R|]. split.
  - intros st. pose proof (registerCompletionProviders_run table st) as Hrun.
    now rewrite R in Hrun.
  - exact (registrations_err Hwf R).
Qed.

End Providers.

(** ** Two cycles over the same disk *)

Section Determinism.

Context {H : Host}.

Lemma same_disk_refl (w : World) : same_disk w w.
Proof. repeat split. Qed.

Lemma same_disk_sym (w1 w2 : World) : same_disk w1 w2 -> same_disk w2 w1.
Proof. intros (A & B & C). repeat split; intros p; symmetry; auto. Qed.

Lemma same_disk_trans (w1 w2 w3 : World) :
  same_disk w1 w2 -> same_disk w2 w3 -> same_disk w1 w3.
Proof.
  intros (A & B & C) (A' & B' & C').
  repeat split; intros p; etransitivity; eauto.
Qed.

Lemma same_config_sym (w1 w2 : World) : same_config w1 w2 -> same_config w2 w1.
Proof. intros (A & B). split; [now symmetry | intros p; symmetry; auto]. Qed.

Lemma same_config_trans (w1 w2 w3 : World) :
  same_config w1 w2 -> same_config w2 w3 -> same_config w1 w3.
Proof.
  intros (A & B) (A' & B'). split; [congruence | intros p; etransitivity; eauto].
Qed.

Lemma walk_same_disk (w1 w2 : World) (dir : Js.str) :
  same_disk w1 w2 -> walk w1 dir = walk w2 dir.
Proof. intros (_ & B & _). unfold walk. now rewrite B. Qed.

Lemma fileEntries_same_disk (w1 w2 : World) (file : Js.str) :
  same_disk w1 w2 -> fileEntries w1 file = fileEntries w2 file.
Proof. intros (_ & _ & C). unfold fileEntries, fileOutcome. now rewrite C. Qed.

Lemma loadedFrom_same_disk (w1 w2 : World) (files : list Js.str) :
  same_disk w1 w2 ->
  forall m : SnippetMap, loadedFrom w1 files m = loadedFrom w2 files m.
Proof.
  intros Hd. unfold loadedFrom.
  induction files as [|f r IH]; intros m; simpl; [reflexivity|].
  rewrite (fileEntries_same_disk f Hd). apply IH.
Qed.

Lemma world_pulledState (allowGitPull : bool) (repo : RepoConfig)
  (repoPath : Js.str) (st : State) :
  world (pulledState allowGitPull repo repoPath st)
  = pullWorld allowGitPull repo repoPath (world st).
Proof. unfold pulledState. destruct (pullError _ _ _ _); reflexivity. Qed.

Lemma quiet_pullWorld (allowGitPull : bool) (repo : RepoConfig)
  (repoPath : Js.str) (w : World) :
  quiet_pull allowGitPull ->
  same_disk (pullWorld allowGitPull repo repoPath w) w
  /\ same_config (pullWorld allowGitPull repo repoPath w) w.
Proof.
  intros Hq. unfold pullWorld, pulls.
  destruct allowGitPull; cbn [andb].
  - destruct (enableGitPull repo); [now apply Hq|].
    split; [apply same_disk_refl | split; reflexivity].
  - split; [apply same_disk_refl | split; reflexivity].
Qed.

(** The world a turn leaves. *)
Lemma world_syncRepo (allowGitPull : bool) (aggregateMap : SnippetMap)
  (repo : RepoConfig) (st : State) :
  let repoPath := resolveRepoPath (world st) (localRepoPath repo) in
  world (snd (syncRepo allowGitPull aggregateMap repo st))
  = if notGitRepo (world st) repoPath then world st
    else pullWorld allowGitPull repo repoPath (world st).
Proof.
  intros repoPath. rewrite syncRepo_run. cbv zeta. fold repoPath.
  destruct (notGitRepo (world st) repoPath); [reflexivity|].
  destruct (negb _); [apply world_pulledState|].
  destruct (walk _ _); apply world_pulledState.
Qed.

(** A turn returns the same table, or throws the same error, in two
    worlds that show the same disk and the same configuration, whatever
    else differs; and it leaves two such worlds. *)
Lemma syncRepo_same_disk (allow1 allow2 : bool) (aggregateMap : SnippetMap)
  (repo : RepoConfig) (st1 st2 : State) :
  quiet_pull allow1 -> quiet_pull allow2 ->
  same_disk (world st1) (world st2) ->
  same_config (world st1) (world st2) ->
  fst (syncRepo allow1 aggregateMap repo st1)
  = fst (syncRepo allow2 aggregateMap repo st2)
  /\ same_disk (world (snd (syncRepo allow1 aggregateMap repo st1)))
               (world (snd (syncRepo allow2 aggregateMap repo st2)))
  /\ same_config (world (snd (syncRepo allow1 aggregateMap repo st1)))
                 (world (snd (syncRepo allow2 aggregateMap repo st2))).
Proof.
  intros Hq1 Hq2 Hd Hc.
  rewrite !world_syncRepo. cbv zeta. rewrite !syncRepo_run. cbv zeta.
  destruct Hc as [Hcfg Hres]. rewrite (Hres (localRepoPath repo)).
  set (repoPath := resolveRepoPath (world st2) (localRepoPath repo)).
  assert (Eg : notGitRepo (world st1) repoPath = notGitRepo (world st2) repoPath).
  { unfold notGitRepo. destruct Hd as (A & _). now rewrite !A. }
  rewrite Eg. destruct (notGitRepo (world st2) repoPath).
  - split; [reflexivity|]. split; [assumption | now split].
  - rewrite !world_pulledState.
    destruct (quiet_pullWorld repo repoPath (world st1) Hq1) as [D1 C1].
    destruct (quiet_pullWorld repo repoPath (world st2) Hq2) as [D2 C2].
    assert (Hd' : same_disk (pullWorld allow1 repo repoPath (world st1))
                            (pullWorld allow2 repo repoPath (world st2))).
    { eapply same_disk_trans; [exact D1|].
      eapply same_disk_trans; [exact Hd|]. now apply same_disk_sym. }
    assert (Hc' : same_config (pullWorld allow1 repo repoPath (world st1))
                              (pullWorld allow2 repo repoPath (world st2))).
    { eapply same_config_trans; [exact C1|].
      eapply same_config_trans; [split; [exact Hcfg | exact Hres]|].
      now apply same_config_sym. }
    split; [|now split].
    assert (Ee : forall p, existsSync (pullWorld allow1 repo repoPath (world st1)) p
                           = existsSync (pullWorld allow2 repo repoPath (world st2)) p)
      by apply Hd'.
    rewrite Ee. destruct (negb _); [reflexivity|].
    rewrite (walk_same_disk _ Hd').
    destruct (walk _ _) as [all|e]; [|reflexivity].
    cbn [fst]. now rewrite (loadedFrom_same_disk _ Hd').
Qed.

Lemma forOf_syncRepo_same_disk (allow1 allow2 : bool) (repos : list RepoConfig) :
  quiet_pull allow1 -> quiet_pull allow2 ->
  forall (aggregateMap : SnippetMap) (st1 st2 : State),
    same_disk (world st1) (world st2) ->
    same_config (world st1) (world st2) ->
    fst (forOf (syncRepo allow1) repos aggregateMap st1)
    = fst (forOf (syncRepo allow2) repos aggregateMap st2).
Proof.
  intros Hq1 Hq2.
  induction repos as [|repo r IH]; intros agg st1 st2 Hd Hc; cbn [forOf].
  - reflexivity.
  - unfold bind.
    destruct (@syncRepo_same_disk allow1 allow2 agg repo st1 st2 Hq1 Hq2 Hd Hc)
      as (Ef & Hd' & Hc').
    destruct (syncRepo allow1 agg repo st1) as [[a1|e1] s1];
      destruct (syncRepo allow2 agg repo st2) as [[a2|e2] s2];
      cbn [fst snd] in *; try discriminate.
    + injection Ef as ->. now apply IH.
    + assumption.
Qed.

(** C9 — Two cycles whose worlds resolve the same sources and show the
    same disk, and whose pulls, where allowed, change neither, end alike:
    both complete or both throw the same error, and when they complete
    the published tables are equal, and so are the providers registered
    from them.  Nothing else the cycles start from or are asked matters:
    the clock, the table, statuses and providers of before, whether to
    notify, whether a pull is allowed or fails. *)
Theorem aggregation_is_deterministic
  (show1 show2 allow1 allow2 : bool) (st1 st2 : State) :
  quiet_pull allow1 -> quiet_pull allow2 ->
  same_config (world st1) (world st2) ->
  same_disk (world st1) (world st2) ->
  let run1 := syncAllRepos show1 allow1 st1 in
  let run2 := syncAllRepos show2 allow2 st2 in
  fst run1 = fst run2
  /\ (fst run1 = Ok tt ->
      snippetMap (snd run1) = snippetMap (snd run2)
      /\ providerDisposables (snd run1) = providerDisposables (snd run2)).
Proof.
  intros Hq1 Hq2 Hc Hd run1 run2. unfold run1, run2.
  pose proof (proj1 Hc) as Ecfg.
  destruct (getRepoConfigs (getConfiguration (world st2))) as [repos|e] eqn:E2.
  2:{ rewrite (syncAllRepos_config_error show1 allow1 st1 Ecfg),
              (syncAllRepos_config_error show2 allow2 st2 E2).
      split; [reflexivity | discriminate]. }
  destruct repos as [|r0 rest].
  - destruct (syncAllRepos_empty show1 allow1 st1 Ecfg)
      as (s1 & R1 & M1 & _ & P1 & _).
    destruct (syncAllRepos_empty show2 allow2 st2 E2)
      as (s2 & R2 & M2 & _ & P2 & _).
    rewrite R1, R2. cbn [fst snd]. split; [reflexivity|]. intros _.
    now rewrite M1, M2, P1, P2.
  - assert (Hne : r0 :: rest <> []) by discriminate.
    pose proof (@forOf_syncRepo_same_disk allow1 allow2 (r0 :: rest) Hq1 Hq2 []
                  (set_repoWatchers [] (set_repoStatuses [] st1))
                  (set_repoWatchers [] (set_repoStatuses [] st2)) Hd Hc) as Ef.
    destruct (forOf (syncRepo allow1) (r0 :: rest) []
                (set_repoWatchers [] (set_repoStatuses [] st1)))
      as [[agg1|e1] s1] eqn:L1;
      destruct (forOf (syncRepo allow2) (r0 :: rest) []
                  (set_repoWatchers [] (set_repoStatuses [] st2)))
        as [[agg2|e2] s2] eqn:L2;
      cbn [fst] in Ef; try discriminate.
    + injection Ef as ->.
      destruct (registrations agg2) as [made [e|]] eqn:Hreg.
      * rewrite (syncAllRepos_unregistered show1 allow1 st1 Ecfg Hne L1 Hreg),
                (syncAllRepos_unregistered show2 allow2 st2 E2 Hne L2 Hreg).
        split; [reflexivity | discriminate].
      * destruct (syncAllRepos_published show1 allow1 st1 Ecfg Hne L1 Hreg)
          as (f1 & R1 & M1 & _ & P1 & _).
        destruct (syncAllRepos_published show2 allow2 st2 E2 Hne L2 Hreg)
          as (f2 & R2 & M2 & _ & P2 & _).
        rewrite R1, R2. cbn [fst snd]. split; [reflexivity|]. intros _.
        now rewrite M1, M2, P1, P2.
    + injection Ef as ->.
      rewrite (syncAllRepos_threw show1 allow1 st1 Ecfg Hne L1),
              (syncAllRepos_threw show2 allow2 st2 E2 Hne L2).
      split; [reflexivity | discriminate].
Qed.

End Determinism.

(** ** The statements on the demo host *)

(** C3 (witness): [/b] does not exist; its turn comes after [/a]'s. *)
Lemma not_a_git_repo_is_skipped_witness :
  fst (syncRepo (H := Demo.host) true Demo.tableA Demo.repoB Demo.stateA)
  = Ok Demo.tableA
  /\ events (snd (syncRepo (H := Demo.host) true Demo.tableA Demo.repoB Demo.stateA))
     = events Demo.stateA
  /\ fst (forOf (syncRepo (H := Demo.host) true) [Demo.repoA; Demo.repoB] [] Demo.start)
     = fst (forOf (syncRepo (H := Demo.host) true) [Demo.repoA] [] Demo.start).
Proof.
  assert (H1 : forOf (syncRepo (H := Demo.host) true) [Demo.repoA] [] Demo.start
               = (Ok Demo.tableA, Demo.stateA)) by (vm_compute; reflexivity).
  assert (H2 : notGitRepo (H := Demo.host) (world Demo.stateA)
                 (resolveRepoPath (world Demo.stateA) (localRepoPath Demo.repoB))
               = true) by (vm_compute; reflexivity).
  destruct (@not_a_git_repo_is_skipped Demo.host true Demo.repoB [Demo.repoA] []
              [] Demo.tableA Demo.start Demo.stateA H1 H2)
    as (A & _ & B & _ & _ & _ & _ & C & _).
  split; [exact A|]. split; [exact B | exact C].
Defined.

(** [bad.json], which does not parse, between two files that load. *)
Lemma broken_file_stops_alone_demo :
  fst (syncRepo (H := Demo.host) true [] Demo.repoA Demo.start)
  = Ok (mergeInto []
          (loadedFrom (H := Demo.host)
             (world (pulledState true Demo.repoA (js "/a") Demo.start))
             [Demo.demoFile; Demo.todoFile] [])).
Proof.
  pose proof (@broken_file_stops_alone Demo.host true [] Demo.repoA Demo.start
                [Demo.demoFile; Demo.badFile; Demo.notesFile; Demo.todoFile]
                [Demo.demoFile] [Demo.todoFile] Demo.badFile
                (js "Unexpected token")) as W.
  cbv zeta in W.
  by_evaluation W. by_evaluation W. by_evaluation W. by_evaluation W.
  by_evaluation W.
  destruct W as (A & B & _). rewrite A, B; [vm_compute; reflexivity|].
  right. exists (js "{Log").
  split; [vm_compute; reflexivity|]. split; [discriminate|].
  vm_compute. reflexivity.
Defined.

(** In [half.json] the second value is [null]: the loader warns about
    the file, and the snippet of its first entry is in the map all the
    same. *)
Lemma file_with_a_broken_entry_is_partly_loaded :
  let w := world Demo.startHalf in
  let loaded := fst (collectSnippetsFromFolder (H := Demo.host)
                       (js "/a/snippets") true Demo.startHalf) in
  fileError (H := Demo.host) w Demo.halfFile
  = Some (js "Cannot read properties of null (reading 'prefix')")
  /\ loaded <> Ok (loadedFrom (H := Demo.host) w [Demo.demoFile] [])
  /\ loaded
     = Ok [(js "javascript", [normalizeSnippet (js "Log") Demo.logSnippet]);
           (js "*", [normalizeSnippet (js "Todo") Demo.todoSnippet])].
Proof.
  cbv zeta. split; [vm_compute; reflexivity|]. split.
  - vm_compute. discriminate.
  - vm_compute. reflexivity.
Qed.

(** C5 (witness): the repository [/a] counts two snippets. *)
Lemma snippetCount_is_sum_of_own_buckets_witness :
  exists status,
    JsMap.get (js "repo-0")
      (repoStatuses (snd (syncRepo (H := Demo.host) true [] Demo.repoA Demo.start)))
    = Some status
    /\ snippetCount status = 2.
Proof.
  pose proof (@snippetCount_is_sum_of_own_buckets Demo.host true [] Demo.repoA
                Demo.start
                [Demo.demoFile; Demo.badFile; Demo.notesFile; Demo.todoFile]) as W.
  cbv zeta in W.
  by_evaluation W. by_evaluation W. by_evaluation W.
  destruct W as (_ & status & Hget & _ & Hcount).
  exists status. split; [exact Hget|]. rewrite Hcount. vm_compute. reflexivity.
Defined.

(** The table of [/a] and [/b] has the keys [javascript] and ["*"], so
    one provider is registered, for JavaScript. *)
Lemma completion_providers_of_table_demo :
  map selector (fst (registrations Demo.tableAB)) = [ByLanguage (js "javascript")]
  /\ map triggerChars (fst (registrations Demo.tableAB))
     = [[js "o"; js "x"; js "v"]].
Proof.
  destruct (registrations Demo.tableAB) as [ps err] eqn:E.
  vm_compute in E. injection E as <- _. vm_compute. split; reflexivity.
Qed.

(** C6 (witness): [bare.json] holds one entry, with a body and no
    [prefix]; the loop files it under ["*"], and the registration for
    JavaScript, the first key of the table, throws. *)
Lemma registration_throws_on_a_prefix_without_length_witness :
  JsMap.keys DemoMore.tableBare = [js "javascript"; js "*"]
  /\ registrations DemoMore.tableBare
     = ([], Some (js "Cannot read properties of undefined (reading 'length')"))
  /\ registerCompletionProviders (H := Demo.host) DemoMore.tableBare
       DemoMore.stateBare
     = (Err (js "Cannot read properties of undefined (reading 'length')"),
        DemoMore.stateBare).
Proof.
  assert (H1 : forOf (syncRepo (H := Demo.host) true) [Demo.repoA; Demo.repoB] []
                 (set_repoWatchers [] (set_repoStatuses [] DemoMore.startBare))
               = (Ok DemoMore.tableBare, DemoMore.stateBare))
    by (vm_compute; reflexivity).
  assert (H2 : In (normalizeSnippet (js "Bare") Demo.bareSnippet)
                  (bucket (js "*") DemoMore.tableBare))
    by (vm_compute; now left).
  destruct (@registration_throws_on_a_prefix_without_length Demo.host true
              [Demo.repoA; Demo.repoB] _ DemoMore.stateBare DemoMore.tableBare
              (js "*") (normalizeSnippet (js "Bare") Demo.bareSnippet) PUndefined
              H1 H2 (or_introl eq_refl) eq_refl) as (made & e & R & T & _).
  assert (R' : registrations DemoMore.tableBare
               = ([], Some (js "Cannot read properties of undefined (reading 'length')")))
    by (vm_compute; reflexivity).
  rewrite R' in R. injection R as <- <-.
  split; [vm_compute; reflexivity|]. split; [exact R' | apply T].
Defined.

(** The two entries of the demo settings resolve. *)
Lemma getRepoConfigs_resolves_demo :
  getRepoConfigs Demo.settings = Ok [Demo.repoA; Demo.repoB].
Proof.
  destruct getRepoConfigs_resolves as (A & _).
  rewrite (A Demo.settings [Demo.repoEntryA; Demo.repoEntryB] eq_refl).
  - vm_compute. reflexivity.
  - discriminate.
  - constructor; [|constructor; [|constructor]]; vm_compute; tauto.
Qed.

(** C7 (witness): a [null] between the two entries of the demo settings
    loses both. *)
Lemma null_entry_loses_every_source_witness :
  getRepoConfigs DemoMore.nullSettings
  = Err (js "Cannot read properties of null (reading 'localRepoPath')").
Proof.
  apply (proj2 (@null_entry_loses_every_source DemoMore.nullSettings
                  [Demo.repoEntryA] [Demo.repoEntryB] eq_refl)).
  constructor; [|constructor]. vm_compute. tauto.
Defined.

Lemma demo_quiet_pull (allowGitPull : bool) : quiet_pull (H := Demo.host) allowGitPull.
Proof.
  intros _ file args w. split; repeat split.
Qed.

(** C9 (witness): the cycle run now and run later, silently and without
    pull, on the same disk. *)
Lemma aggregation_is_deterministic_witness :
  snippetMap (snd (syncAllRepos (H := Demo.host) true true Demo.start))
  = snippetMap (snd (syncAllRepos (H := Demo.host) false false Demo.later)).
Proof.
  assert (Hc : same_config (H := Demo.host) (world Demo.start) (world Demo.later))
    by (split; reflexivity).
  assert (Hd : same_disk (H := Demo.host) (world Demo.start) (world Demo.later))
    by (repeat split).
  destruct (@aggregation_is_deterministic Demo.host true false true false
              Demo.start Demo.later (@demo_quiet_pull true) (@demo_quiet_pull false)
              Hc Hd) as (_ & W).
  apply W. vm_compute. reflexivity.
Defined.

(** C10 (witness): the demo cycle publishes two snippets, those of [/a]. *)
Lemma total_is_sum_of_status_counts_witness :
  countTotalSnippets (snippetMap (snd (syncAllRepos (H := Demo.host) true true Demo.start)))
  = 2 + 0.
Proof.
  assert (H1 : syncAllRepos (H := Demo.host) true true Demo.start
               = (Ok tt, snd (syncAllRepos (H := Demo.host) true true Demo.start)))
    by (vm_compute; reflexivity).
  rewrite (@total_is_sum_of_status_counts Demo.host true true Demo.start _ H1).
  vm_compute. reflexivity.
Defined.

(* ================================================================== *)
(** * Further properties *)

(** ** The walk of a folder *)

(** Induction on a directory entry, with the hypothesis for every entry
    of a listing. *)
Lemma Dirent_listing_ind (P : Dirent -> Prop) :
  (forall name, P (FileEnt name)) ->
  (forall name e, P (DirEnt name (Err e))) ->
  (forall name sub, Forall P sub -> P (DirEnt name (Ok sub))) ->
  forall entry, P entry.
Proof.
  intros Hfile Hfail Hdir. fix IH 1. intros [name | name [sub | e]].
  - apply Hfile.
  - apply Hdir. induction sub as [|x r IHr]; constructor; [apply IH | exact IHr].
  - apply Hfail.
Qed.

Section Walk.

Context {H : Host}.

Lemma walkEntry_dir (dir name : Js.str) (sub : list Dirent) :
  walkEntry dir (DirEnt name (Ok sub)) = walkEntries (join dir name) sub.
Proof.
  cbn [walkEntry]. induction sub as [|e r IH]; [reflexivity|].
  cbn [walkEntries]. now rewrite <- IH.
Qed.

Lemma walkEntry_counts (entry : Dirent) :
  forall dir,
    (listable entry = true ->
     exists files, walkEntry dir entry = Ok files
                   /\ length files = fileCount entry)
    /\ (listable entry = false -> exists e, walkEntry dir entry = Err e).
Proof.
  induction entry as [name | name e | name sub IH] using Dirent_listing_ind;
    intros dir.
  - split; [|discriminate]. intros _. now exists [join dir name].
  - split; [discriminate|]. intros _. now exists e.
  - rewrite walkEntry_dir. cbn [listable fileCount].
    generalize (join dir name) as d. intros d.
    induction IH as [|x r Hx _ IHr]; cbn [forallb map list_sum fold_right walkEntries].
    + split; [|discriminate]. intros _. now exists [].
    + destruct (Hx d) as [Hok Hfail]. destruct IHr as [Hok' Hfail'].
      destruct (listable x); cbn [andb].
      * destruct (Hok eq_refl) as (fx & Ex & Lx). rewrite Ex. split.
        -- intros Hr. destruct (Hok' Hr) as (fr & Er & Lr). rewrite Er.
           exists (fx ++ fr). split; [reflexivity|].
           rewrite length_app, Lx, Lr. reflexivity.
        -- intros Hr. destruct (Hfail' Hr) as (e & Er). rewrite Er. now exists e.
      * split; [discriminate|]. intros _.
        destruct (Hfail eq_refl) as (e & Ee). rewrite Ee. now exists e.
Qed.

Lemma walkEntries_counts (entries : list Dirent) :
  forall dir,
    (forallb listable entries = true ->
     exists files, walkEntries dir entries = Ok files
                   /\ length files = list_sum (map fileCount entries))
    /\ (forallb listable entries = false -> exists e, walkEntries dir entries = Err e).
Proof.
  induction entries as [|x r IH]; intros dir;
    cbn [forallb map list_sum fold_right walkEntries].
  - split; [|discriminate]. intros _. now exists [].
  - destruct (walkEntry_counts x dir) as [Hok Hfail].
    destruct (IH dir) as [Hok' Hfail'].
    destruct (listable x); cbn [andb].
    + destruct (Hok eq_refl) as (fx & Ex & Lx). rewrite Ex. split.
      * intros Hr. destruct (Hok' Hr) as (fr & Er & Lr). rewrite Er.
        exists (fx ++ fr). split; [reflexivity|].
        rewrite length_app, Lx, Lr. reflexivity.
      * intros Hr. destruct (Hfail' Hr) as (e & Er). rewrite Er. now exists e.
    + split; [discriminate|]. intros _.
      destruct (Hfail eq_refl) as (e & Ee). rewrite Ee. now exists e.
Qed.

Lemma walkEntry_lists (entry : Dirent) :
  forall dir,
    listable entry = true -> walkEntry dir entry = Ok (filesUnder dir entry).
Proof.
  induction entry as [name | name e | name sub IH] using Dirent_listing_ind;
    intros dir; [reflexivity | discriminate |].
  rewrite walkEntry_dir. cbn [listable filesUnder].
  generalize (join dir name) as d. intros d.
  induction IH as [|x r Hx _ IHr]; cbn [forallb flat_map walkEntries];
    [reflexivity|].
  intros Hl. apply andb_prop in Hl. destruct Hl as [Hl Hr].
  now rewrite (Hx d Hl), (IHr Hr).
Qed.

Lemma walkEntries_lists (entries : list Dirent) (dir : Js.str) :
  forallb listable entries = true ->
  walkEntries dir entries = Ok (flat_map (filesUnder dir) entries).
Proof.
  induction entries as [|x r IH]; cbn [forallb flat_map walkEntries];
    [reflexivity|].
  intros Hl. apply andb_prop in Hl. destruct Hl as [Hl Hr].
  now rewrite (walkEntry_lists x dir Hl), (IH Hr).
Qed.

Lemma filesUnder_count (entry : Dirent) :
  forall dir, length (filesUnder dir entry) = fileCount entry.
Proof.
  induction entry as [name | name e | name sub IH] using Dirent_listing_ind;
    intros dir; [reflexivity | reflexivity |].
  cbn [filesUnder fileCount]. generalize (join dir name) as d. intros d.
  induction IH as [|x r Hx _ IHr]; cbn [flat_map map list_sum fold_right];
    [reflexivity|].
  rewrite length_app, (Hx d). cbn [list_sum] in IHr. now rewrite IHr.
Qed.

(** X1 — When the folder and every directory under it can be listed,
    [walk] returns the paths of the files under the folder, in any
    depth: one path per file, the name of the file joined to the path of
    its directory, in the order of the listings with the files of a
    directory where the directory stands; nothing is skipped and nothing
    is listed twice, so the paths are as many as the files.  It throws
    when the folder or one directory under it cannot be listed, however
    many files it has met before. *)
Theorem walk_lists_every_file_or_throws (w : World) (dir : Js.str) :
  match readdirSync w dir with
  | Err e => walk w dir = Err e
  | Ok entries =>
      (forallb listable entries = true ->
       walk w dir = Ok (flat_map (filesUnder dir) entries)
       /\ length (flat_map (filesUnder dir) entries)
          = list_sum (map fileCount entries))
      /\ (forallb listable entries = false -> exists e, walk w dir = Err e)
  end.
Proof.
  unfold walk. destruct (readdirSync w dir) as [entries|e]; [|reflexivity].
  split; [|apply walkEntries_counts].
  intros Hl. split; [now apply walkEntries_lists|].
  clear Hl. induction entries as [|x r IH];
    cbn [flat_map map list_sum fold_right]; [reflexivity|].
  rewrite length_app, filesUnder_count. cbn [list_sum] in IH. now rewrite IH.
Qed.

End Walk.

(** ** The resolved sources *)

Lemma trimStart_noLead (s : Js.str) : noLead (Js.trimStart s).
Proof.
  induction s as [|c r IH]; simpl; [exact I|].
  destruct (Js.is_space c) eqn:E; [exact IH | exact E].
Qed.

Lemma trimStart_noLead_id (s : Js.str) : noLead s -> Js.trimStart s = s.
Proof. destruct s as [|c r]; simpl; [reflexivity|]. now intros ->. Qed.

Lemma trimStart_keeps_last (l : Js.str) (c : Js.char) :
  Js.is_space c = false -> exists u, Js.trimStart (l ++ [c]) = u ++ [c].
Proof.
  intros Hc. induction l as [|a r IH]; simpl.
  - rewrite Hc. now exists [].
  - destruct (Js.is_space a); [exact IH | now exists (a :: r)].
Qed.

(** What [trim] returns has no white space at either end. *)
Lemma trim_trimmed (s : Js.str) : trimmed (Js.trim s).
Proof.
  unfold trimmed, Js.trim, Js.trimEnd. split.
  - pose proof (trimStart_noLead s) as Hl.
    destruct (Js.trimStart s) as [|c r]; [exact I|]. simpl in Hl.
    cbn [rev]. destruct (trimStart_keeps_last (rev r) c Hl) as (u & ->).
    rewrite rev_app_distr. simpl. exact Hl.
  - rewrite rev_involutive. apply trimStart_noLead.
Qed.

Lemma trimmed_trim_id (s : Js.str) : trimmed s -> Js.trim s = s.
Proof.
  intros [Hl Hr]. unfold Js.trim, Js.trimEnd.
  rewrite (trimStart_noLead_id _ Hl), (trimStart_noLead_id _ Hr).
  apply rev_involutive.
Qed.

Lemma lit_cons (a : ascii) (s : string) :
  Js.lit (String a s) = N_of_ascii a :: Js.lit s.
Proof. reflexivity. Qed.

Lemma repoEntry_kept (r : value) (index : N) (c : RepoConfig) :
  repoEntry r index = Ok (Some c) ->
  localRepoPath c <> [] /\ trimmed (localRepoPath c) /\ rc_name c <> [].
Proof.
  open_repoEntry. intros [= <-]. cbn [localRepoPath rc_name]. split; [|split].
  - now apply truthy_nonempty.
  - apply trim_trimmed.
  - match goal with
    | |- (if Js.truthy ?n then _ else _) <> [] =>
        destruct (Js.truthy n) eqn:En
    end.
    + now apply truthy_nonempty.
    + discriminate.
Qed.

Lemma keptRepos_kept (repos : list value) :
  forall index,
    Forall (fun c => localRepoPath c <> [] /\ trimmed (localRepoPath c)
                     /\ rc_name c <> [])
           (keptRepos repos index).
Proof.
  induction repos as [|r rest IH]; intros index; simpl; [constructor|].
  destruct (repoEntry r index) as [[c|]|e] eqn:E; [|apply IH|apply IH].
  constructor; [now apply repoEntry_kept with (r := r) (index := index) | apply IH].
Qed.

Lemma keptRepos_length (repos : list value) :
  forall index, length (keptRepos repos index) <= length repos.
Proof.
  induction repos as [|r rest IH]; intros index; simpl; [lia|].
  specialize (IH (index + 1)%N).
  destruct (repoEntry r index) as [[c|]|e]; simpl; lia.
Qed.

(** X2 — Whatever the settings hold, the sources [getRepoConfigs] resolves
    have distinct ids, a path that is neither empty nor padded with white
    space, and a name that is not empty; there are no more of them than
    entries in the list, and at most one from the legacy settings. *)
Theorem resolved_sources_are_well_formed (cfg : Configuration)
  (repos : list RepoConfig) :
  getRepoConfigs cfg = Ok repos ->
  NoDup (map rc_id repos)
  /\ Forall (fun c => localRepoPath c <> [] /\ trimmed (localRepoPath c)
                      /\ rc_name c <> []) repos
  /\ length repos <= Nat.max 1 (length (nullish_or (cfg_repositories cfg) [])).
Proof.
  intros E. split; [now apply getRepoConfigs_NoDup with (cfg := cfg)|].
  revert E. unfold getRepoConfigs.
  destruct (0 <? length (nullish_or (cfg_repositories cfg) []))%nat.
  - intros E. apply forEachRepo_kept in E. subst repos. cbn [app]. split.
    + apply keptRepos_kept.
    + pose proof (keptRepos_length (nullish_or (cfg_repositories cfg) []) 0). lia.
  - destruct (Js.truthy (Js.trim (str_or (cfg_localRepoPath cfg) []))) eqn:Ep;
      cbn [negb]; intros [= <-].
    + split; [|cbn [length]; lia]. constructor; [|constructor].
      cbn [localRepoPath rc_name]. split; [now apply truthy_nonempty|].
      split; [apply trim_trimmed|]. rewrite lit_cons. discriminate.
    + split; [constructor | cbn [length]; lia].
Qed.

(** X2 (witness): the demo settings. *)
Lemma resolved_sources_are_well_formed_witness :
  NoDup (map rc_id [Demo.repoA; Demo.repoB]).
Proof.
  assert (E : getRepoConfigs Demo.settings = Ok [Demo.repoA; Demo.repoB])
    by (vm_compute; reflexivity).
  exact (proj1 (resolved_sources_are_well_formed Demo.settings E)).
Defined.

(** X3 — A [null] (or an [undefined]) among the entries of the settings
    stops whatever reads the sources: the cycle and the command that
    opens a snippets folder throw the error of [getRepoConfigs] before
    they have changed anything, so the table, the statuses and the
    status bar from before stay, and no warning is shown. *)
Theorem null_entry_stops_cycle_and_command {H : Host}
  (showNotifications allowGitPull : bool) (pick : option Js.str) (st : State)
  (repos : list value) :
  cfg_repositories (getConfiguration (world st)) = Some repos ->
  Exists nullish repos ->
  exists e,
    getRepoConfigs (getConfiguration (world st)) = Err e
    /\ syncAllRepos showNotifications allowGitPull st = (Err e, st)
    /\ openSnippetsFolder pick st = (Err e, st).
Proof.
  intros E Hx.
  assert (Hg : exists e, getRepoConfigs (getConfiguration (world st)) = Err e).
  { unfold getRepoConfigs. rewrite E. cbn [nullish_or].
    destruct repos as [|r rest]; [inversion Hx|].
    cbn [length Nat.ltb Nat.leb]. now apply forEachRepo_nullish. }
  destruct Hg as (e & Eg). exists e. split; [exact Eg|]. split.
  - now apply syncAllRepos_config_error.
  - unfold openSnippetsFolder, bind, gets, lift. cbv beta match.
    rewrite Eg. reflexivity.
Qed.

(** X3 (witness): the demo settings with a [null] between the entries. *)
Lemma null_entry_stops_cycle_and_command_witness :
  exists e,
    getRepoConfigs (@getConfiguration Demo.host (world DemoMore.startNull))
    = Err e
    /\ syncAllRepos (H := Demo.host) true true DemoMore.startNull
       = (Err e, DemoMore.startNull)
    /\ openSnippetsFolder (H := Demo.host) None DemoMore.startNull
       = (Err e, DemoMore.startNull).
Proof.
  apply (@null_entry_stops_cycle_and_command Demo.host true true None
           DemoMore.startNull
           ([Demo.repoEntryA] ++ VNull :: [Demo.repoEntryB]) eq_refl).
  right. left. now left.
Defined.

Lemma repoEntry_pathless (r : value) (index : N) :
  pathless r -> repoEntry r index = Ok None.
Proof.
  unfold pathless, repoEntry.
  destruct r; try contradiction; cbn [Value.getProp]; try reflexivity.
  intros [Hf | (s & E & Hs)].
  - unfold Value.or. rewrite Hf. reflexivity.
  - rewrite E, toString_or_empty. cbv zeta. rewrite Hs. reflexivity.
Qed.

(** X4 — A list of entries that is not empty hides the legacy settings
    even when none of its entries has a path: entries that are not
    objects, or whose [localRepoPath] is falsy or blank, are dropped
    without a word, and the result is no source at all, whatever the
    legacy path is. *)
Theorem pathless_entries_hide_legacy_settings (cfg : Configuration)
  (repos : list value) :
  cfg_repositories cfg = Some repos ->
  repos <> [] ->
  Forall pathless repos ->
  getRepoConfigs cfg = Ok [].
Proof.
  intros E Hne Hall. unfold getRepoConfigs. rewrite E. cbn [nullish_or].
  destruct repos as [|r0 rest]; [now elim Hne|].
  cbn [length Nat.ltb Nat.leb].
  generalize 0%N as index. revert Hall. generalize (r0 :: rest) as l.
  clear. intros l Hall. induction Hall as [|r rest Hr _ IH]; intros index;
    cbn [forEachRepo]; [reflexivity|].
  rewrite (repoEntry_pathless r index Hr). apply IH.
Qed.

(** X4 (witness): a string and an object without a path, beside a
    legacy path that is set. *)
Lemma pathless_entries_hide_legacy_settings_witness :
  getRepoConfigs
    {| cfg_repositories :=
         Some [VString (js "/a"); VObject [(js "name", VString (js "Team"))]];
       cfg_localRepoPath := Some (js "/legacy");
       cfg_branch := None; cfg_snippetsPath := None;
       cfg_includeJsonFiles := None; cfg_enableGitPull := None;
       cfg_debug := None |}
  = Ok [].
Proof.
  apply (@pathless_entries_hide_legacy_settings _
           [VString (js "/a"); VObject [(js "name", VString (js "Team"))]]).
  - reflexivity.
  - discriminate.
  - constructor; [exact I|]. constructor; [|constructor]. left. reflexivity.
Defined.

(** ** What the loader returns *)

Section LoaderFacts.

Context {H : Host}.

Lemma logged_console (w : World) (message : Js.str) (debugOnly : bool) :
  Forall isConsole (logged w message debugOnly).
Proof.
  unfold logged. destruct (debugOnly && negb _); repeat constructor.
Qed.

Lemma fileWarnings_load (w : World) (files : list Js.str) :
  Forall isLoadWarning (fileWarnings w files)
  /\ length (fileWarnings w files) <= length files.
Proof.
  induction files as [|f rest [IH1 IH2]]; simpl; [split; [constructor | lia]|].
  destruct (fileError w f) as [e|]; simpl.
  - split; [|lia]. constructor; [now exists f, e | exact IH1].
  - split; [exact IH1 | lia].
Qed.

(** X5 — The loader throws only when the walk of the folder throws, and
    then it has changed nothing.  When the walk returns, no file makes it
    throw: it returns a table with one entry per key and no empty bucket,
    and of the state it changes only the trace, to which it adds at most
    one line of the log and then, in the order of the eligible files,
    one warning for each of them that failed to load, naming that file,
    and none for the others. *)
Theorem loader_throws_only_from_the_walk (snippetDir : Js.str)
  (includeJson : bool) (st : State) :
  match walk (world st) snippetDir with
  | Err e => collectSnippetsFromFolder snippetDir includeJson st = (Err e, st)
  | Ok all =>
      let files := filter (eligible includeJson) all in
      exists table logs,
        collectSnippetsFromFolder snippetDir includeJson st
        = (Ok table,
           add_events
             (logs ++ flat_map (fun file =>
                                  match fileError (world st) file with
                                  | Some e => [loadWarning file e]
                                  | None => []
                                  end) files)
             st)
        /\ wf_table table
        /\ Forall isConsole logs
        /\ length logs <= 1
  end.
Proof.
  rewrite collectSnippetsFromFolder_run.
  destruct (walk (world st) snippetDir) as [all|e]; [|reflexivity].
  cbv zeta. eexists. eexists. split; [reflexivity|].
  split; [apply wf_table_loadedFrom, wf_table_nil|].
  split; [apply logged_console|].
  unfold logged. destruct (true && negb _); cbn [length]; lia.
Qed.

Lemma addTyped_bucket (entries : list (Js.str * RawSnippet)) :
  forall (m : SnippetMap) (key : Js.str),
    bucket key (addTyped m entries)
    = bucket key m
      ++ flat_map (fun s => repeat s (filedUnder key s))
           (map (fun e => normalizeSnippet (fst e) (snd e)) entries).
Proof.
  unfold addTyped.
  induction entries as [|e rest IH]; intros m key; simpl.
  - now rewrite List.app_nil_r.
  - rewrite IH. unfold addSnippet. rewrite addSnippet_bucket.
    now rewrite <- List.app_assoc.
Qed.

Lemma loadedFrom_bucket (w : World) (files : list Js.str) :
  forall (m : SnippetMap) (key : Js.str),
    bucket key (loadedFrom w files m)
    = bucket key m
      ++ flat_map (fun s => repeat s (filedUnder key s)) (snippetsOf w files).
Proof.
  unfold loadedFrom, snippetsOf.
  induction files as [|f rest IH]; intros m key; simpl.
  - now rewrite List.app_nil_r.
  - rewrite IH, addTyped_bucket, flat_map_app. now rewrite <- List.app_assoc.
Qed.

Lemma addEntries_conforming (first : list (Js.str * RawSnippet))
  (rest : list (Js.str * Entry)) :
  forall map : SnippetMap,
    addEntries map (conforming first ++ rest)
    = addEntries (addTyped map first) rest.
Proof.
  unfold conforming, addTyped.
  induction first as [|[name raw] r IH]; intros map; cbn [List.map app fold_left];
    [reflexivity|].
  cbn [addEntries fst snd]. apply IH.
Qed.

(** C4 — A file that is not of the required shape is not always skipped,
    and not always warned about.  When an entry of the file makes
    [normalizeSnippet] throw, the loader shows the warning for the file
    and yet keeps in the map the snippets of the entries before that
    one, filed under their languages, where a file that cannot be read
    or parsed adds none.  When an entry only lacks its [prefix], nothing
    throws: the loader shows no warning and files the snippet like any
    other, with the one prefix [undefined]. *)
Theorem file_of_wrong_shape_is_not_skipped
  (map : SnippetMap) (file text : Js.str) (st : State)
  (first : list (Js.str * RawSnippet)) :
  readFileSync (world st) file = Ok text ->
  Js.truthy (Js.trim text) = true ->
  (forall name err rest,
      parseEntries text = Ok (conforming first ++ (name, Throws err) :: rest) ->
      loadFile map file st
      = (Ok (addTyped map first), add_event (loadWarning file err) st))
  /\ (forall name raw,
        parseEntries text = Ok (conforming first) ->
        In (name, raw) first -> raw_prefix raw = One PUndefined ->
        loadFile map file st = (Ok (addTyped map first), st)
        /\ prefixes (normalizeSnippet name raw) = [PUndefined])
  /\ (forall name raw lang,
        In (name, raw) first ->
        In lang (languages (normalizeSnippet name raw)) ->
        In (normalizeSnippet name raw)
           (bucket (toLowerCase lang) (addTyped map first))).
Proof.
  intros Hread Htext. split; [|split].
  - intros name err rest Hparse.
    unfold loadFile, bind, gets, modify, ret. cbv beta.
    rewrite Hread, Htext. cbn [negb]. rewrite Hparse, addEntries_conforming.
    reflexivity.
  - intros name raw Hparse Hin Hpre. split.
    + unfold loadFile, bind, gets, modify, ret. cbv beta.
      rewrite Hread, Htext. cbn [negb]. rewrite Hparse.
      rewrite <- (List.app_nil_r (conforming first)), addEntries_conforming.
      reflexivity.
    + unfold normalizeSnippet. cbn [prefixes]. now rewrite Hpre.
  - intros name raw lang Hin Hlang. rewrite addTyped_bucket.
    apply in_or_app. right. apply in_flat_map.
    exists (normalizeSnippet name raw). split.
    + apply (in_map (fun e => normalizeSnippet (fst e) (snd e)) first (name, raw)).
      exact Hin.
    + unfold filedUnder.
      assert (Hc : count_occ str_eq_dec
                     (List.map toLowerCase (languages (normalizeSnippet name raw)))
                     (toLowerCase lang) > 0).
      { apply count_occ_In. now apply in_map. }
      destruct (count_occ _ _ _); [lia | now left].
Qed.

(** X6 — The bucket the loader returns under a key holds the snippets
    filed under that key in the order of the walk and, within a file, in
    the order of the entries of its object: each snippet as often as its
    languages lower-case to the key.  A file that throws gives the
    entries before the one that throws. *)
Theorem loaded_buckets_follow_the_files (snippetDir : Js.str)
  (includeJson : bool) (st : State) (table : SnippetMap) :
  fst (collectSnippetsFromFolder snippetDir includeJson st) = Ok table ->
  exists all,
    walk (world st) snippetDir = Ok all
    /\ forall key,
         bucket key table
         = flat_map (fun s => repeat s (filedUnder key s))
             (snippetsOf (world st) (filter (eligible includeJson) all)).
Proof.
  rewrite collectSnippetsFromFolder_run.
  destruct (walk (world st) snippetDir) as [all|e]; [|discriminate].
  cbv zeta. cbn [fst]. intros [= <-]. exists all. split; [reflexivity|].
  intros key. now rewrite loadedFrom_bucket.
Qed.

Lemma mergeInto_bucket (repoMap : SnippetMap) :
  forall (aggregateMap : SnippetMap) (key : Js.str),
    bucket key (mergeInto aggregateMap repoMap)
    = bucket key aggregateMap
      ++ flat_map (fun e => if Js.eqb (fst e) key then snd e else []) repoMap.
Proof.
  unfold mergeInto.
  induction repoMap as [|[k xs] rest IH]; intros agg key; simpl.
  - now rewrite List.app_nil_r.
  - rewrite IH, bucket_push.
    destruct (Js.eqb k key); [now rewrite <- List.app_assoc | reflexivity].
Qed.

Lemma flat_map_absent (repoMap : SnippetMap) (key : Js.str) :
  ~ In key (JsMap.keys repoMap) ->
  flat_map (fun e => if Js.eqb (fst e) key then snd e else []) repoMap = [].
Proof.
  induction repoMap as [|[k xs] rest IH]; simpl; intros Hn; [reflexivity|].
  destruct (Js.eqb k key) eqn:E.
  - apply Js_eqb_eq in E. elim Hn. now left.
  - apply IH. intros Hin. apply Hn. now right.
Qed.

Lemma mergeInto_keys (repoMap : SnippetMap) :
  forall aggregateMap : SnippetMap,
    NoDup (JsMap.keys repoMap) ->
    JsMap.keys (mergeInto aggregateMap repoMap)
    = JsMap.keys aggregateMap
      ++ filter (fun k => negb (JsMap.has k aggregateMap)) (JsMap.keys repoMap).
Proof.
  unfold mergeInto.
  induction repoMap as [|[k xs] rest IH]; intros agg Hnd; simpl.
  - now rewrite List.app_nil_r.
  - inversion Hnd as [|? ? Hk Hrest]; subst. rewrite (IH _ Hrest), keys_push.
    assert (Hf : forall l,
               ~ In k l ->
               filter (fun k0 => negb (JsMap.has k0 (JsMap.push k xs agg))) l
               = filter (fun k0 => negb (JsMap.has k0 agg)) l).
    { intros l Hl. apply filter_ext_in. intros k0 Hin. f_equal.
      assert (Hne : k <> k0) by (intros ->; contradiction).
      pose proof (bucket_push k k0 xs agg) as Hb.
      unfold JsMap.has.
      pose proof (get_None_keys k0 (JsMap.push k xs agg)) as H1.
      pose proof (get_None_keys k0 agg) as H2.
      rewrite keys_push in H1.
      destruct (JsMap.get k0 (JsMap.push k xs agg)) eqn:E1;
        destruct (JsMap.get k0 agg) eqn:E2; try reflexivity; exfalso.
      - assert (Hx : ~ In k0 (JsMap.keys agg)) by now apply H2.
        assert (Hy : ~ (None = None :> option (list TeamSnippet)) -> False)
          by tauto.
        destruct (JsMap.has k agg).
        + assert (Hz : Some l0 = None -> False) by discriminate.
          apply Hz, H1. exact Hx.
        + assert (Hz : Some l0 = None -> False) by discriminate.
          apply Hz, H1. rewrite in_app_iff. intros [Hi|[Hi|[]]]; auto.
      - assert (Hx : ~ In k0 (if JsMap.has k agg then JsMap.keys agg
                               else JsMap.keys agg ++ [k])) by now apply H1.
        assert (Hz : Some l0 = None -> False) by discriminate.
        apply Hz, H2. intros Hi. apply Hx.
        destruct (JsMap.has k agg); [exact Hi | apply in_or_app; now left]. }
    rewrite (Hf _ Hk).
    destruct (JsMap.has k agg); cbn [negb]; [reflexivity|].
    now rewrite <- List.app_assoc.
Qed.

Lemma mergeInto_appends (aggregateMap repoMap : SnippetMap) (key : Js.str) :
  NoDup (JsMap.keys repoMap) ->
  bucket key (mergeInto aggregateMap repoMap)
  = bucket key aggregateMap ++ bucket key repoMap.
Proof.
  intros Hnd. rewrite mergeInto_bucket. f_equal.
  clear aggregateMap. induction repoMap as [|[k xs] rest IH]; [reflexivity|].
  inversion Hnd as [|? ? Hk Hrest]; subst. cbn [flat_map fst snd].
  unfold bucket at 1. cbn [JsMap.get]. fold (@JsMap.get (list TeamSnippet)).
  destruct (Js.eqb k key) eqn:E.
  - apply Js_eqb_eq in E. subst key.
    rewrite (flat_map_absent rest k Hk). now rewrite List.app_nil_r.
  - cbn [app]. now apply IH.
Qed.

(** X7 — Merging the table of a source into the aggregate appends, under
    every key, the bucket of the source to the bucket of the aggregate:
    nothing is dropped, reordered or deduplicated, so a snippet two
    sources share is offered twice.  The keys the aggregate had stay
    where they were and the new keys follow in the order of the source. *)
Theorem merge_appends_source_buckets (aggregateMap repoMap : SnippetMap) :
  NoDup (JsMap.keys repoMap) ->
  (forall key,
      bucket key (mergeInto aggregateMap repoMap)
      = bucket key aggregateMap ++ bucket key repoMap)
  /\ JsMap.keys (mergeInto aggregateMap repoMap)
     = JsMap.keys aggregateMap
       ++ filter (fun k => negb (JsMap.has k aggregateMap)) (JsMap.keys repoMap)
  /\ countTotalSnippets (mergeInto aggregateMap repoMap)
     = countTotalSnippets aggregateMap + countTotalSnippets repoMap.
Proof.
  intros Hnd. split; [|split].
  - intros key. now apply mergeInto_appends.
  - now apply mergeInto_keys.
  - apply mergeInto_count.
Qed.

End LoaderFacts.

(** C4 (witness): in [half.json] the second value is [null]: the loader
    warns about the file and keeps the snippet of its first entry.  The
    only entry of [bare.json] has no [prefix]: the loader files it and
    warns about nothing. *)
Lemma file_of_wrong_shape_is_not_skipped_witness :
  loadFile (H := Demo.host) [] Demo.halfFile Demo.startHalf
  = (Ok [(js "*", [normalizeSnippet (js "Todo") Demo.todoSnippet])],
     add_event
       (loadWarning Demo.halfFile
          (js "Cannot read properties of null (reading 'prefix')"))
       Demo.startHalf)
  /\ loadFile (H := Demo.host) [] DemoMore.bareFile DemoMore.startBare
     = (Ok [(js "*", [normalizeSnippet (js "Bare") Demo.bareSnippet])],
        DemoMore.startBare)
  /\ prefixes (normalizeSnippet (js "Bare") Demo.bareSnippet) = [PUndefined].
Proof.
  pose proof (@file_of_wrong_shape_is_not_skipped Demo.host [] Demo.halfFile
                (js "{Todo,null}") Demo.startHalf
                [(js "Todo", Demo.todoSnippet)]) as W.
  by_evaluation W. by_evaluation W. destruct W as (W & _).
  pose proof (@file_of_wrong_shape_is_not_skipped Demo.host [] DemoMore.bareFile
                (js "{Bare}") DemoMore.startBare
                [(js "Bare", Demo.bareSnippet)]) as V.
  by_evaluation V. by_evaluation V. destruct V as (_ & V & _).
  destruct (V (js "Bare") Demo.bareSnippet) as (V1 & V2);
    [vm_compute; reflexivity | now left | reflexivity |].
  split; [|split; [|exact V2]].
  - rewrite (W (js "Broken")
               (js "Cannot read properties of null (reading 'prefix')") []);
      [reflexivity | vm_compute; reflexivity].
  - rewrite V1. reflexivity.
Defined.

(** X6 (witness): the snippets folder of the demo, loaded with the JSON
    files. *)
Lemma loaded_buckets_follow_the_files_witness :
  exists all,
    walk (H := Demo.host) (world Demo.start) (js "/a/snippets") = Ok all
    /\ forall key,
         bucket key (loadedFrom (H := Demo.host) (world Demo.start)
                       (filter (eligible true) all) [])
         = flat_map (fun s => repeat s (filedUnder (H := Demo.host) key s))
             (snippetsOf (H := Demo.host) (world Demo.start)
                (filter (eligible true) all)).
Proof.
  pose proof (@loaded_buckets_follow_the_files Demo.host (js "/a/snippets") true
                Demo.start
                (loadedFrom (H := Demo.host) (world Demo.start)
                   (filter (eligible true)
                      match walk (H := Demo.host) (world Demo.start)
                              (js "/a/snippets") with
                      | Ok all => all
                      | Err _ => []
                      end) [])) as W.
  by_evaluation W.
  destruct W as (all & Ew & Hb). exists all. split; [exact Ew|].
  intros key. rewrite <- Hb. f_equal.
  revert Ew. destruct (walk (world Demo.start) (js "/a/snippets"));
    [now intros [= ->] | discriminate].
Defined.

(** X7 (witness): the table of the demo merged into itself. *)
Lemma merge_appends_source_buckets_witness :
  bucket (js "javascript") (mergeInto Demo.tableA Demo.tableA)
  = bucket (js "javascript") Demo.tableA ++ bucket (js "javascript") Demo.tableA.
Proof.
  assert (Hnd : NoDup (JsMap.keys Demo.tableA)).
  { assert (E : uniq (JsMap.keys Demo.tableA) = JsMap.keys Demo.tableA)
      by (vm_compute; reflexivity).
    rewrite <- E. apply uniq_from_NoDup. }
  exact (proj1 (merge_appends_source_buckets Demo.tableA Demo.tableA Hnd)
           (js "javascript")).
Defined.

(** ** What a cycle leaves behind *)

Section CycleFacts.

Context {H : Host}.



Lemma forOf_step {A B} (body : B -> A -> M B) (x : A) (rest : list A)
  (acc : B) (st : State) :
  forOf body (x :: rest) acc st
  = match body acc x st with
    | (Ok acc', st') => forOf body rest acc' st'
    | (Err e, st') => (Err e, st')
    end.
Proof. reflexivity. Qed.








Lemma forOf_syncRepo_world_off (repos : list RepoConfig) :
  forall (aggregateMap : SnippetMap) (st : State),
    world (snd (forOf (syncRepo false) repos aggregateMap st)) = world st.
Proof.
  induction repos as [|r rest IH]; intros agg st; [reflexivity|].
  rewrite forOf_step.
  pose proof (world_syncRepo false agg r st) as W. cbv zeta in W.
  assert (W' : world (snd (syncRepo false agg r st)) = world st).
  { rewrite W. now destruct (notGitRepo _ _). }
  destruct (syncRepo false agg r st) as [[agg1|e] st1]; cbn [snd] in *.
  - now rewrite IH.
  - exact W'.
Qed.

Lemma updateStatusBar_frame (st : State) :
  let st' := snd (updateStatusBar st) in
  events st' = events st /\ world st' = world st
  /\ snippetMap st' = snippetMap st /\ repoStatuses st' = repoStatuses st
  /\ providerDisposables st' = providerDisposables st
  /\ repoWatchers st' = repoWatchers st.
Proof.
  unfold updateStatusBar, modify. cbn [snd].
  destruct (length (JsMap.values (repoStatuses st)) =? 0)%nat;
    repeat split; reflexivity.
Qed.

(** A cycle over sources, when its loop ends: the state without the
    notification, and with it. *)
Lemma syncAllRepos_completed (allowGitPull : bool) (st st2 : State)
  (repos : list RepoConfig) (aggregateMap : SnippetMap)
  (providers : list Provider) :
  getRepoConfigs (getConfiguration (world st)) = Ok repos ->
  repos <> [] ->
  forOf (syncRepo allowGitPull) repos []
        (set_repoWatchers [] (set_repoStatuses [] st)) = (Ok aggregateMap, st2) ->
  registrations aggregateMap = (providers, None) ->
  exists message,
    let st3 :=
      snd (updateStatusBar
             (set_providerDisposables providers
                (add_events (logged (world st2) message true)
                   (set_providerDisposables []
                      (set_snippetMap aggregateMap st2))))) in
    syncAllRepos false allowGitPull st = (Ok tt, st3)
    /\ syncAllRepos true allowGitPull st
       = (Ok tt, add_event (closingNotice repos st3) st3).
Proof.
  intros E Hne Hloop Hreg. eexists. cbv zeta.
  unfold syncAllRepos, disposeWatchers, disposeProviders,
    registerCompletionProviders, bind, gets, lift, modify.
  cbv beta match zeta. rewrite E. destruct repos as [|r0 rest]; [now elim Hne|].
  unfold ret. cbv beta match.
  change (length (r0 :: rest) =? 0)%nat with false. cbv beta match.
  rewrite Hloop. cbv beta match. rewrite Hreg. unfold bind, ret.
  rewrite log_run. cbv beta match.
  unfold closingNotice.
  change (length (r0 :: rest) =? 0)%nat with false. cbv beta match.
  unfold updateStatusBar, modify. cbv beta match. cbn [when_ snd].
  split; reflexivity.
Qed.

(** A cycle without sources. *)
Lemma syncAllRepos_none (allowGitPull : bool) (st : State) :
  getRepoConfigs (getConfiguration (world st)) = Ok [] ->
  let st3 :=
    snd (updateStatusBar
           (set_repoWatchers []
              (set_providerDisposables []
                 (set_repoStatuses [] (set_snippetMap [] st))))) in
  syncAllRepos false allowGitPull st = (Ok tt, st3)
  /\ syncAllRepos true allowGitPull st
     = (Ok tt, add_event (closingNotice [] st3) st3).
Proof.
  intros E. cbv zeta.
  unfold syncAllRepos, disposeWatchers, disposeProviders, updateStatusBar,
    bind, gets, lift, modify.
  cbv beta match. rewrite E. unfold ret. cbv beta match.
  change (length (@nil RepoConfig) =? 0)%nat with true. cbv beta match.
  cbn [when_]. cbv beta match. split; reflexivity.
Qed.

End CycleFacts.

Lemma set_set {V} (k : Js.str) (v v0 : V) (m : JsMap.t V) :
  JsMap.set k v (JsMap.set k v0 m) = JsMap.set k v m.
Proof.
  induction m as [|[k' v'] r IH]; simpl.
  - now rewrite Js_eqb_refl.
  - destruct (Js.eqb k' k) eqn:E; simpl; rewrite E; [reflexivity | now rewrite IH].
Qed.

Section CycleResults.

Context {H : Host}.

Lemma statusOf_more (l repos : list RepoConfig) (e : Js.str * RepoStatus) :
  incl l repos -> statusOf l e -> statusOf repos e.
Proof.
  intros Hi (H1 & (repo & Hin & H2) & H3). split; [exact H1|]. split; [|exact H3].
  exists repo. split; auto.
Qed.



Lemma statusOf_error (repo : RepoConfig) (e : Js.str) :
  e <> [] -> statusOf [repo] (rc_id repo, with_lastError e (newStatus repo)).
Proof.
  intros He. split; [reflexivity|]. split; [|exact He].
  exists repo. repeat split. now left.
Qed.

Lemma statusOf_missing (repo : RepoConfig) (err : option Js.str) (dir : Js.str) :
  (forall e, err = Some e -> Js.truthy e = true) ->
  statusOf [repo] (rc_id repo, missingStatus repo err dir).
Proof.
  intros Ht. unfold missingStatus. cbv zeta.
  rewrite lastError_pulledStatus. destruct err as [e|]; cbn [truthy_opt].
  - rewrite (Ht e eq_refl). cbn [negb pulledStatus]. apply statusOf_error.
    apply truthy_nonempty. now apply Ht.
  - cbn [negb pulledStatus]. apply statusOf_error. rewrite lit_cons. discriminate.
Qed.

Lemma statusOf_loaded (repo : RepoConfig) (err : option Js.str)
  (repoMap : SnippetMap) (now : N) :
  (forall e, err = Some e -> Js.truthy e = true) ->
  statusOf [repo] (rc_id repo, loadedStatus repo err repoMap now).
Proof.
  intros Ht. unfold loadedStatus. cbv zeta.
  destruct err as [e|]; cbn [pulledStatus with_snippetCount with_lastError
                              newStatus lastError truthy_opt].
  - rewrite (Ht e eq_refl). cbn [negb]. split; [reflexivity|]. split.
    + exists repo. repeat split. now left.
    + cbn. apply truthy_nonempty. now apply Ht.
  - cbn [negb]. split; [reflexivity|]. split; [|exact I].
    exists repo. repeat split. now left.
Qed.

(** The statuses after a turn: the turn stores one status for its
    source, or, when it throws before it stores one, none. *)
Lemma syncRepo_statuses (allowGitPull : bool) (aggregateMap : SnippetMap)
  (repo : RepoConfig) (st : State) :
  let run := syncRepo allowGitPull aggregateMap repo st in
  (exists s,
      repoStatuses (snd run) = JsMap.set (rc_id repo) s (repoStatuses st)
      /\ statusOf [repo] (rc_id repo, s))
  \/ (repoStatuses (snd run) = repoStatuses st /\ exists e, fst run = Err e).
Proof.
  cbv zeta. rewrite syncRepo_run. cbv zeta.
  set (repoPath := resolveRepoPath (world st) (localRepoPath repo)).
  destruct (notGitRepo (world st) repoPath).
  { left. eexists. split; [reflexivity|]. apply statusOf_error.
    rewrite lit_cons. discriminate. }
  pose proof (repoStatuses_pulledState allowGitPull repo repoPath st) as Rs.
  pose proof (@pullError_truthy _ allowGitPull repo repoPath (world st)) as Ht.
  set (err := pullError allowGitPull repo repoPath (world st)) in *.
  set (st1 := pulledState allowGitPull repo repoPath st) in *.
  assert (Hset : forall s,
             JsMap.set (rc_id repo) s (repoStatuses st1)
             = JsMap.set (rc_id repo) s (repoStatuses st)).
  { intros s. rewrite Rs. destruct err; [apply set_set | reflexivity]. }
  destruct (negb (existsSync _ _)).
  { left. eexists. split; [cbn [snd store set_repoStatuses repoStatuses];
                           apply Hset|].
    now apply statusOf_missing. }
  destruct (walk _ _) as [all|e].
  - left. eexists. split.
    + cbn [snd store set_repoStatuses set_repoWatchers repoStatuses add_events].
      apply Hset.
    + now apply statusOf_loaded.
  - cbn [snd fst]. rewrite Rs. destruct err as [pe|] eqn:Ee.
    + left. eexists. split; [reflexivity|]. apply statusOf_error.
      apply truthy_nonempty. now apply Ht.
    + right. split; [reflexivity|]. now exists e.
Qed.

Lemma get_app_absent {V} (k : Js.str) (m l : JsMap.t V) :
  JsMap.get k m = None -> JsMap.get k (m ++ l) = JsMap.get k l.
Proof.
  induction m as [|[k' v'] r IH]; simpl; [reflexivity|].
  destruct (Js.eqb k' k); [discriminate | exact IH].
Qed.

(** When the loop ends, it has stored one status per source, in the
    order of the sources. *)
Lemma forOf_syncRepo_statuses (allowGitPull : bool) (repos : list RepoConfig)
  (l : list RepoConfig) :
  incl l repos ->
  forall (aggregateMap agg' : SnippetMap) (st st' : State),
    NoDup (map rc_id l) ->
    (forall r, In r l -> JsMap.get (rc_id r) (repoStatuses st) = None) ->
    forOf (syncRepo allowGitPull) l aggregateMap st = (Ok agg', st') ->
    exists added,
      repoStatuses st' = repoStatuses st ++ added
      /\ JsMap.keys added = map rc_id l
      /\ Forall (statusOf repos) added.
Proof.
  induction l as [|r rest IH]; intros Hi agg agg' st st' Hnd Hnone Hrun.
  - injection Hrun as <- <-. exists []. split; [now rewrite List.app_nil_r|].
    split; [reflexivity | constructor].
  - rewrite forOf_step in Hrun.
    pose proof (syncRepo_statuses allowGitPull agg r st) as Hs. cbv zeta in Hs.
    pose proof (fun id => @syncRepo_other_statuses _ allowGitPull agg r st id)
      as Ho.
    destruct (syncRepo allowGitPull agg r st) as [[agg1|e] st1];
      [|discriminate]. cbn [fst snd] in *.
    destruct Hs as [(s & Es & Hs) | (_ & e & He)]; [|discriminate].
    inversion Hnd as [|? ? Hr Hrest]; subst.
    assert (Hi' : incl rest repos) by (intros x Hx; apply Hi; now right).
    destruct (IH Hi' agg1 agg' st1 st' Hrest) as (added & Ea & Ek & Hf).
    + intros r' Hin. rewrite Ho.
      * apply Hnone. now right.
      * intros E. apply Hr. rewrite <- E. now apply in_map.
    + exact Hrun.
    + rewrite values_set_absent in Es by (apply Hnone; now left).
      exists ((rc_id r, s) :: added). split; [|split].
      * rewrite Ea, Es, <- List.app_assoc. reflexivity.
      * cbn. now rewrite <- Ek.
      * constructor; [|exact Hf].
        eapply statusOf_more; [|exact Hs]. intros x [<-|[]]. apply Hi. now left.
Qed.






End CycleResults.

Section CycleTheorems.

Context {H : Host}.


(** X9 — Asking a cycle to notify changes one thing: when the cycle
    completes, one message closes the trace, the warning that nothing is
    configured or the count of what was loaded, computed from the state
    the cycle publishes.  A cycle that throws shows nothing more than the
    silent one. *)
Theorem notification_adds_one_closing_message (allowGitPull : bool)
  (st : State) :
  match syncAllRepos false allowGitPull st with
  | (Ok _, st') =>
      exists repos,
        getRepoConfigs (getConfiguration (world st)) = Ok repos
        /\ syncAllRepos true allowGitPull st
           = (Ok tt, add_event (closingNotice repos st') st')
  | (Err e, st') => syncAllRepos true allowGitPull st = (Err e, st')
  end.
Proof.
  destruct (getRepoConfigs (getConfiguration (world st))) as [repos|e] eqn:E.
  2:{ rewrite !(syncAllRepos_config_error _ allowGitPull st E). reflexivity. }
  destruct repos as [|r0 rest].
  - destruct (syncAllRepos_none allowGitPull st E) as [E0 E1]. rewrite E0.
    exists []. now split.
  - assert (Hne : r0 :: rest <> []) by discriminate.
    destruct (forOf (syncRepo allowGitPull) (r0 :: rest) []
                (set_repoWatchers [] (set_repoStatuses [] st)))
      as [[agg|e] st2] eqn:Hloop.
    + destruct (registrations agg) as [made [e|]] eqn:Hreg.
      { now rewrite !(syncAllRepos_unregistered _ allowGitPull st E Hne Hloop
                        Hreg). }
      destruct (syncAllRepos_completed allowGitPull st E Hne Hloop Hreg)
        as (message & E0 & E1).
      rewrite E0. exists (r0 :: rest). now split.
    + rewrite !(syncAllRepos_threw _ allowGitPull st E Hne Hloop). reflexivity.
Qed.


(** X11 — A cycle that completes has stored one status per configured
    source, in the order of the sources and under their ids.  For a
    cycle that runs from its first step to its last with no step of
    another cycle in between, as [syncAllRepos] runs it here, these are
    all the statuses there are when it completes: those of the cycle
    before are gone.  Each status has the id and the name of
    its source and either an error that is not empty or the time of the
    load, never both and never neither: a source whose pull failed while
    its files loaded keeps the error and gets no time. *)
Theorem completed_cycle_has_one_status_per_source
  (showNotifications allowGitPull : bool) (st st' : State)
  (repos : list RepoConfig) :
  syncAllRepos showNotifications allowGitPull st = (Ok tt, st') ->
  getRepoConfigs (getConfiguration (world st)) = Ok repos ->
  JsMap.keys (repoStatuses st') = map rc_id repos
  /\ Forall (statusOf repos) (repoStatuses st').
Proof.
  intros Hrun E. destruct repos as [|r0 rest].
  - destruct (syncAllRepos_empty showNotifications allowGitPull st E)
      as (st1 & E1 & _ & Es & _).
    rewrite E1 in Hrun. injection Hrun as <-. rewrite Es.
    split; [reflexivity | constructor].
  - assert (Hne : r0 :: rest <> []) by discriminate.
    destruct (forOf (syncRepo allowGitPull) (r0 :: rest) []
                (set_repoWatchers [] (set_repoStatuses [] st)))
      as [[agg|e] st2] eqn:Hloop.
    + destruct (registrations agg) as [made [e|]] eqn:Hreg;
        [rewrite (syncAllRepos_unregistered showNotifications allowGitPull st E Hne
                    Hloop Hreg) in Hrun; discriminate|].
      destruct (syncAllRepos_published showNotifications allowGitPull st E Hne Hloop
                  Hreg)
        as (st1 & E1 & _ & Es & _).
      rewrite E1 in Hrun. injection Hrun as <-. rewrite Es.
      destruct (@forOf_syncRepo_statuses _ allowGitPull (r0 :: rest) (r0 :: rest)
                  (incl_refl _) [] agg
                  (set_repoWatchers [] (set_repoStatuses [] st)) st2
                  (getRepoConfigs_NoDup _ E) (fun r _ => eq_refl) Hloop)
        as (added & Ea & Ek & Hf).
      cbn [repoStatuses set_repoWatchers set_repoStatuses app] in Ea.
      rewrite Ea. now split.
    + rewrite (syncAllRepos_threw showNotifications allowGitPull st E Hne Hloop)
        in Hrun. discriminate.
Qed.


(** X13 — When a cycle completes, the status bar shows the circle with a
    slash exactly when no source is configured; otherwise it shows the
    warning sign when some status then held has an error and the check
    mark when none has, followed by the number of snippets of the table
    the cycle published. *)
Theorem status_bar_after_a_cycle
  (showNotifications allowGitPull : bool) (st st' : State)
  (repos : list RepoConfig) :
  syncAllRepos showNotifications allowGitPull st = (Ok tt, st') ->
  getRepoConfigs (getConfiguration (world st)) = Ok repos ->
  let failed :=
    filter (fun s => truthy_opt (lastError s)) (JsMap.values (repoStatuses st')) in
  let total := Js.ofN (N.of_nat (countTotalSnippets (snippetMap st'))) in
  statusBarText st'
  = match repos, failed with
    | [], _ => js "$(circle-slash) HexSnippets"
    | _ :: _, [] => js "$(check) HexSnippets (" ++ total ++ js ")"
    | _ :: _, _ :: _ => js "$(warning) HexSnippets (" ++ total ++ js ")"
    end.
Proof.
  intros Hrun E. cbv zeta. destruct repos as [|r0 rest].
  - destruct (syncAllRepos_none allowGitPull st E) as [E0 E1].
    destruct showNotifications; [rewrite E1 in Hrun | rewrite E0 in Hrun];
      injection Hrun as <-; reflexivity.
  - assert (Hne : r0 :: rest <> []) by discriminate.
    set (st0 := set_repoWatchers [] (set_repoStatuses [] st)).
    destruct (forOf (syncRepo allowGitPull) (r0 :: rest) [] st0)
      as [[agg|e] st2] eqn:Hloop.
    2:{ rewrite (syncAllRepos_threw showNotifications allowGitPull st E Hne Hloop)
          in Hrun. discriminate. }
    destruct (@forOf_syncRepo_statuses _ allowGitPull (r0 :: rest) (r0 :: rest)
                (incl_refl _) [] agg st0 st2
                (getRepoConfigs_NoDup _ E) (fun r _ => eq_refl) Hloop)
      as (added & Ea & Ek & _).
    assert (Hlen : (length (JsMap.values (repoStatuses st2)) =? 0)%nat = false).
    { rewrite Ea. cbn [repoStatuses st0 set_repoWatchers set_repoStatuses app].
      destruct added; [discriminate | reflexivity]. }
    destruct (registrations agg) as [made [e|]] eqn:Hreg;
      [rewrite (syncAllRepos_unregistered showNotifications allowGitPull st E Hne
                  Hloop Hreg) in Hrun; discriminate|].
    destruct (syncAllRepos_completed allowGitPull st E Hne Hloop Hreg)
      as (message & E0 & E1).
    assert (Hst : exists ev,
               st' = add_events ev
                 (snd (updateStatusBar
                         (set_providerDisposables made
                            (add_events (logged (world st2) message true)
                               (set_providerDisposables []
                                  (set_snippetMap agg st2))))))).
    { destruct showNotifications; [rewrite E1 in Hrun | rewrite E0 in Hrun];
        injection Hrun as <-.
      - eexists. apply add_event_events.
      - exists []. symmetry. apply add_events_nil. }
    destruct Hst as (ev & ->).
    unfold updateStatusBar, modify.
    cbn [snd add_events statusBarText repoStatuses snippetMap
         set_providerDisposables set_snippetMap].
    rewrite Hlen. cbv zeta.
    cbn [statusBarText repoStatuses set_statusBar add_events
         set_providerDisposables set_snippetMap].
    destruct (filter _ _); reflexivity.
Qed.

End CycleTheorems.


(** X11 (witness): the demo cycle stores a status for [/a] and one for
    [/b]. *)
Lemma completed_cycle_has_one_status_per_source_witness :
  JsMap.keys (repoStatuses (snd (syncAllRepos (H := Demo.host) true true
                                   Demo.start)))
  = [js "repo-0"; js "repo-1"].
Proof.
  assert (H1 : syncAllRepos (H := Demo.host) true true Demo.start
               = (Ok tt, snd (syncAllRepos (H := Demo.host) true true Demo.start)))
    by (vm_compute; reflexivity).
  assert (H2 : getRepoConfigs (@getConfiguration Demo.host (world Demo.start))
               = Ok [Demo.repoA; Demo.repoB])
    by (vm_compute; reflexivity).
  exact (proj1 (@completed_cycle_has_one_status_per_source Demo.host true true
                  Demo.start _ _ H1 H2)).
Defined.


(** X13 (witness): the demo cycle loads two snippets and [/b] fails. *)
Lemma status_bar_after_a_cycle_witness :
  statusBarText (snd (syncAllRepos (H := Demo.host) true true Demo.start))
  = js "$(warning) HexSnippets (2)".
Proof.
  assert (H1 : syncAllRepos (H := Demo.host) true true Demo.start
               = (Ok tt, snd (syncAllRepos (H := Demo.host) true true Demo.start)))
    by (vm_compute; reflexivity).
  assert (H2 : getRepoConfigs (@getConfiguration Demo.host (world Demo.start))
               = Ok [Demo.repoA; Demo.repoB])
    by (vm_compute; reflexivity).
  rewrite (@status_bar_after_a_cycle Demo.host true true Demo.start _ _ H1 H2).
  vm_compute. reflexivity.
Defined.

(** ** A pull that fails *)

Section FailedPull.

Context {H : Host}.

(** X14 — A pull that fails does not stop the turn: the error, with the
    output of the command, is recorded as [git pull failed: ...], the
    files that are on disk after the attempt are loaded and merged, and
    the status is stored with their count, with the error and without a
    time of load. *)
Theorem failed_pull_still_loads (aggregateMap : SnippetMap) (repo : RepoConfig)
  (st : State) (all : list Js.str) (message stdout stderr : Js.str) :
  let repoPath := resolveRepoPath (world st) (localRepoPath repo) in
  let out := execFile (js "git") (pullArgs repoPath (branch repo)) (world st) in
  let snippetDir := join repoPath (snippetsPath repo) in
  let repoMap :=
    loadedFrom (fst out) (filter (eligible (includeJsonFiles repo)) all) [] in
  notGitRepo (world st) repoPath = false ->
  enableGitPull repo = true ->
  snd out = Some (message, stdout, stderr) ->
  existsSync (fst out) snippetDir = true ->
  walk (fst out) snippetDir = Ok all ->
  let turn := syncRepo true aggregateMap repo st in
  fst turn = Ok (mergeInto aggregateMap repoMap)
  /\ world (snd turn) = fst out
  /\ JsMap.get (rc_id repo) (repoStatuses (snd turn))
     = Some {| rs_id := rc_id repo; rs_name := rc_name repo;
               lastSync := None;
               lastError :=
                 Some (js "git pull failed: " ++ message ++ js " | stdout: "
                       ++ stdout ++ js " | stderr: " ++ stderr);
               snippetCount := countTotalSnippets repoMap |}.
Proof.
  intros repoPath out snippetDir repoMap Hg Hp Hout Hx Hw turn.
  assert (Ew : world (pulledState true repo repoPath st) = fst out).
  { rewrite world_pulledState. unfold pullWorld, pulls. rewrite Hp. reflexivity. }
  assert (Ee : pullError true repo repoPath (world st)
               = Some (js "git pull failed: " ++ message ++ js " | stdout: "
                       ++ stdout ++ js " | stderr: " ++ stderr)).
  { unfold pullError, pulls. rewrite Hp. cbn [andb]. fold out. now rewrite Hout. }
  pose proof (@syncRepo_loaded _ true aggregateMap repo st all) as L.
  cbv zeta in L. fold repoPath in L. rewrite Ew in L. fold snippetDir in L.
  specialize (L Hg Hx Hw). unfold turn. rewrite L. cbn [fst snd]. split; [reflexivity|].
  split.
  - cbn [world set_repoWatchers store set_repoStatuses add_events]. exact Ew.
  - cbn [repoStatuses set_repoWatchers store set_repoStatuses].
    rewrite get_set_eq. f_equal. rewrite Ee. unfold loadedStatus. cbv zeta.
    cbn [pulledStatus with_snippetCount with_lastError newStatus lastError
         truthy_opt].
    rewrite lit_cons. reflexivity.
Qed.

End FailedPull.

(** X14 (witness): the demo with the remote out of reach still loads the
    two snippets of [/a]. *)
Lemma failed_pull_still_loads_witness :
  fst (syncRepo (H := DemoMore.offline) true [] Demo.repoA DemoMore.startOffline)
  = Ok Demo.tableA.
Proof.
  pose proof (@failed_pull_still_loads DemoMore.offline [] Demo.repoA
                DemoMore.startOffline
                [js "/a/snippets/demo.code-snippets"; js "/a/snippets/bad.json";
                 js "/a/snippets/notes.txt";
                 js "/a/snippets/more/todo.code-snippets"]
                (js "Command failed") [] (js "fatal: unable to access")) as W.
  cbv zeta in W.
  by_evaluation W. by_evaluation W. by_evaluation W. by_evaluation W.
  by_evaluation W.
  destruct W as (W & _). rewrite W. vm_compute. reflexivity.
Defined.

(** ** What the providers offer *)



Section Offered.

Context {H : Host}.


(** X16 — The items a loaded snippet gives: one per prefix, in order, so
    none for an empty array of prefixes, a snippet that is counted and
    never offered.  Each item inserts the body, which for a body given
    as one string is that string with every CR LF turned into LF; it is
    labelled with the name of the snippet, or with the prefix when the
    name is empty, and documented only by a description that is not
    empty. *)
Theorem items_of_a_loaded_snippet (scopeName name : Js.str) (raw : RawSnippet) :
  let items := itemsOf scopeName (normalizeSnippet name raw) in
  map filterText items
  = match raw_prefix raw with One p => [p] | Many l => l end
  /\ Forall (fun item =>
               insertText item
               = match raw_body raw with
                 | One b => dropCRbeforeLF b
                 | Many lines => Js.join [Js.LF] lines
                 end
               /\ label item
                  = (if Js.truthy name then PString name else filterText item)
               /\ sortText item = js "zzz_team_" ++ prefixText (filterText item)
               /\ detail item = js "Team Snippet (" ++ scopeName ++ js ")"
               /\ documentation item
                  = match raw_description raw with
                    | Some d => if Js.truthy d then Some d else None
                    | None => None
                    end)
            items.
Proof.
  cbv zeta. unfold itemsOf, normalizeSnippet.
  cbn [prefixes bodyLines ts_name ts_description]. split.
  - rewrite map_map. cbn [filterText]. apply map_id.
  - apply Forall_forall. intros item Hin. apply in_map_iff in Hin.
    destruct Hin as (prefix & <- & _).
    cbn [insertText label sortText detail documentation filterText].
    repeat split.
    + destruct (raw_body raw) as [b|lines]; [|reflexivity].
      rewrite split_lines_spec. unfold spec_lines. apply join_cutAt.
    + destruct (raw_description raw) as [d|]; reflexivity.
Qed.

End Offered.


(** ** The command that opens a snippets folder *)

Section OpenFolder.

Context {H : Host}.


End OpenFolder.

(** ** The timer *)

Section Timer.

Context {H : Host}.

Lemma clearSyncTimer_tracked (rt : Runtime) :
  timerTracked rt ->
  timers (clearSyncTimer rt) = [] /\ syncTimer (clearSyncTimer rt) = None
  /\ ext (clearSyncTimer rt) = ext rt
  /\ nextTimer (clearSyncTimer rt) = nextTimer rt.
Proof.
  unfold timerTracked, clearSyncTimer.
  destruct (syncTimer rt) as [handle|] eqn:Es.
  - intros (delay & Et).
    cbn [set_syncTimer clearInterval timers syncTimer ext nextTimer].
    rewrite Et. cbn [filter fst]. rewrite N.eqb_refl. now repeat split.
  - intros Et. now repeat split.
Qed.

Lemma clamped_delay (minutes : Z) :
  (0 < minutes)%Z ->
  (if (1 <=? minutes * 60000)%Z && (minutes * 60000 <=? TIMEOUT_MAX)%Z
   then (minutes * 60000)%Z else 1%Z)
  = (if (minutes <? 35792)%Z then (minutes * 60000)%Z else 1%Z).
Proof.
  intros Hm. unfold TIMEOUT_MAX.
  destruct (Z.leb_spec 1 (minutes * 60000)); [|lia].
  destruct (Z.leb_spec (minutes * 60000) 2147483647);
    destruct (Z.ltb_spec minutes 35792); cbn [andb]; try reflexivity; lia.
Qed.

(** X18 — When the only live timer is the one the extension holds,
    scheduling the automatic cycle leaves exactly one live timer or none:
    the timer from before is cleared first, and a new one is set exactly
    when the minutes of the setting (15 when it is not set) are above
    zero.  Its delay is the minutes times 60000 milliseconds below 35792
    minutes; from 35792 minutes on the product is above what a timer
    takes and the delay is one millisecond, so the cycle runs without
    pause.  Deactivation leaves no timer, no provider and no watcher. *)
Theorem at_most_one_timer_is_live (setting : option Whole) (rt : Runtime) :
  timerTracked rt ->
  let minutes := whole (nullish_or setting fifteen) in
  let rt' := scheduleAutoSync setting rt in
  timerTracked rt'
  /\ (if (0 <? minutes)%Z
      then timers rt'
           = [(nextTimer rt,
               if (minutes <? 35792)%Z then (minutes * 60000)%Z else 1%Z)]
           /\ syncTimer rt' = Some (nextTimer rt)
      else timers rt' = [] /\ syncTimer rt' = None)
  /\ timers (deactivate rt) = []
  /\ syncTimer (deactivate rt) = None
  /\ providerDisposables (ext (deactivate rt)) = []
  /\ repoWatchers (ext (deactivate rt)) = [].
Proof.
  intros Ht. cbv zeta.
  destruct (clearSyncTimer_tracked rt Ht) as (Ct & Cs & Ce & Cn).
  set (minutes := whole (nullish_or setting fifteen)).
  assert (Hs : if (0 <? minutes)%Z
               then timers (scheduleAutoSync setting rt)
                    = [(nextTimer rt,
                        if (minutes <? 35792)%Z then (minutes * 60000)%Z
                        else 1%Z)]
                    /\ syncTimer (scheduleAutoSync setting rt)
                       = Some (nextTimer rt)
               else timers (scheduleAutoSync setting rt) = []
                    /\ syncTimer (scheduleAutoSync setting rt) = None).
  { unfold scheduleAutoSync. cbv zeta. fold minutes.
    destruct (Z.ltb_spec 0 minutes) as [Hm|Hm].
    - cbn [setInterval onExt set_syncTimer timers syncTimer nextTimer].
      rewrite Ct, Cn, (clamped_delay Hm). now split.
    - cbn [onExt timers syncTimer]. now split. }
  split; [|split; [exact Hs|]].
  - unfold timerTracked. destruct (0 <? minutes)%Z.
    + destruct Hs as [-> ->]. eexists. reflexivity.
    + destruct Hs as [-> ->]. reflexivity.
  - assert (Hd : timerTracked (onExt disposeWatchers (onExt disposeProviders rt)))
      by exact Ht.
    destruct (clearSyncTimer_tracked _ Hd) as (Dt & Ds & De & _).
    unfold deactivate. rewrite Dt, Ds, De. repeat split.
Qed.

End Timer.

(** X18 (witness): with forty thousand minutes set, the one live timer
    fires every millisecond. *)
Lemma at_most_one_timer_is_live_witness :
  timers (scheduleAutoSync (Some {| whole := 40000; shown := js "40000" |})
            DemoMore.fresh)
  = [(1%N, 1%Z)]
  /\ syncTimer (scheduleAutoSync (Some {| whole := 40000; shown := js "40000" |})
                  DemoMore.fresh)
     = Some 1%N.
Proof.
  assert (Ht : timerTracked DemoMore.fresh) by reflexivity.
  exact (proj1 (proj2 (@at_most_one_timer_is_live Demo.host
                         (Some {| whole := 40000; shown := js "40000" |})
                         DemoMore.fresh Ht))).
Defined.

(** ** What a reload publishes *)

Section Reload.

Context {H : Host}.

Lemma syncRepo_reload (aggregateMap agg' : SnippetMap) (repo : RepoConfig)
  (st st' : State) (key : Js.str) :
  syncRepo false aggregateMap repo st = (Ok agg', st') ->
  world st' = world st
  /\ bucket key agg'
     = bucket key aggregateMap ++ bucket key (sourceTable (world st) repo).
Proof.
  intros Hrun.
  pose proof (world_syncRepo false aggregateMap repo st) as W. cbv zeta in W.
  rewrite Hrun in W. cbn [snd] in W.
  assert (W' : world st' = world st).
  { rewrite W. now destruct (notGitRepo _ _). }
  split; [exact W'|]. clear W W'.
  rewrite syncRepo_run in Hrun. cbv zeta in Hrun. unfold sourceTable. cbv zeta.
  set (repoPath := resolveRepoPath (world st) (localRepoPath repo)) in *.
  destruct (notGitRepo (world st) repoPath).
  { injection Hrun as <- _. cbn. now rewrite List.app_nil_r. }
  rewrite world_pulledState in Hrun. unfold pullWorld, pulls in Hrun.
  cbn [andb] in Hrun.
  destruct (negb (existsSync (world st) _)).
  { injection Hrun as <- _. cbn. now rewrite List.app_nil_r. }
  destruct (walk (world st) _) as [all|e]; [|discriminate].
  injection Hrun as <- _. apply mergeInto_appends.
  apply wf_table_loadedFrom, wf_table_nil.
Qed.

Lemma forOf_syncRepo_reload (repos : list RepoConfig) (key : Js.str) :
  forall (aggregateMap agg' : SnippetMap) (st st' : State),
    forOf (syncRepo false) repos aggregateMap st = (Ok agg', st') ->
    bucket key agg'
    = bucket key aggregateMap
      ++ flat_map (fun repo => bucket key (sourceTable (world st) repo)) repos.
Proof.
  induction repos as [|r rest IH]; intros agg agg' st st' Hrun.
  - injection Hrun as <- _. cbn. now rewrite List.app_nil_r.
  - rewrite forOf_step in Hrun.
    destruct (syncRepo false agg r st) as [[agg1|e] st1] eqn:E; [|discriminate].
    destruct (@syncRepo_reload agg agg1 r st st1 key E) as (W & B).
    rewrite (IH agg1 agg' st1 st' Hrun), B, W. cbn [flat_map].
    now rewrite <- List.app_assoc.
Qed.

(** X19 — A cycle without pull that completes, as the watchers and the
    reload run it, publishes under every key the buckets the sources
    give in the world as it is, one after the other in the order of the
    settings; a source that is skipped gives nothing.  Snippets that two
    sources share stay in the table twice. *)
Theorem reload_publishes_sources_in_order (showNotifications : bool)
  (st st' : State) (repos : list RepoConfig) :
  syncAllRepos showNotifications false st = (Ok tt, st') ->
  getRepoConfigs (getConfiguration (world st)) = Ok repos ->
  world st' = world st
  /\ forall key,
       bucket key (snippetMap st')
       = flat_map (fun repo => bucket key (sourceTable (world st) repo)) repos.
Proof.
  intros Hrun E. destruct repos as [|r0 rest].
  - destruct (syncAllRepos_empty showNotifications false st E)
      as (st1 & E1 & Em & _ & _ & _ & Ew).
    rewrite E1 in Hrun. injection Hrun as <-. rewrite Em. now split.
  - assert (Hne : r0 :: rest <> []) by discriminate.
    set (st0 := set_repoWatchers [] (set_repoStatuses [] st)).
    pose proof (forOf_syncRepo_world_off (r0 :: rest) [] st0) as Hw.
    destruct (forOf (syncRepo false) (r0 :: rest) [] st0)
      as [[agg|e] st2] eqn:Hloop; cbn [snd] in Hw.
    + destruct (registrations agg) as [made [e|]] eqn:Hreg;
        [rewrite (syncAllRepos_unregistered showNotifications false st E Hne
                    Hloop Hreg) in Hrun; discriminate|].
      destruct (syncAllRepos_published showNotifications false st E Hne Hloop
                  Hreg)
        as (st1 & E1 & Em & _ & _ & _ & Ew).
      rewrite E1 in Hrun. injection Hrun as <-. rewrite Em, Ew.
      split; [exact Hw|]. intros key.
      now rewrite (@forOf_syncRepo_reload (r0 :: rest) key [] agg st0 st2 Hloop).
    + rewrite (syncAllRepos_threw showNotifications false st E Hne Hloop)
        in Hrun. discriminate.
Qed.

End Reload.

(** X19 (witness): the reload of the demo publishes the JavaScript
    snippet of [/a]. *)
Lemma reload_publishes_sources_in_order_witness :
  bucket (js "javascript")
         (snippetMap (snd (syncAllRepos (H := Demo.host) false false Demo.start)))
  = [normalizeSnippet (js "Log") Demo.logSnippet].
Proof.
  assert (H1 : syncAllRepos (H := Demo.host) false false Demo.start
               = (Ok tt, snd (syncAllRepos (H := Demo.host) false false Demo.start)))
    by (vm_compute; reflexivity).
  assert (H2 : getRepoConfigs (@getConfiguration Demo.host (world Demo.start))
               = Ok [Demo.repoA; Demo.repoB])
    by (vm_compute; reflexivity).
  rewrite (proj2 (@reload_publishes_sources_in_order Demo.host false Demo.start
                    _ _ H1 H2)).
  vm_compute. reflexivity.
Defined.

(** ** The log *)

Section Debug.

Context {H : Host}.

Lemma logged_off (w : World) (message : Js.str) :
  nullish_or (cfg_debug (getConfiguration w)) false = false ->
  logged w message true = [].
Proof. unfold logged. now intros ->. Qed.

Lemma loadWarning_not_console (e : Event) : isLoadWarning e -> ~ isConsole e.
Proof. intros (f & err & ->) Hc. exact Hc. Qed.

Lemma syncRepo_events_off (aggregateMap : SnippetMap) (repo : RepoConfig)
  (st : State) :
  nullish_or (cfg_debug (getConfiguration (world st))) false = false ->
  exists evs,
    events (snd (syncRepo false aggregateMap repo st)) = events st ++ evs
    /\ Forall isLoadWarning evs.
Proof.
  intros Hd. rewrite syncRepo_run. cbv zeta.
  set (repoPath := resolveRepoPath (world st) (localRepoPath repo)).
  destruct (notGitRepo (world st) repoPath).
  { exists []. split; [cbn; now rewrite List.app_nil_r | constructor]. }
  pose proof (events_pulledState false repo repoPath st) as Ev.
  unfold pullEvents, pulls in Ev. cbn [andb] in Ev.
  rewrite List.app_nil_r in Ev.
  rewrite world_pulledState. unfold pullWorld, pulls. cbn [andb].
  destruct (negb (existsSync _ _)).
  { exists []. split; [|constructor].
    cbn [snd store set_repoStatuses events]. now rewrite Ev, List.app_nil_r. }
  destruct (walk _ _) as [all|e].
  - eexists. split.
    + cbn [snd store set_repoStatuses set_repoWatchers events add_events].
      rewrite Ev, (logged_off _ _ Hd). cbn [app]. reflexivity.
    + apply fileWarnings_load.
  - exists []. split; [|constructor]. cbn [snd]. now rewrite Ev, List.app_nil_r.
Qed.

Lemma forOf_syncRepo_events_off (repos : list RepoConfig) :
  forall (aggregateMap : SnippetMap) (st : State),
    nullish_or (cfg_debug (getConfiguration (world st))) false = false ->
    exists evs,
      events (snd (forOf (syncRepo false) repos aggregateMap st))
      = events st ++ evs
      /\ Forall isLoadWarning evs.
Proof.
  induction repos as [|r rest IH]; intros agg st Hd.
  - exists []. split; [cbn; now rewrite List.app_nil_r | constructor].
  - rewrite forOf_step.
    destruct (syncRepo_events_off agg r st Hd) as (evs1 & E1 & H1).
    pose proof (world_syncRepo false agg r st) as W. cbv zeta in W.
    assert (W' : world (snd (syncRepo false agg r st)) = world st).
    { rewrite W. now destruct (notGitRepo _ _). }
    destruct (syncRepo false agg r st) as [[agg1|e] st1]; cbn [snd] in *.
    + rewrite <- W' in Hd. destruct (IH agg1 st1 Hd) as (evs2 & E2 & H2).
      exists (evs1 ++ evs2). split.
      * rewrite E2, E1. now rewrite List.app_assoc.
      * apply Forall_app. now split.
    + exists evs1. now split.
Qed.

(** X20 — Every message the extension logs is for debugging only: while
    the [debug] setting is off or absent, a cycle without pull writes
    nothing to the console, whether it is asked to notify or not, whether
    it completes or throws; asking a provider for its items and
    scheduling the timer leave the state of the extension as it is. *)
Theorem nothing_is_logged_unless_debug (st : State) :
  nullish_or (cfg_debug (getConfiguration (world st))) false = false ->
  (forall showNotifications,
      exists evs,
        events (snd (syncAllRepos showNotifications false st))
        = events st ++ evs
        /\ Forall (fun e => ~ isConsole e) evs)
  /\ (forall p, snd (provideCompletionItems p st) = st)
  /\ (forall setting rt, ext rt = st -> ext (scheduleAutoSync setting rt) = st).
Proof.
  intros Hd.
  assert (Hlog : forall message, log message true st = (Ok tt, st)).
  { intros message. rewrite log_run, (logged_off _ _ Hd). now rewrite add_events_nil. }
  split; [|split].
  - intros showNotifications.
    destruct (getRepoConfigs (getConfiguration (world st))) as [repos|e] eqn:E.
    2:{ rewrite (syncAllRepos_config_error showNotifications false st E).
        exists []. split; [cbn; now rewrite List.app_nil_r | constructor]. }
    destruct repos as [|r0 rest].
    + destruct (syncAllRepos_none false st E) as [E0 E1].
      destruct showNotifications; [rewrite E1 | rewrite E0]; cbn [snd];
        match goal with
        | |- context [snd (updateStatusBar ?s)] =>
            destruct (updateStatusBar_frame s) as (Fe & _)
        end.
      * eexists. split; [cbn [events add_event]; rewrite Fe; reflexivity|].
        constructor; [|constructor]. intros Hc. exact Hc.
      * exists []. split; [|constructor]. rewrite Fe. cbn.
        now rewrite List.app_nil_r.
    + assert (Hne : r0 :: rest <> []) by discriminate.
      set (st0 := set_repoWatchers [] (set_repoStatuses [] st)).
      destruct (forOf_syncRepo_events_off (r0 :: rest) [] st0 Hd)
        as (evs & Ee & Hf).
      pose proof (forOf_syncRepo_world_off (r0 :: rest) [] st0) as Hw.
      assert (Hnc : Forall (fun e => ~ isConsole e) evs).
      { eapply Forall_impl; [|exact Hf]. apply loadWarning_not_console. }
      destruct (forOf (syncRepo false) (r0 :: rest) [] st0)
        as [[agg|e] st2] eqn:Hloop; cbn [snd] in Ee, Hw.
      * destruct (registrations agg) as [made [e|]] eqn:Hreg.
        { rewrite (syncAllRepos_unregistered showNotifications false st E Hne
                     Hloop Hreg).
          cbn [snd events set_providerDisposables set_snippetMap].
          exists evs. now split. }
        destruct (syncAllRepos_completed false st E Hne Hloop Hreg)
          as (message & E0 & E1).
        assert (Hd2 : nullish_or (cfg_debug (getConfiguration (world st2))) false
                      = false) by (rewrite Hw; exact Hd).
        rewrite (logged_off _ message Hd2) in E0, E1.
        destruct showNotifications; [rewrite E1 | rewrite E0]; cbn [snd];
          match goal with
          | |- context [snd (updateStatusBar ?s)] =>
              destruct (updateStatusBar_frame s) as (Fe & _)
          end.
        -- eexists. split.
           ++ cbn [events add_event]. rewrite Fe.
              cbn [events set_providerDisposables add_events set_snippetMap].
              rewrite Ee, List.app_nil_r, <- List.app_assoc. reflexivity.
           ++ apply Forall_app. split; [exact Hnc|].
              constructor; [|constructor]. unfold closingNotice.
              cbn [length Nat.eqb]. intros Hc. exact Hc.
        -- exists evs. split; [|exact Hnc]. rewrite Fe.
           cbn [events set_providerDisposables add_events set_snippetMap].
           now rewrite Ee, List.app_nil_r.
      * rewrite (syncAllRepos_threw showNotifications false st E Hne Hloop).
        cbn [snd]. exists evs. now split.
  - intros p. unfold provideCompletionItems.
    destruct (selector p); unfold bind; rewrite Hlog; reflexivity.
  - intros setting rt <-. unfold scheduleAutoSync. cbv zeta.
    assert (Hc : ext (clearSyncTimer rt) = ext rt).
    { unfold clearSyncTimer. now destruct (syncTimer rt). }
    destruct (0 <? whole (nullish_or setting fifteen))%Z;
      cbn [setInterval onExt set_syncTimer ext]; rewrite Hc, Hlog; reflexivity.
Qed.

End Debug.

(** X20 (witness): the twin settings leave [debug] unset; a reload with
    them logs nothing. *)
Lemma nothing_is_logged_unless_debug_witness :
  snd (provideCompletionItems (H := Demo.host)
         (providerFor [] ByFileScheme) DemoMore.startTwins)
  = DemoMore.startTwins.
Proof.
  assert (Hd : nullish_or
                 (cfg_debug (@getConfiguration Demo.host
                               (world DemoMore.startTwins))) false
               = false) by reflexivity.
  exact (proj1 (proj2 (@nothing_is_logged_unless_debug Demo.host
                         DemoMore.startTwins Hd))
           (providerFor [] ByFileScheme)).
Defined.
